(** * iplsd: the log scanner, its two file-backed stores and its shutdown path

    A shallow embedding of [scanner/scanner.go].  Strings are Go strings,
    that is byte sequences: [string] at the interfaces, [list ascii] inside
    the string functions.  File and process effects are threaded through an
    explicit [World]; a failing call keeps the world it reached, as the Go
    code keeps the files it has already written. *)

From Stdlib Require Import ZArith List Ascii String Bool Lia.
From stdpp Require Import base gmap strings.
Import ListNotations.

Local Open Scope Z_scope.

(** ** Byte strings *)

Abbreviation bytes := (list ascii).

Definition byte (n : nat) : ascii := ascii_of_nat n.

Abbreviation str := string_of_list_ascii.
Abbreviation unstr := list_ascii_of_string.

Definition newline : ascii := byte 10.
Definition carriage_return : ascii := byte 13.

Definition byte_eqb (a b : ascii) : bool := Ascii.eqb a b.

(** The string made of one newline. *)
Definition nl : string := String newline EmptyString.

(** ** Package strings *)

Module Strings.

(** [asciiSpace] of the Go runtime: tab, newline, vertical tab, form feed,
    carriage return and blank. *)
Definition space1 (a : ascii) : bool :=
  let n := nat_of_ascii a in
  ((9 <=? n) && (n <=? 13))%nat || (n =? 32)%nat.

(** The two-byte UTF-8 encodings that [unicode.IsSpace] accepts:
    U+0085 and U+00A0. *)
Definition space2 (a b : ascii) : bool :=
  let x := nat_of_ascii a in
  let y := nat_of_ascii b in
  (x =? 194)%nat && ((y =? 133) || (y =? 160))%nat.

(** The three-byte ones: U+1680, U+2000 to U+200A, U+2028, U+2029, U+202F,
    U+205F and U+3000. *)
Definition space3 (a b c : ascii) : bool :=
  let x := nat_of_ascii a in
  let y := nat_of_ascii b in
  let z := nat_of_ascii c in
  ((x =? 225) && (y =? 154) && (z =? 128))%nat
  || ((x =? 226) && (y =? 128)
      && (((128 <=? z) && (z <=? 138)) || (z =? 168) || (z =? 169) || (z =? 175)))%nat
  || ((x =? 226) && (y =? 129) && (z =? 159))%nat
  || ((x =? 227) && (y =? 128) && (z =? 128))%nat.

(** The trimming loop: drop white space runes from the front, where a rune
    of two or three bytes is recognised by [sp2] and [sp3]. *)
Fixpoint trimWith (sp2 : ascii -> ascii -> bool)
    (sp3 : ascii -> ascii -> ascii -> bool) (s : bytes) : bytes :=
  match s with
  | [] => []
  | a :: s1 =>
      if space1 a then trimWith sp2 sp3 s1 else
      match s1 with
      | [] => s
      | b :: s2 =>
          if sp2 a b then trimWith sp2 sp3 s2 else
          match s2 with
          | [] => s
          | c :: s3 => if sp3 a b c then trimWith sp2 sp3 s3 else s
          end
      end
  end.

(** Does the string start with a white space rune. *)
Definition startsSpace (sp2 : ascii -> ascii -> bool)
    (sp3 : ascii -> ascii -> ascii -> bool) (s : bytes) : bool :=
  match s with
  | [] => false
  | a :: s1 =>
      space1 a ||
      match s1 with
      | [] => false
      | b :: s2 =>
          sp2 a b ||
          match s2 with
          | [] => false
          | c :: _ => sp3 a b c
          end
      end
  end.

(** [TrimLeftFunc s unicode.IsSpace]. *)
Definition trimLeft : bytes -> bytes := trimWith space2 space3.

(** [TrimRightFunc], on the reversed string: the last rune is decoded from
    the bytes that precede the end, so the encodings are read backwards. *)
Definition trimRightRev : bytes -> bytes :=
  trimWith (fun a b => space2 b a) (fun a b c => space3 c b a).

Definition trimRight (s : bytes) : bytes := rev (trimRightRev (rev s)).

Definition trimSpace (s : bytes) : bytes := trimRight (trimLeft s).

Definition TrimSpace (s : string) : string := str (trimSpace (unstr s)).

(** [strings.Join]: the elements separated by [sep]. *)
Fixpoint join (sep : bytes) (l : list bytes) : bytes :=
  match l with
  | [] => []
  | [x] => x
  | x :: rest => x ++ sep ++ join sep rest
  end.

Definition Join (l : list string) (sep : string) : string :=
  str (join (unstr sep) (map unstr l)).

(** [strings.Split s " "] for a one-byte separator: never empty, the
    fields may be. *)
Fixpoint split_go (sep : ascii) (acc : bytes) (s : bytes) : list bytes :=
  match s with
  | [] => [rev acc]
  | c :: s' =>
      if byte_eqb c sep then rev acc :: split_go sep [] s'
      else split_go sep (c :: acc) s'
  end.

Definition Split (s : string) (sep : ascii) : list string :=
  map str (split_go sep [] (unstr s)).

End Strings.

(** ** Package slices *)

Module Slices.

Definition Contains (l : list string) (x : string) : bool :=
  existsb (String.eqb x) l.

(** [slices.Index]: the first position of [x]; Go's -1 is [None]. *)
Fixpoint Index (l : list string) (x : string) : option nat :=
  match l with
  | [] => None
  | y :: rest =>
      if String.eqb y x then Some 0%nat
      else match Index rest x with
           | Some i => Some (S i)
           | None => None
           end
  end.

(** [slices.Delete l i j] for [i <= j <= len l] (Go panics otherwise; the
    only caller passes [i, i+1] with [i] a valid index). *)
Definition Delete (l : list string) (i j : nat) : list string :=
  firstn i l ++ skipn j l.

End Slices.

(** ** Package bufio: a Scanner with the default split function *)

Module Bufio.

(** [bufio.MaxScanTokenSize]: a line must fit the buffer together with
    its terminator, or alone when it ends the file unterminated. *)
Definition MaxScanTokenSize : Z := 65536.

(** The raw lines of [bufio.ScanLines]: cut at every newline; a final
    line without newline counts when it is not empty. *)
Fixpoint rawLines (acc : bytes) (s : bytes) : list bytes :=
  match s with
  | [] => match acc with [] => [] | _ => [rev acc] end
  | c :: s' =>
      if byte_eqb c newline then rev acc :: rawLines [] s'
      else rawLines (c :: acc) s'
  end.

(** [dropCR]: one trailing carriage return is not part of the line. *)
Definition dropCR (l : bytes) : bytes :=
  match rev l with
  | c :: r => if byte_eqb c carriage_return then rev r else l
  | [] => l
  end.

Definition fits (l : bytes) : bool :=
  Z.of_nat (length l) <? MaxScanTokenSize.

End Bufio.

(** ** Package regexp, as far as [IP_PATTERN] needs it *)

Module Regexp.

Inductive regex : Type :=
| Void : regex
| Eps : regex
| Class : (ascii -> bool) -> regex
| Cat : regex -> regex -> regex
| Alt : regex -> regex -> regex
| Star : regex -> regex.

(** The language of a regular expression. *)
Inductive Matches : regex -> bytes -> Prop :=
| MEps : Matches Eps []
| MClass p c : p c = true -> Matches (Class p) [c]
| MCat r1 r2 s1 s2 :
    Matches r1 s1 -> Matches r2 s2 -> Matches (Cat r1 r2) (s1 ++ s2)
| MAltL r1 r2 s : Matches r1 s -> Matches (Alt r1 r2) s
| MAltR r1 r2 s : Matches r2 s -> Matches (Alt r1 r2) s
| MStar0 r : Matches (Star r) []
| MStarS r s1 s2 :
    Matches r s1 -> Matches (Star r) s2 -> Matches (Star r) (s1 ++ s2).

Fixpoint nullable (r : regex) : bool :=
  match r with
  | Void => false
  | Eps => true
  | Class _ => false
  | Cat r1 r2 => nullable r1 && nullable r2
  | Alt r1 r2 => nullable r1 || nullable r2
  | Star _ => true
  end.

Definition mkCat (r1 r2 : regex) : regex :=
  match r1 with
  | Void => Void
  | _ => Cat r1 r2
  end.

Definition mkAlt (r1 r2 : regex) : regex :=
  match r1, r2 with
  | Void, _ => r2
  | _, Void => r1
  | _, _ => Alt r1 r2
  end.

Fixpoint deriv (c : ascii) (r : regex) : regex :=
  match r with
  | Void => Void
  | Eps => Void
  | Class p => if p c then Eps else Void
  | Cat r1 r2 =>
      if nullable r1 then mkAlt (mkCat (deriv c r1) r2) (deriv c r2)
      else mkCat (deriv c r1) r2
  | Alt r1 r2 => mkAlt (deriv c r1) (deriv c r2)
  | Star r1 => mkCat (deriv c r1) (Star r1)
  end.

Fixpoint accepts (r : regex) (s : bytes) : bool :=
  match s with
  | [] => nullable r
  | c :: s' => accepts (deriv c r) s'
  end.

(** [x{n}] and [x{0,n}]. *)
Fixpoint times (n : nat) (r : regex) : regex :=
  match n with
  | O => Eps
  | S n' => Cat r (times n' r)
  end.

Fixpoint upto (n : nat) (r : regex) : regex :=
  match n with
  | O => Eps
  | S n' => Alt (Cat r (upto n' r)) Eps
  end.

(** [x{lo,hi}], greedy or not: only the language matters to a match. *)
Definition between (lo hi : nat) (r : regex) : regex :=
  Cat (times lo r) (upto (hi - lo) r).

(** [\d] is the ASCII digits in Go's syntax. *)
Definition digit (c : ascii) : bool :=
  let n := nat_of_ascii c in ((48 <=? n) && (n <=? 57))%nat.

Definition lit (a : ascii) : regex := Class (byte_eqb a).

Definition any : regex := Class (fun _ => true).

(** [re.MatchString s]: some substring of [s] is in the language. *)
Definition MatchString (re : regex) (s : string) : bool :=
  accepts (Cat (Star any) (Cat re (Star any))) (unstr s).

End Regexp.

(** [var IP_PATTERN = regexp.MustCompile(`((?:\d{1,3}\.){3}\d{1,3})`)] *)
Definition IP_PATTERN : Regexp.regex :=
  let d13 := Regexp.between 1 3 (Regexp.Class Regexp.digit) in
  Regexp.Cat (Regexp.times 3 (Regexp.Cat d13 (Regexp.lit "."%char))) d13.

(** ** Time *)

(** An instant is a count of nanoseconds on the time line, a duration a
    difference of two; [Time.Compare] orders instants. *)
Abbreviation Time := Z.
Abbreviation Duration := Z.

Module TimePkg.

Definition Add (t : Time) (d : Duration) : Time := t + d.

(** [t.Compare(u)]: -1, 0 or +1. *)
Definition Compare (t u : Time) : Z :=
  match t ?= u with
  | Lt => -1
  | Eq => 0
  | Gt => 1
  end.

Definition second : Duration := 1000000000.

(** [MarshalText] writes RFC 3339 and refuses a year outside 0..9999
    (taken in UTC here). *)
Definition year0 : Time := -62167219200 * second.
Definition year10000 : Time := 253402300800 * second.

Definition representable (t : Time) : bool :=
  (year0 <=? t) && (t <? year10000).

End TimePkg.

(** The bytes of a timeout file, seen through [Time.UnmarshalText]: the
    RFC 3339 text of an instant, or bytes that do not parse. *)
Inductive TimeData : Type :=
| Marshalled (t : Time)
| Garbled (raw : string).

(** ** Errors *)

(** The errors the scanner returns.  [Errorf] is [fmt.Errorf] with the
    cause as last verb; [Fatal] and [Fatalf] stand for the helpers of these
    names in the common code of the repository, which return an error made
    from their argument. *)
Inductive error : Type :=
| PathError (op path : string)
| ErrTooLong
| ErrMarshalText
| ErrUnmarshalText
| ExitError (command : string) (args : list string)
| SyntaxError (pkg text : string)
| UnexpectedAddress (addr file : string)
| Errorf (context : string) (cause : error)
| Fatal (cause : error)
| Fatalf (context : string) (cause : error).

Inductive Result (A : Type) : Type :=
| Ok (a : A)
| Err (e : error).
Arguments Ok {A} a.
Arguments Err {A} e.

Definition MarshalText (t : Time) : Result TimeData :=
  if TimePkg.representable t then Ok (Marshalled t) else Err ErrMarshalText.

Definition UnmarshalText (d : TimeData) : Result Time :=
  match d with
  | Marshalled t => Ok t
  | Garbled _ => Err ErrUnmarshalText
  end.

(** ** The file system the scanner sees *)

(** The type bits of [fs.FileMode]; a regular file has none of them. *)
Inductive FileMode : Type :=
| ModeDir | ModeSymlink | ModeNamedPipe | ModeSocket
| ModeDevice | ModeCharDevice | ModeIrregular.

Inductive Node : Type :=
| Regular (data : TimeData)
| NonRegular (mode : FileMode).

Definition IsRegular (n : Node) : bool :=
  match n with
  | Regular _ => true
  | NonRegular _ => false
  end.

(** A directory listing, in the order [os.ReadDir] returns it. *)
Abbreviation Entries := (list (string * Node)).

(** What is found at the path [s.TimeoutDir]. *)
Inductive DirPath : Type :=
| DirMissing
| DirBlocked
| DirOf (entries : Entries).

(** What is found at the path [s.AddressFile]. *)
Inductive FilePath : Type :=
| FileMissing
| FileBlocked
| FileOf (content : string).

Inductive LogLine : Type :=
| LogTail (line : string)
| LogScannerIP (addr action file : string)
| LogReaperExpired (addr action file : string)
| LogReaperActive (addr : string) (data : TimeData).

(** What the process does to the outside, in order. *)
Inductive Event : Type :=
| EvMkdir
| EvReadDir
| EvReadFile (name : string)
| EvWriteFile (name : string) (data : TimeData)
| EvRemove (name : string)
| EvOpenAddressFile
| EvWriteAddressFile (content : string)
| EvExec (command : string) (args : list string)
| EvLog (line : LogLine).

Record World : Type := mkWorld {
  addressPath : FilePath;
  timeoutPath : DirPath;
  clock : nat -> Time;          (* the successive readings of time.Now() *)
  ticks : nat;                  (* readings taken so far *)
  commandOk : string -> list string -> bool;   (* does the hook exit with 0 *)
  trace : list Event
}.

Definition emit (e : Event) (w : World) : World :=
  mkWorld (addressPath w) (timeoutPath w) (clock w) (ticks w) (commandOk w)
          (trace w ++ [e]).

Definition setAddressPath (p : FilePath) (w : World) : World :=
  mkWorld p (timeoutPath w) (clock w) (ticks w) (commandOk w) (trace w).

Definition setTimeoutPath (p : DirPath) (w : World) : World :=
  mkWorld (addressPath w) p (clock w) (ticks w) (commandOk w) (trace w).

Definition tick (w : World) : World :=
  mkWorld (addressPath w) (timeoutPath w) (clock w) (S (ticks w)) (commandOk w)
          (trace w).

(** ** Directory entries *)

Fixpoint lookupEntry (name : string) (l : Entries) : option Node :=
  match l with
  | [] => None
  | (n, x) :: rest => if String.eqb n name then Some x else lookupEntry name rest
  end.

(** A new file takes its place in the listing, which [os.ReadDir] sorts by
    file name; an existing entry keeps its place. *)
Fixpoint putEntry (name : string) (x : Node) (l : Entries) : Entries :=
  match l with
  | [] => [(name, x)]
  | (n, y) :: rest =>
      if String.eqb n name then (name, x) :: rest
      else if String.ltb name n then (name, x) :: (n, y) :: rest
      else (n, y) :: putEntry name x rest
  end.

Definition dropEntry (name : string) (l : Entries) : Entries :=
  List.filter (fun e => negb (String.eqb (fst e) name)) l.

Definition names (l : Entries) : list string := map fst l.

(** [filepath.Join(s.TimeoutDir, addr)] names an entry of the directory
    only for a plain file name. *)
Definition plainName (addr : string) : bool :=
  negb (String.eqb addr "")
  && negb (String.eqb addr ".")
  && negb (String.eqb addr "..")
  && negb (existsb (byte_eqb "/"%char) (unstr addr)).

(** ** The monad of the workers: state, and an error that keeps the state *)

Definition M (A : Type) : Type := World -> World * Result A.

Definition ret {A} (a : A) : M A := fun w => (w, Ok a).

Definition fail {A} (e : error) : M A := fun w => (w, Err e).

Definition bind {A B} (m : M A) (k : A -> M B) : M B :=
  fun w =>
    match m w with
    | (w', Ok a) => k a w'
    | (w', Err e) => (w', Err e)
    end.

(** [if err != nil { return wrap(err) }] *)
Definition orReturn {A} (wrap : error -> error) (m : M A) : M A :=
  fun w =>
    match m w with
    | (w', Ok a) => (w', Ok a)
    | (w', Err e) => (w', Err (wrap e))
    end.

Definition lift {A} (r : Result A) : M A := fun w => (w, r).

Definition effect (e : Event) : M unit := fun w => (emit e w, Ok tt).

Declare Scope go_scope.
Delimit Scope go_scope with go.
Notation "'do' x <- m ; k" := (bind m (fun x => k))
  (at level 10, x name, m at level 100, k at level 200) : go_scope.
Notation "'run' m ; k" := (bind m (fun _ => k))
  (at level 10, m at level 100, k at level 200) : go_scope.
Local Open Scope go_scope.

(** ** System calls *)

Definition time_Now : M Time :=
  fun w => (tick w, Ok (clock w (ticks w))).

(** [os.WriteFile(filepath.Join(s.TimeoutDir, addr), data, 0600)].  Writing
    creates or truncates a regular file; anything else in the way, or a name
    that leaves the directory, fails the call in this model. *)
Definition os_WriteFile_timeout (dir addr : string) (data : TimeData) : M unit :=
  run effect (EvWriteFile addr data);
  fun w =>
    match timeoutPath w with
    | DirOf entries =>
        if plainName addr then
          match lookupEntry addr entries with
          | Some (NonRegular _) => (w, Err (PathError "open" (dir +:+ "/" +:+ addr)))
          | _ => (setTimeoutPath (DirOf (putEntry addr (Regular data) entries)) w, Ok tt)
          end
        else (w, Err (PathError "open" (dir +:+ "/" +:+ addr)))
    | _ => (w, Err (PathError "open" (dir +:+ "/" +:+ addr)))
    end.

(** [os.ReadFile(filepath.Join(s.TimeoutDir, addr))] *)
Definition os_ReadFile_timeout (dir addr : string) : M TimeData :=
  run effect (EvReadFile addr);
  fun w =>
    match timeoutPath w with
    | DirOf entries =>
        match lookupEntry addr entries with
        | Some (Regular data) => (w, Ok data)
        | _ => (w, Err (PathError "read" (dir +:+ "/" +:+ addr)))
        end
    | _ => (w, Err (PathError "open" (dir +:+ "/" +:+ addr)))
    end.

(** [os.Remove(filepath.Join(s.TimeoutDir, addr))]: unlinks a file; the
    model fails it on a directory. *)
Definition os_Remove_timeout (dir addr : string) : M unit :=
  run effect (EvRemove addr);
  fun w =>
    match timeoutPath w with
    | DirOf entries =>
        match lookupEntry addr entries with
        | Some (NonRegular ModeDir) | None =>
            (w, Err (PathError "remove" (dir +:+ "/" +:+ addr)))
        | Some _ => (setTimeoutPath (DirOf (dropEntry addr entries)) w, Ok tt)
        end
    | _ => (w, Err (PathError "remove" (dir +:+ "/" +:+ addr)))
    end.

(** [os.ReadDir(s.TimeoutDir)] *)
Definition os_ReadDir (dir : string) : M Entries :=
  run effect EvReadDir;
  fun w =>
    match timeoutPath w with
    | DirOf entries => (w, Ok entries)
    | _ => (w, Err (PathError "open" dir))
    end.

(** [os.Open(s.AddressFile)] and the bytes the scanner will read from it. *)
Definition os_Open_address (file : string) : M string :=
  run effect EvOpenAddressFile;
  fun w =>
    match addressPath w with
    | FileOf content => (w, Ok content)
    | FileBlocked => (w, Err (PathError "read" file))
    | FileMissing => (w, Err (PathError "open" file))
    end.

(** [os.WriteFile(s.AddressFile, content, 0600)] *)
Definition os_WriteFile_address (file content : string) : M unit :=
  run effect (EvWriteAddressFile content);
  fun w =>
    match addressPath w with
    | FileBlocked => (w, Err (PathError "open" file))
    | _ => (setAddressPath (FileOf content) w, Ok tt)
    end.

(** ** The scanner *)

(** A compiled pattern, through the one method the scanner calls:
    [FindStringSubmatch] returns the whole match followed by the text of
    each capturing group, or nothing. *)
Record Pattern : Type := mkPattern {
  FindStringSubmatch : string -> list string
}.

(** The configuration fields of [type Scanner struct]. *)
Record Scanner : Type := mkScanner {
  LogFile : string;
  AddressFile : string;
  TimeoutDir : string;
  AddressTimeout : Duration;
  TickInterval : Duration;
  Patterns : list Pattern;
  AddCommand : string;
  AddArgs : list string;
  DeleteCommand : string;
  DeleteArgs : list string;
  verbose : bool
}.

Definition writeTimeoutFile (s : Scanner) (addr : string) : M unit :=
  do now <- time_Now;
  let expiration := TimePkg.Add now (AddressTimeout s) in
  do data <- orReturn (Errorf "failed marshalling expiration")
                      (lift (MarshalText expiration));
  os_WriteFile_timeout (TimeoutDir s) addr data.

Definition deleteTimeoutFile (s : Scanner) (addr : string) : M unit :=
  os_Remove_timeout (TimeoutDir s) addr.

(** [func (s *Scanner) exec]: run the command and wait; its output only
    goes to the log. *)
Definition exec (s : Scanner) (command : string) (args : list string) : M unit :=
  run effect (EvExec command args);
  fun w =>
    if commandOk w command args then (w, Ok tt)
    else (w, Err (ExitError command args)).

(** The loop of [readAddressFile] over the lines [scanner.Scan()] yields;
    a line too long for the buffer ends the scan with [scanner.Err()]. *)
Fixpoint scanAddresses (file : string) (addrs : list string) (lines : list bytes)
  : Result (list string) :=
  match lines with
  | [] => Ok addrs
  | raw :: rest =>
      if Bufio.fits raw then
        let addr := Strings.TrimSpace (str (Bufio.dropCR raw)) in
        if negb (String.eqb addr "") then
          if Regexp.MatchString IP_PATTERN addr
          then scanAddresses file (addrs ++ [addr]) rest
          else Err (UnexpectedAddress addr file)
        else scanAddresses file addrs rest
      else Err (Errorf ("failed reading address file '" +:+ file +:+ "'") ErrTooLong)
  end.

(** What [readAddressFile] makes of the bytes of the file. *)
Definition parseAddresses (file content : string) : Result (list string) :=
  scanAddresses file [] (Bufio.rawLines [] (unstr content)).

Definition readAddressFile (s : Scanner) : M (list string) :=
  do content <- os_Open_address (AddressFile s);
  lift (parseAddresses (AddressFile s) content).

Definition addAddress (s : Scanner) (addr : string) : M string :=
  run (if negb (String.eqb (AddCommand s) "")
       then exec s (AddCommand s) (AddArgs s ++ [addr])
       else ret tt);
  do addrs <- readAddressFile s;
  if Slices.Contains addrs addr then ret "already present in"%string
  else
    let addrs := addrs ++ [addr] in
    run os_WriteFile_address (AddressFile s) (Strings.Join addrs nl +:+ nl);
    ret "added to"%string.

Definition removeAddress (s : Scanner) (addr : string) : M string :=
  run (if negb (String.eqb (DeleteCommand s) "")
       then exec s (DeleteCommand s) (DeleteArgs s ++ [addr])
       else ret tt);
  do addrs <- readAddressFile s;
  if negb (Slices.Contains addrs addr) then ret "not present in"%string
  else
    match Slices.Index addrs addr with
    | Some i =>
        let addrs := Slices.Delete addrs i (i + 1) in
        run os_WriteFile_address (AddressFile s) (Strings.Join addrs nl +:+ nl);
        ret "deleted from"%string
    | None => ret "deleted from"%string   (* not reached: Contains holds *)
    end.

(** *** The log tail worker *)

(** The body of [if len(match) > 1] in the scanner loop: what the worker
    does with one matched address. *)
Definition onMatch (s : Scanner) (addr : string) : M unit :=
  run orReturn (Errorf "scanner: writeTimeoutFile") (writeTimeoutFile s addr);
  do action <- orReturn (Errorf "scanner: addAddress") (addAddress s addr);
  effect (EvLog (LogScannerIP addr action (AddressFile s))).

(** [for _, pattern := range s.Patterns] on one line of the log. *)
Fixpoint forPatterns (s : Scanner) (patterns : list Pattern) (line : string)
  : M unit :=
  match patterns with
  | [] => ret tt
  | pattern :: rest =>
      let found := FindStringSubmatch pattern line in
      if (1 <? length found)%nat then
        let addr := nth 1 found ""%string in
        run onMatch s addr;
        forPatterns s rest line
      else forPatterns s rest line
  end.

(** What one [select] of the scanner loop receives. *)
Inductive TailSelect : Type :=
| StdoutLine (line : string)
| StdoutClosed
| StderrLine (line : string)
| StderrClosed.

(** A worker either has returned or waits in its [select]. *)
Inductive Status : Type := Returned | Waiting.

(** [for stderrOpen || stdoutOpen { select ... }] over the receptions that
    the run delivers; an error returns from the worker. *)
Fixpoint scannerLoop (s : Scanner) (stderrOpen stdoutOpen : bool)
    (selects : list TailSelect) : M Status :=
  if negb (stderrOpen || stdoutOpen) then ret Returned else
  match selects with
  | [] => ret Waiting
  | StdoutLine line :: rest =>
      run forPatterns s (Patterns s) line;
      scannerLoop s stderrOpen stdoutOpen rest
  | StdoutClosed :: rest => scannerLoop s stderrOpen false rest
  | StderrLine line :: rest =>
      run effect (EvLog (LogTail line));
      scannerLoop s stderrOpen stdoutOpen rest
  | StderrClosed :: rest => scannerLoop s false stdoutOpen rest
  end.

(** *** The reaper *)

(** The first loop of a tick: read every regular entry and collect the
    expired addresses. *)
Fixpoint collectExpired (s : Scanner) (entries : Entries)
    (expiredAddrs : list string) : M (list string) :=
  match entries with
  | [] => ret expiredAddrs
  | (addr, node) :: rest =>
      if IsRegular node then
        do timeData <- orReturn Fatal (os_ReadFile_timeout (TimeoutDir s) addr);
        do expiration <-
          orReturn (Fatalf ("reaper: failed umarshalling expiration from '"
                            +:+ TimeoutDir s +:+ "/" +:+ addr +:+ "'"))
                   (lift (UnmarshalText timeData));
        do now <- time_Now;
        if 0 <=? TimePkg.Compare now expiration
        then collectExpired s rest (expiredAddrs ++ [addr])
        else
          run effect (EvLog (LogReaperActive addr timeData));
          collectExpired s rest expiredAddrs
      else collectExpired s rest expiredAddrs
  end.

(** The second loop: [for _, addr := range expiredAddrs]. *)
Fixpoint removeExpired (s : Scanner) (expiredAddrs : list string) : M unit :=
  match expiredAddrs with
  | [] => ret tt
  | addr :: rest =>
      do action <- orReturn (Fatalf "reaper: removeAddress failed")
                            (removeAddress s addr);
      run orReturn Fatal (deleteTimeoutFile s addr);
      run effect (EvLog (LogReaperExpired addr action (AddressFile s)));
      removeExpired s rest
  end.

(** [case <-ticker.C:] one sweep of the timeout directory. *)
Definition sweep (s : Scanner) : M unit :=
  do entries <- orReturn Fatal (os_ReadDir (TimeoutDir s));
  do expiredAddrs <- collectExpired s entries [];
  removeExpired s expiredAddrs.

Inductive ReaperSelect : Type :=
| ReaperStop (ok : bool)
| Tick.

Fixpoint reaperLoop (s : Scanner) (selects : list ReaperSelect) : M Status :=
  match selects with
  | [] => ret Waiting
  | ReaperStop _ :: _ => ret Returned
  | Tick :: rest => run sweep s; reaperLoop s rest
  end.

(** *** Construction *)

(** Modelled from the spec: [IsDir] comes from the common helpers of the
    repository; it says whether the path exists as a directory ("ensure the
    Timeout Store directory and Watchlist Store file exist (create if
    absent)"). *)
Definition IsDir (w : World) : bool :=
  match timeoutPath w with
  | DirOf _ => true
  | _ => false
  end.

(** Modelled from the spec: [IsFile], from the same helpers, says whether
    the path exists as a regular file; here for [s.AddressFile]. *)
Definition IsFile_address (w : World) : bool :=
  match addressPath w with
  | FileOf _ => true
  | _ => false
  end.

(** Modelled from the spec: [IsFile] for the timeout file of an address,
    [filepath.Join(TimeoutDir, addr)] ("for each address lacking a
    Timeout Record, synthesize one with a fresh expiration"). *)
Definition IsFile_timeout (addr : string) (w : World) : bool :=
  match timeoutPath w with
  | DirOf entries =>
      plainName addr &&
      match lookupEntry addr entries with
      | Some (Regular _) => true
      | _ => false
      end
  | _ => false
  end.

(** [os.Mkdir(TimeoutDir, 0700)] *)
Definition os_Mkdir (dir : string) : M unit :=
  run effect EvMkdir;
  fun w =>
    match timeoutPath w with
    | DirMissing => (setTimeoutPath (DirOf []) w, Ok tt)
    | _ => (w, Err (PathError "mkdir" dir))
    end.

(** The values the configuration layer hands out ([ViperGetString],
    [ViperGetBool]). *)
Record Config : Type := mkConfig {
  timeout_seconds : string;
  interval_seconds : string;
  add_command : string;
  delete_command : string;
  verbose_flag : bool
}.

Definition query {A} (f : World -> A) : M A := fun w => (w, Ok (f w)).

Section Construction.

(** [time.ParseDuration] and [regexp.Compile], with Go's [nil] error as
    [Some]. *)
Variable ParseDuration : string -> option Duration.
Variable Compile : string -> option Pattern.

Fixpoint compileAll (patterns : list string) (acc : list Pattern)
  : Result (list Pattern) :=
  match patterns with
  | [] => Ok acc
  | pattern :: rest =>
      match Compile pattern with
      | Some re => compileAll rest (acc ++ [re])
      | None => Err (Errorf "failed regex compile" (SyntaxError "regexp" pattern))
      end
  end.

(** [for _, addr := range addrs]: a record for each address without one. *)
Fixpoint reconcile (s : Scanner) (addrs : list string) : M unit :=
  match addrs with
  | [] => ret tt
  | addr :: rest =>
      do present <- query (IsFile_timeout addr);
      run (if negb present then writeTimeoutFile s addr else ret tt);
      reconcile s rest
  end.

Definition NewScanner (cfg : Config) (logFile addressFile timeoutDir : string)
    (patterns : list string) : M Scanner :=
  match ParseDuration (timeout_seconds cfg +:+ "s") with
  | None => fail (Errorf "ParseDuration (timeout_seconds) failed"
                         (SyntaxError "time" (timeout_seconds cfg)))
  | Some timeout =>
  match ParseDuration (interval_seconds cfg +:+ "s") with
  | None => fail (Errorf "ParseDuration (interval_seconds) failed"
                         (SyntaxError "time" (interval_seconds cfg)))
  | Some interval =>
      let addCommand := Strings.Split (add_command cfg) " "%char in
      let deleteCommand := Strings.Split (delete_command cfg) " "%char in
      do compiled <- lift (compileAll patterns []);
      let s := mkScanner logFile addressFile timeoutDir timeout interval
                 compiled
                 (hd ""%string addCommand) (tl addCommand)
                 (hd ""%string deleteCommand) (tl deleteCommand)
                 (verbose_flag cfg) in
      do isDir <- query IsDir;
      run (if negb isDir then os_Mkdir timeoutDir else ret tt);
      do isFile <- query IsFile_address;
      run (if negb isFile then os_WriteFile_address addressFile "" else ret tt);
      do addrs <- readAddressFile s;
      run reconcile s addrs;
      ret s
  end
  end.

End Construction.

(** ** The shutdown coordinator *)

Module Coordinator.

Inductive Worker : Type := Reaper | Tailer | Handler.

#[global] Instance Worker_eq_dec : EqDecision Worker.
Proof. solve_decision. Defined.

(** The keys of [s.active]. *)
Definition key (k : Worker) : string :=
  match k with
  | Reaper => "reaper"
  | Tailer => "scanner"
  | Handler => "handler"
  end.

Definition marker : string := "shutdown".

(** What the [sync.Map] holds: [true] for a worker, the caller's name
    under the marker. *)
Inductive Value : Type :=
| VBool (b : bool)
| VString (s : string).

(** A stop channel, [make(chan struct{}, 1)]. *)
Record Chan : Type := mkChan {
  queued : nat;
  closed : bool
}.

Definition capacity : nat := 1.

(** [exec.Cmd]: [Process] is nil until the command has started. *)
Record Cmd : Type := mkCmd {
  Process : option nat
}.

(** What the coordinator does to the outside. *)
Inductive Action : Type :=
| Kill
| WaitTail
| Send (k : Worker).

(** The fields of [type Scanner struct] that the workers share. *)
Record Runtime : Type := mkRuntime {
  tail : option Cmd;
  active : gmap string Value;
  reaperStop : Chan;
  scannerStop : Chan;
  handlerStop : Chan;
  shutdownLock : bool;
  done : list Action
}.

Definition stopChan (k : Worker) (r : Runtime) : Chan :=
  match k with
  | Reaper => reaperStop r
  | Tailer => scannerStop r
  | Handler => handlerStop r
  end.

Definition setStopChan (k : Worker) (c : Chan) (r : Runtime) : Runtime :=
  match k with
  | Reaper => mkRuntime (tail r) (active r) c (scannerStop r) (handlerStop r)
                        (shutdownLock r) (done r)
  | Tailer => mkRuntime (tail r) (active r) (reaperStop r) c (handlerStop r)
                        (shutdownLock r) (done r)
  | Handler => mkRuntime (tail r) (active r) (reaperStop r) (scannerStop r) c
                         (shutdownLock r) (done r)
  end.

Definition setActive (m : gmap string Value) (r : Runtime) : Runtime :=
  mkRuntime (tail r) m (reaperStop r) (scannerStop r) (handlerStop r)
            (shutdownLock r) (done r).

Definition setTail (t : option Cmd) (r : Runtime) : Runtime :=
  mkRuntime t (active r) (reaperStop r) (scannerStop r) (handlerStop r)
            (shutdownLock r) (done r).

Definition setLock (b : bool) (r : Runtime) : Runtime :=
  mkRuntime (tail r) (active r) (reaperStop r) (scannerStop r) (handlerStop r)
            b (done r).

Definition act (l : list Action) (r : Runtime) : Runtime :=
  mkRuntime (tail r) (active r) (reaperStop r) (scannerStop r) (handlerStop r)
            (shutdownLock r) (done r ++ l).

(** A statement of the body ends, waits for ever, or panics. *)
Inductive Outcome : Type :=
| Finished (r : Runtime)
| Stuck (r : Runtime)
| Panicked (r : Runtime).

(** [if s.tail == nil { } else { if s.tail.Process != nil { Kill; Wait };
    s.tail = nil }]; a failed kill or wait is only logged. *)
Definition stopTail (r : Runtime) : Runtime :=
  match tail r with
  | None => r
  | Some cmd =>
      match Process cmd with
      | Some _ => setTail None (act [Kill; WaitTail] r)
      | None => setTail None r
      end
  end.

(** [_, ok = s.active.Load(k); if ok { stop <- struct{}{} }]: the send
    waits while the buffer is full and panics on a closed channel. *)
Definition notify (k : Worker) (r : Runtime) : Outcome :=
  match active r !! key k with
  | Some _ =>
      let c := stopChan k r in
      if closed c then Panicked r
      else if (queued c <? capacity)%nat
           then Finished (act [Send k] (setStopChan k (mkChan (S (queued c)) false) r))
           else Stuck r
  | None => Finished r
  end.

Definition andThen (o : Outcome) (k : Runtime -> Outcome) : Outcome :=
  match o with
  | Finished r => k r
  | _ => o
  end.

(** The deferred [s.shutdownLock.Unlock()] runs on return and on panic. *)
Definition unlocking (o : Outcome) : Outcome :=
  match o with
  | Finished r => Finished (setLock false r)
  | Panicked r => Panicked (setLock false r)
  | Stuck r => Stuck r
  end.

(** [func (s *Scanner) shutdown(caller string)], run without
    interruption. *)
Definition shutdown (caller : string) (r : Runtime) : Outcome :=
  if shutdownLock r then Stuck r else
  let r := setLock true r in
  unlocking
    match active r !! marker with
    | Some firstCaller => Finished r
    | None =>
        let r := setActive (<[marker := VString caller]> (active r)) r in
        let r := stopTail r in
        andThen (notify Reaper r) (fun r =>
        andThen (notify Tailer r) (fun r =>
        notify Handler r))
    end.

(** *** The same body, one statement at a time *)

Inductive PC : Type :=
| AwaitLock | LoadMarker | StoreMarker | StopTail
| Notify (k : Worker) | Unlock | Exit.

#[global] Instance PC_eq_dec : EqDecision PC.
Proof. solve_decision. Defined.

(** One statement of the invocation [shutdown(caller)] that stands at
    [pc]; [None] when it cannot move (it waits, has panicked or is over). *)
Definition threadStep (caller : string) (pc : PC) (r : Runtime)
  : option (PC * Runtime) :=
  match pc with
  | AwaitLock =>
      if shutdownLock r then None else Some (LoadMarker, setLock true r)
  | LoadMarker =>
      match active r !! marker with
      | Some _ => Some (Unlock, r)
      | None => Some (StoreMarker, r)
      end
  | StoreMarker =>
      Some (StopTail, setActive (<[marker := VString caller]> (active r)) r)
  | StopTail => Some (Notify Reaper, stopTail r)
  | Notify k =>
      match notify k r with
      | Finished r' =>
          Some (match k with
                | Reaper => Notify Tailer
                | Tailer => Notify Handler
                | Handler => Unlock
                end, r')
      | _ => None
      end
  | Unlock => Some (Exit, setLock false r)
  | Exit => None
  end.

(** What the workers and [Stop] do to the shared fields meanwhile. *)
Inductive EnvAction : Type :=
| Activate (k : Worker)       (* s.active.Store(k, true) *)
| Deactivate (k : Worker)     (* s.active.Delete(k) *)
| StartTail (cmd : Cmd)       (* s.tail = exec.Command(...), s.tail.Start() *)
| Receive (k : Worker)        (* <-stop *)
| CloseStop (k : Worker).     (* close(stop) *)

Definition envStep (a : EnvAction) (r : Runtime) : option Runtime :=
  match a with
  | Activate k => Some (setActive (<[key k := VBool true]> (active r)) r)
  | Deactivate k => Some (setActive (delete (key k) (active r)) r)
  | StartTail cmd => Some (setTail (Some cmd) r)
  | Receive k =>
      match queued (stopChan k r) with
      | S n => Some (setStopChan k (mkChan n (closed (stopChan k r))) r)
      | O => if closed (stopChan k r) then Some r else None
      end
  | CloseStop k =>
      if closed (stopChan k r) then None
      else Some (setStopChan k (mkChan (queued (stopChan k r)) true) r)
  end.

Record System : Type := mkSystem {
  shared : Runtime;
  threads : list (string * PC)     (* the invocations of shutdown *)
}.

Inductive Label : Type :=
| Call (caller : string)
| Step (i : nat) (pc : PC)
| Env (a : EnvAction).

Definition step (l : Label) (s : System) : option System :=
  match l with
  | Call caller =>
      Some (mkSystem (shared s) (threads s ++ [(caller, AwaitLock)]))
  | Step i pc =>
      match threads s !! i with
      | Some (caller, pc0) =>
          if decide (pc0 = pc) then
            match threadStep caller pc (shared s) with
            | Some (pc', r') =>
                Some (mkSystem r' (<[i := (caller, pc')]> (threads s)))
            | None => None
            end
          else None
      | None => None
      end
  | Env a =>
      match envStep a (shared s) with
      | Some r' => Some (mkSystem r' (threads s))
      | None => None
      end
  end.

Fixpoint execute (ls : list Label) (s : System) : option System :=
  match ls with
  | [] => Some s
  | l :: rest =>
      match step l s with
      | Some s' => execute rest s'
      | None => None
      end
  end.

(** The scanner as [NewScanner] leaves it. *)
Definition fresh : Runtime :=
  mkRuntime None ∅ (mkChan 0 false) (mkChan 0 false) (mkChan 0 false) false [].

Definition initial : System := mkSystem fresh [].

(** How many invocations went past the marker check into the teardown. *)
Definition teardowns (ls : list Label) : nat :=
  length (List.filter (fun l => match l with
                           | Step _ StoreMarker => true
                           | _ => false
                           end) ls).

(** *** What the teardown is allowed to do, and when *)

(** What the teardown does to the outside from the state [r]: kill and wait
    for the tail process if one is registered and started, then one stop
    notification for each worker still marked active. *)
Definition teardownActions (r : Runtime) : list Action :=
  match tail r with
  | Some cmd => match Process cmd with
                | Some _ => [Kill; WaitTail]
                | None => []
                end
  | None => []
  end
  ++ flat_map (fun k => match active r !! key k with
                        | Some _ => [Send k]
                        | None => []
                        end) [Reaper; Tailer; Handler].

(** Every action of a teardown, in the order of the source. *)
Definition teardownOrder : list Action :=
  [Kill; WaitTail; Send Reaper; Send Tailer; Send Handler].

(** Successive invocations, each run to its end. *)
Fixpoint calls (callers : list string) (r : Runtime) : Outcome :=
  match callers with
  | [] => Finished r
  | caller :: rest => andThen (shutdown caller r) (calls rest)
  end.

(** The statements of one invocation in the order it runs them when nothing
    interrupts it: the whole body for the first invocation, the marker check
    alone for a later one. *)
Definition uninterrupted (i : nat) (first : bool) : list Label :=
  if first then
    map (Step i) [AwaitLock; LoadMarker; StoreMarker; StopTail;
                  Notify Reaper; Notify Tailer; Notify Handler; Unlock]
  else map (Step i) [AwaitLock; LoadMarker; Unlock].

(** The statements between [Lock] and [Unlock]. *)
Definition critical (pc : PC) : bool :=
  match pc with
  | AwaitLock | Exit => false
  | _ => true
  end.

(** The statements up to the store of the marker. *)
Definition early (pc : PC) : bool :=
  match pc with
  | AwaitLock | LoadMarker | StoreMarker => true
  | _ => false
  end.

(** The actions that can have happened while an invocation stands at [pc]. *)
Definition allowed (pc : PC) : list Action :=
  match pc with
  | StopTail => []
  | Notify Reaper => [Kill; WaitTail]
  | Notify Tailer => [Kill; WaitTail; Send Reaper]
  | Notify Handler => [Kill; WaitTail; Send Reaper; Send Tailer]
  | _ => teardownOrder
  end.

Definition counts (l : Label) : nat :=
  match l with
  | Step _ StoreMarker => 1
  | _ => 0
  end.

(** The invariant of the interleaved system after [n] teardowns: the mutex
    admits one invocation between [Lock] and [Unlock]; before the marker is
    stored nothing has been done; after it, what has been done is a prefix
    of one teardown, as far as the invocation that holds the lock has got. *)
Record Inv (n : nat) (s : System) : Prop := mkInv {
  inv_lock : forall i c pc,
    threads s !! i = Some (c, pc) -> critical pc = true ->
    shutdownLock (shared s) = true;
  inv_mutex : forall i j c d pc qc,
    threads s !! i = Some (c, pc) -> threads s !! j = Some (d, qc) ->
    critical pc = true -> critical qc = true -> i = j;
  inv_order : sublist (done (shared s)) teardownOrder;
  inv_before : active (shared s) !! marker = None ->
    n = 0%nat /\ done (shared s) = [] /\
    forall i c pc, threads s !! i = Some (c, pc) -> early pc = true;
  inv_after : is_Some (active (shared s) !! marker) ->
    n = 1%nat /\
    forall i c pc, threads s !! i = Some (c, pc) ->
      pc <> StoreMarker /\ sublist (done (shared s)) (allowed pc)
}.

End Coordinator.

(** ** The life cycle of the workers *)

(** *** The readers of the tail pipes *)

(** The strings that [reader.ReadString('\n')] returns with a nil error, one
    call after the other: each runs up to its newline, which it includes.
    The bytes after the last newline come back with [io.EOF]; the goroutine
    logs the error and returns, and these bytes are dropped. *)
Fixpoint ReadString (acc : bytes) (stream : bytes) : list bytes :=
  match stream with
  | [] => []
  | c :: rest =>
      if byte_eqb c newline then rev (c :: acc) :: ReadString [] rest
      else ReadString (c :: acc) rest
  end.

(** The goroutine that reads a pipe of the tail process: the lines it sends
    on its channel, [strings.TrimSpace(buf)] for each [buf] read, before the
    deferred [close]. *)
Definition tailReader (stream : string) : list string :=
  map (fun buf => Strings.TrimSpace (str buf)) (ReadString [] (unstr stream)).

(** What the scanner loop receives on [s.tailStdout] during a run in which
    the tail process writes [out] and ends. *)
Definition fromStdout (out : string) : list TailSelect :=
  map StdoutLine (tailReader out) ++ [StdoutClosed].

Definition fromStderr (err : string) : list TailSelect :=
  map StderrLine (tailReader err) ++ [StderrClosed].

Module Lifecycle.
Import Coordinator.

(** *** The entry and the exit of a worker *)

(** [s.active.Store(k, true)] at the start of a worker. *)
Definition workerEnter (k : Worker) (r : Runtime) : Runtime :=
  setActive (<[key k := VBool true]> (active r)) r.

(** The deferred function of a worker:
    [s.active.Delete(k); s.shutdown(k)]. *)
Definition workerExit (k : Worker) (r : Runtime) : Outcome :=
  shutdown (key k) (setActive (delete (key k) (active r)) r).

(** *** [Stop] *)

(** [close(stop)]: closing a closed channel panics. *)
Definition closeStop (k : Worker) (r : Runtime) : Outcome :=
  if closed (stopChan k r) then Panicked r
  else Finished (setStopChan k (mkChan (queued (stopChan k r)) true) r).

(** [func (s *Scanner) Stop() error] *)
Definition Stop (r : Runtime) : Outcome :=
  andThen (shutdown "stop" r) (fun r =>
  andThen (closeStop Reaper r) (fun r =>
  andThen (closeStop Tailer r) (fun r =>
  closeStop Handler r))).

(** *** [Run]: collecting the errors of the workers *)

(** The three error channels, [make(chan error, 1)]: the value queued on
    each, which is what the worker returned, Go's [nil] being [None]. *)
Record ErrChans : Type := mkErrChans {
  reaperErr : option (option error);
  scannerErr : option (option error);
  handlerErr : option (option error)
}.

Definition errChan (k : Worker) (c : ErrChans) : option (option error) :=
  match k with
  | Reaper => reaperErr c
  | Tailer => scannerErr c
  | Handler => handlerErr c
  end.

Definition setErrChan (k : Worker) (v : option (option error)) (c : ErrChans)
  : ErrChans :=
  match k with
  | Reaper => mkErrChans v (scannerErr c) (handlerErr c)
  | Tailer => mkErrChans (reaperErr c) v (handlerErr c)
  | Handler => mkErrChans (reaperErr c) (scannerErr c) v
  end.

(** The variables of the loop: the channels, the variable [ret], and what
    went to the log, each error under the name of its worker. *)
Record Drain : Type := mkDrain {
  chans : ErrChans;
  retval : option error;
  logged : list (Worker * error)
}.

(** One case of the [select]: [case err, ok := <-errChan]; it can proceed
    when a value is queued. *)
Definition receive (k : Worker) (d : Drain) : option Drain :=
  match errChan k (chans d) with
  | None => None
  | Some err =>
      let chans' := setErrChan k None (chans d) in
      Some match err with
           | None => mkDrain chans' (retval d) (logged d)
           | Some e =>
               match retval d with
               | None => mkDrain chans' (Some e) (logged d)
               | Some _ => mkDrain chans' (retval d) (logged d ++ [(k, e)])
               end
           end
  end.

(** No case can proceed: the [select] takes its [default]. *)
Definition idle (c : ErrChans) : bool :=
  match reaperErr c, scannerErr c, handlerErr c with
  | None, None, None => true
  | _, _, _ => false
  end.

(** [for done := false; !done; { select { ... default: done = true } }]:
    [select] takes any case that can proceed; [choices] lists the cases it
    takes.  [None] when the list is not a run of the loop. *)
Fixpoint drain (choices : list Worker) (d : Drain) : option Drain :=
  if idle (chans d) then
    match choices with
    | [] => Some d
    | _ :: _ => None
    end
  else
    match choices with
    | [] => None
    | k :: rest =>
        match receive k d with
        | Some d' => drain rest d'
        | None => None
        end
    end.

(** [func (s *Scanner) Run() error] once the workers have exited: the value
    it returns. *)
Definition Run (choices : list Worker) (c : ErrChans) : option (option error) :=
  match drain choices (mkDrain c None []) with
  | Some d => Some (retval d)
  | None => None
  end.

(** The errors that are not nil among the values queued, for the workers of
    [order] in turn. *)
Definition failures (order : list Worker) (c : ErrChans) : list (Worker * error) :=
  flat_map (fun k => match errChan k c with
                     | Some (Some e) => [(k, e)]
                     | _ => []
                     end) order.

(** *** [Stop] among the invocations of [shutdown] *)

(** [Stop] closes the stop channels when its own call of [shutdown] has
    returned, and nothing else closes them: in a run of the system, every
    [close] comes while an invocation by "stop" stands at its exit. *)
Fixpoint closesAfterStop (ls : list Label) (s : System) : bool :=
  match ls with
  | [] => true
  | l :: rest =>
      match l with
      | Env (CloseStop _) =>
          existsb (fun t => String.eqb (fst t) "stop" && bool_decide (snd t = Exit))
                  (threads s)
      | _ => true
      end
      && match step l s with
         | Some s' => closesAfterStop rest s'
         | None => true
         end
  end.

(** The statements of the teardown that follow the store of the marker. *)
Definition tearing (pc : PC) : bool :=
  match pc with
  | StopTail | Notify _ => true
  | _ => false
  end.

(** What the interleaved system keeps besides [Inv]: a queued stop was
    sent by the teardown; a channel is closed only once the marker is
    stored and no invocation is in the teardown; the invocation that is in
    the teardown has every other one waiting for the lock; the lock is held
    by an invocation. *)
Record Safe (s : System) : Prop := mkSafe {
  safe_queue : forall k,
    (0 < queued (stopChan k (shared s)))%nat -> In (Send k) (done (shared s));
  safe_closed : forall k,
    closed (stopChan k (shared s)) = true ->
    is_Some (active (shared s) !! marker) /\
    forall i c pc, threads s !! i = Some (c, pc) -> tearing pc = false;
  safe_alone : forall i c pc,
    threads s !! i = Some (c, pc) -> tearing pc = true ->
    forall j d qc, threads s !! j = Some (d, qc) -> j <> i -> qc = AwaitLock;
  safe_held :
    shutdownLock (shared s) = true ->
    exists i c pc, threads s !! i = Some (c, pc) /\ critical pc = true
}.

End Lifecycle.

(** * Notions used by the statements *)

(** ** Strings and lines *)

(** A string that [TrimSpace] leaves alone. *)
Definition trimmed (s : bytes) : Prop :=
  Strings.startsSpace Strings.space2 Strings.space3 s = false /\
  Strings.startsSpace (fun a b => Strings.space2 b a)
                      (fun a b c => Strings.space3 c b a) (rev s) = false.

(** The lines of the address file as the scanner cuts them. *)
Definition fileLines (content : string) : list bytes :=
  Bufio.rawLines [] (unstr content).

(** The text [readAddressFile] takes from one line of the file. *)
Definition lineText (raw : bytes) : string :=
  Strings.TrimSpace (str (Bufio.dropCR raw)).

(** A line that is not blank and does not have the address shape. *)
Definition offending (raw : bytes) : bool :=
  negb (String.eqb (lineText raw) "")
  && negb (Regexp.MatchString IP_PATTERN (lineText raw)).

(** The lines that are not blank, trimmed. *)
Definition kept (lines : list bytes) : list string :=
  List.filter (fun a => negb (String.eqb a "")) (map lineText lines).

(** An address as [readAddressFile] returns it, which reads back as
    itself. *)
Definition wellFormed (a : string) : Prop :=
  a <> ""%string /\ trimmed (unstr a) /\ ~ In newline (unstr a)
  /\ Bufio.fits (unstr a) = true /\ Regexp.MatchString IP_PATTERN a = true.

(** ** The address shape, in words *)

(** One to three decimal digits. *)
Definition digitRun (x : bytes) : bool :=
  (1 <=? length x)%nat && (length x <=? 3)%nat && forallb Regexp.digit x.

Definition dot : ascii := "."%char.

(** Four runs of one to three digits separated by dots. *)
Definition dottedQuad (m : bytes) : Prop :=
  exists a b c d,
    m = a ++ dot :: b ++ dot :: c ++ dot :: d /\
    digitRun a = true /\ digitRun b = true /\
    digitRun c = true /\ digitRun d = true.

Definition containsDottedQuad (line : string) : Prop :=
  exists pre m suf, unstr line = pre ++ m ++ suf /\ dottedQuad m.

(** ** The watchlist store *)

(** [slices.Delete] at [slices.Index]: the list without the first
    occurrence. *)
Fixpoint removeFirst (x : string) (l : list string) : list string :=
  match l with
  | [] => []
  | y :: rest => if String.eqb y x then rest else y :: removeFirst x rest
  end.

(** The addresses of the store: what [readAddressFile] would return. *)
Definition watchlist (s : Scanner) (w : World) : Result (list string) :=
  match addressPath w with
  | FileOf content => parseAddresses (AddressFile s) content
  | FileBlocked => Err (PathError "read" (AddressFile s))
  | FileMissing => Err (PathError "open" (AddressFile s))
  end.

Definition watched (s : Scanner) (w : World) (addr : string) : Prop :=
  exists addrs, watchlist s w = Ok addrs /\ In addr addrs.

(** The uniqueness invariant of the store. *)
Definition noDuplicates (s : Scanner) (w : World) : Prop :=
  forall addrs, watchlist s w = Ok addrs -> List.NoDup addrs.

Definition notBlank (a : string) : Prop := Strings.TrimSpace a <> ""%string.

(** The layout of the watchlist file: every address on a line of its own,
    each line ended by a newline. *)
Definition layout (content : string) (addrs : list string) : Prop :=
  unstr content = concat (map (fun a => unstr a ++ [newline]) addrs).

(** One address per line, a trailing newline, no blank line, no
    duplicate. *)
Definition wellLaidOut (content : string) : Prop :=
  exists addrs,
    layout content addrs /\
    Forall (fun a => notBlank a /\ ~ In newline (unstr a)) addrs /\
    List.NoDup addrs.

(** The addresses other than [addr], in their order. *)
Definition survivors (addr : string) (addrs : list string) : list string :=
  List.filter (fun a => negb (String.eqb a addr)) addrs.

(** ** Hooks and events *)

(** The hook is not configured, or its command exits with 0. *)
Definition hookOk (w : World) (command : string) (args : list string) : Prop :=
  command = ""%string \/ commandOk w command args = true.

(** The optional hook in front of [addAddress] and [removeAddress]. *)
Definition hook (s : Scanner) (command : string) (args : list string) : M unit :=
  if negb (String.eqb command "") then exec s command args else ret tt.

(** A write of the watchlist file. *)
Definition isWrite (e : Event) : bool :=
  match e with
  | EvWriteAddressFile _ => true
  | _ => false
  end.

(** The events of [addAddress] and [removeAddress]: the hook and the
    address file. *)
Definition addressEvent (e : Event) : bool :=
  match e with
  | EvExec _ _ | EvOpenAddressFile | EvWriteAddressFile _ => true
  | _ => false
  end.

(** Does the event read, write or remove the timeout file [name]. *)
Definition touches (name : string) (e : Event) : bool :=
  match e with
  | EvReadFile a | EvRemove a | EvWriteFile a _ => String.eqb a name
  | _ => false
  end.

Definition quiet (name : string) (evs : list Event) : Prop :=
  forallb (fun e => negb (touches name e)) evs = true.

(** The timeout records refreshed, and the outcomes reported, in order. *)
Definition refreshed (evs : list Event) : list string :=
  flat_map (fun e => match e with
                     | EvWriteFile addr _ => [addr]
                     | _ => []
                     end) evs.

Definition reported (evs : list Event) : list string :=
  flat_map (fun e => match e with
                     | EvLog (LogScannerIP addr _ _) => [addr]
                     | _ => []
                     end) evs.

(** What the first loop of a sweep leaves alone: everything but the clock
    readings and the trace. *)
Definition sameStores (w w' : World) : Prop :=
  addressPath w' = addressPath w /\ timeoutPath w' = timeoutPath w /\
  clock w' = clock w /\ commandOk w' = commandOk w.

(** ** The patterns of a line, in words *)

(** The address a pattern yields on a line: the text of its first
    capturing group when it matches with one. *)
Definition firstGroup (p : Pattern) (line : string) : list string :=
  match FindStringSubmatch p line with
  | _ :: addr :: _ => [addr]
  | _ => []
  end.

(** One address for each matching pattern, in configured order. *)
Definition matchedAddresses (patterns : list Pattern) (line : string)
  : list string :=
  flat_map (fun p => firstGroup p line) patterns.

(** Process each address in turn, up to the first error. *)
Fixpoint processEach (s : Scanner) (addrs : list string) : M unit :=
  match addrs with
  | [] => ret tt
  | addr :: rest => run onMatch s addr; processEach s rest
  end.

Definition noMatch (line : string) (p : Pattern) : Prop :=
  (length (FindStringSubmatch p line) <= 1)%nat.

(** ** Expiry, in words *)

(** A record whose expiration is not after [now]. *)
Definition isExpired (now : Time) (e : string * Node) : bool :=
  match snd e with
  | Regular (Marshalled expiration) => expiration <=? now
  | _ => false
  end.

Definition expiredNames (now : Time) (entries : Entries) : list string :=
  map fst (List.filter (isExpired now) entries).

Definition dropAll (l : list string) (entries : Entries) : Entries :=
  fold_left (fun e addr => dropEntry addr e) l entries.

(** The same world without the entry [name] in the timeout directory. *)
Definition forget (name : string) (w : World) : World :=
  match timeoutPath w with
  | DirOf entries => setTimeoutPath (DirOf (dropEntry name entries)) w
  | _ => w
  end.

(** ** Sample states *)

Definition authLine : string := "Failed password for root from 10.0.0.5".

(** Two patterns that both match [authLine], with the same first group. *)
Definition fromPattern : Pattern :=
  mkPattern (fun line => if String.eqb line authLine
                         then ["from 10.0.0.5"; "10.0.0.5"]%string else []).

Definition rootPattern : Pattern :=
  mkPattern (fun line => if String.eqb line authLine
                         then ["root from 10.0.0.5"; "10.0.0.5"]%string else []).

(** A pattern without capturing group: it matches, with nothing to take. *)
Definition barePattern : Pattern :=
  mkPattern (fun line => if String.eqb line authLine
                         then ["Failed password"]%string else []).

Definition demoScanner : Scanner :=
  mkScanner "/var/log/authlog" "/etc/iplsd/addrs" "/var/iplsd/timeout"
            (5 * TimePkg.second) TimePkg.second [] "" [] "" [] false.

(** A scanner with patterns and both hooks. *)
Definition hookedScanner : Scanner :=
  mkScanner "/var/log/authlog" "/etc/iplsd/addrs" "/var/iplsd/timeout"
            (5 * TimePkg.second) TimePkg.second
            [barePattern; fromPattern; rootPattern]
            "pfctl" ["-t"; "watch"; "-T"; "add"]%string
            "pfctl" ["-t"; "watch"; "-T"; "delete"]%string false.

Definition demoWorld (content : string) (entries : Entries) (now : Time) : World :=
  mkWorld (FileOf content) (DirOf entries) (fun _ => now) 0
          (fun _ _ => true) [].

(** The same world where every command fails. *)
Definition failing (w : World) : World :=
  mkWorld (addressPath w) (timeoutPath w) (clock w) (ticks w)
          (fun _ _ => false) (trace w).

Definition oneAddress : string := "1.2.3.4" +:+ nl.

Definition twoAddresses : string :=
  "10.0.0.5" +:+ nl +:+ "10.0.0.6" +:+ nl.

Definition twoRecords : Entries :=
  [("10.0.0.5"%string, Regular (Marshalled 100));
   ("10.0.0.6"%string, Regular (Marshalled 101))].

Definition withSubdirectory : Entries :=
  [("10.0.0.5"%string, Regular (Marshalled 100));
   ("lost+found"%string, NonRegular ModeDir)].

Definition oddAddresses : string :=
  "999.999.999.999" +:+ nl +:+ " prefix 1.2.3.4 suffix" +:+ nl.

Definition corruptAddresses : string :=
  "10.0.0.5" +:+ nl +:+ "not-an-ip" +:+ nl.

Definition demoConfig : Config :=
  mkConfig "5" "1" "" "" false.

Definition demoParseDuration (text : string) : option Duration :=
  if String.eqb text "5s" then Some (5 * TimePkg.second)
  else if String.eqb text "1s" then Some TimePkg.second
  else None.

Definition demoCompile (pattern : string) : option Pattern :=
  Some (mkPattern (fun _ => [])).

(** The runtime with the tail process started and the three workers
    active, and the same after one teardown. *)
Definition busy : Coordinator.Runtime :=
  Coordinator.mkRuntime
    (Some (Coordinator.mkCmd (Some 4242%nat)))
    (<["reaper"%string := Coordinator.VBool true]>
       (<["scanner"%string := Coordinator.VBool true]>
          (<["handler"%string := Coordinator.VBool true]> ∅)))
    (Coordinator.mkChan 0 false) (Coordinator.mkChan 0 false)
    (Coordinator.mkChan 0 false) false [].

Definition stopped : Coordinator.Runtime :=
  Coordinator.mkRuntime
    None
    (<[Coordinator.marker := Coordinator.VString "handler"]>
       (Coordinator.active busy))
    (Coordinator.mkChan 1 false) (Coordinator.mkChan 1 false)
    (Coordinator.mkChan 1 false) false Coordinator.teardownOrder.

(** The reaper and [Stop] call shutdown at the same time: the second
    invocation waits for the lock while the first one tears down. *)
Definition twoCalls : list Coordinator.Label :=
  [Coordinator.Env (Coordinator.Activate Coordinator.Reaper);
   Coordinator.Env (Coordinator.Activate Coordinator.Handler);
   Coordinator.Env (Coordinator.StartTail (Coordinator.mkCmd (Some 4242%nat)));
   Coordinator.Env (Coordinator.Deactivate Coordinator.Reaper);
   Coordinator.Call "reaper"; Coordinator.Call "stop";
   Coordinator.Step 1 Coordinator.AwaitLock;
   Coordinator.Step 1 Coordinator.LoadMarker;
   Coordinator.Step 1 Coordinator.StoreMarker;
   Coordinator.Step 1 Coordinator.StopTail;
   Coordinator.Step 1 (Coordinator.Notify Coordinator.Reaper);
   Coordinator.Step 1 (Coordinator.Notify Coordinator.Tailer);
   Coordinator.Step 1 (Coordinator.Notify Coordinator.Handler);
   Coordinator.Step 1 Coordinator.Unlock;
   Coordinator.Step 0 Coordinator.AwaitLock;
   Coordinator.Env (Coordinator.Receive Coordinator.Handler);
   Coordinator.Step 0 Coordinator.LoadMarker;
   Coordinator.Step 0 Coordinator.Unlock;
   Coordinator.Env (Coordinator.CloseStop Coordinator.Handler)].

(** ** Notions for the life cycle and the stores *)

(** From the state [w] on, every reading of [time.Now()] gives [now]. *)
Definition fromNow (now : Time) (w : World) : Prop :=
  forall k, (ticks w <= k)%nat -> clock w k = now.

(** A run of a hook command. *)
Definition isExec (e : Event) : bool :=
  match e with
  | EvExec _ _ => true
  | _ => false
  end.

(** No record of the directory holds bytes that [UnmarshalText] refuses. *)
Definition readable (entries : Entries) : Prop :=
  forall name raw, ~ In (name, Regular (Garbled raw)) entries.

(** An event that changes a store or runs a command. *)
Definition changes (e : Event) : bool :=
  match e with
  | EvReadDir | EvReadFile _ | EvOpenAddressFile | EvLog _ => false
  | _ => true
  end.

(** An event that creates the timeout directory or writes a timeout
    record. *)
Definition creates (e : Event) : bool :=
  match e with
  | EvMkdir | EvWriteFile _ _ => true
  | _ => false
  end.

(** [w'] is [w] after some readings: the stores are the same, the clock has
    been read, the trace has grown by events that change nothing. *)
Definition onlyRead (w w' : World) : Prop :=
  sameStores w w' /\ (ticks w <= ticks w')%nat /\
  exists evs, trace w' = trace w ++ evs /\
              forallb (fun e => negb (changes e)) evs = true.

(** The same state but for the trace. *)
Definition sameButTrace (w w' : World) : Prop :=
  addressPath w' = addressPath w /\ timeoutPath w' = timeoutPath w /\
  clock w' = clock w /\ ticks w' = ticks w /\ commandOk w' = commandOk w.

(** A computation that does not look at the trace: from two states that
    differ by their traces only it gives the same result, emits the same
    events and leaves two states that differ by their traces only. *)
Definition traceBlind {A} (m : M A) : Prop :=
  forall w1 w2, sameButTrace w1 w2 ->
    snd (m w1) = snd (m w2) /\ sameButTrace (fst (m w1)) (fst (m w2)) /\
    exists evs, trace (fst (m w1)) = trace w1 ++ evs /\
                trace (fst (m w2)) = trace w2 ++ evs.

(** The log of a line that the tail process wrote on its standard error. *)
Definition isTailLog (e : Event) : bool :=
  match e with
  | EvLog (LogTail _) => true
  | _ => false
  end.

Definition isStderrLine (m : TailSelect) : bool :=
  match m with
  | StderrLine _ => true
  | _ => false
  end.

(** ** Tactics *)

Ltac unfold_go :=
  unfold bind, ret, fail, lift, orReturn, effect, query in *.

(** Boolean conjunctions and comparisons of a hypothesis, as
    propositions. *)
Ltac bools H :=
  cbv zeta in H;
  repeat first [ rewrite andb_true_iff in H | rewrite orb_true_iff in H
               | rewrite Nat.leb_le in H | rewrite Nat.eqb_eq in H ].

(** * Proofs *)

(** * Facts on byte strings *)

Lemma unstr_append (a b : string) : unstr (a +:+ b) = unstr a ++ unstr b.
Proof. induction a as [|c a IH]; simpl; [reflexivity | now rewrite IH]. Qed.

Lemma str_inj (a b : bytes) : str a = str b -> a = b.
Proof.
  intros H. rewrite <- (list_ascii_of_string_of_list_ascii a),
    <- (list_ascii_of_string_of_list_ascii b). now rewrite H.
Qed.

Lemma unstr_inj (a b : string) : unstr a = unstr b -> a = b.
Proof.
  intros H. rewrite <- (string_of_list_ascii_of_string a),
    <- (string_of_list_ascii_of_string b). now rewrite H.
Qed.

Lemma byte_eqb_eq a b : byte_eqb a b = true <-> a = b.
Proof. apply Ascii.eqb_eq. Qed.

Lemma byte_eqb_neq a b : byte_eqb a b = false <-> a <> b.
Proof. apply Ascii.eqb_neq. Qed.

Module StringsFacts.
Import Strings.

Section Trim.

Variable sp2 : ascii -> ascii -> bool.
Variable sp3 : ascii -> ascii -> ascii -> bool.

Lemma trimWith_stop s : startsSpace sp2 sp3 s = false -> trimWith sp2 sp3 s = s.
Proof.
  destruct s as [|a [|b [|c s]]]; simpl; intros H; auto.
  - apply orb_false_iff in H as [-> _]. reflexivity.
  - apply orb_false_iff in H as [-> H]. apply orb_false_iff in H as [-> _].
    reflexivity.
  - apply orb_false_iff in H as [-> H]. apply orb_false_iff in H as [-> ->].
    reflexivity.
Qed.

(** The induction that follows the loop. *)
Lemma trimWith_ind (P : bytes -> bytes -> Prop) :
  (forall s, startsSpace sp2 sp3 s = false -> P s s) ->
  (forall a s r, space1 a = true -> P s r -> P (a :: s) r) ->
  (forall a b s r, sp2 a b = true -> P s r -> P (a :: b :: s) r) ->
  (forall a b c s r, sp3 a b c = true -> P s r -> P (a :: b :: c :: s) r) ->
  forall s, P s (trimWith sp2 sp3 s).
Proof.
  intros Hstop H1 H2 H3 s.
  assert (G : forall n s, (length s <= n)%nat -> P s (trimWith sp2 sp3 s)).
  { clear s. induction n as [|n IH]; intros s Hn.
    - destruct s; [|simpl in Hn; lia]. simpl. now apply Hstop.
    - destruct s as [|a s1]; [now apply Hstop|]. simpl in Hn. simpl.
      destruct (space1 a) eqn:E1; [apply H1; auto; apply IH; lia|].
      destruct s1 as [|b s2]; [apply Hstop; simpl; now rewrite E1|].
      simpl in Hn.
      destruct (sp2 a b) eqn:E2; [apply H2; auto; apply IH; lia|].
      destruct s2 as [|c s3]; [apply Hstop; simpl; now rewrite E1, E2|].
      simpl in Hn.
      destruct (sp3 a b c) eqn:E3; [apply H3; auto; apply IH; lia|].
      apply Hstop. simpl. now rewrite E1, E2, E3. }
  apply (G (length s)). lia.
Qed.

Lemma trimWith_suffix s : exists p, s = p ++ trimWith sp2 sp3 s.
Proof.
  apply (trimWith_ind (fun s r => exists p, s = p ++ r)).
  - intros s0 _. now exists [].
  - intros a s0 r _ [p ->]. now exists (a :: p).
  - intros a b s0 r _ [p ->]. now exists (a :: b :: p).
  - intros a b c s0 r _ [p ->]. now exists (a :: b :: c :: p).
Qed.

Lemma trimWith_startsSpace s : startsSpace sp2 sp3 (trimWith sp2 sp3 s) = false.
Proof.
  apply (trimWith_ind (fun _ r => startsSpace sp2 sp3 r = false)); auto.
Qed.

Lemma trimWith_idem s :
  trimWith sp2 sp3 (trimWith sp2 sp3 s) = trimWith sp2 sp3 s.
Proof. apply trimWith_stop, trimWith_startsSpace. Qed.

Lemma startsSpace_prefix u w :
  startsSpace sp2 sp3 (u ++ w) = false -> startsSpace sp2 sp3 u = false.
Proof.
  destruct u as [|a [|b [|c u]]]; simpl; auto; intros H.
  - apply orb_false_iff in H as [-> _]. reflexivity.
  - apply orb_false_iff in H as [-> H]. simpl.
    apply orb_false_iff in H as [-> _]. reflexivity.
Qed.

Lemma startsSpace_head a s : startsSpace sp2 sp3 (a :: s) = false -> space1 a = false.
Proof. simpl. intros H. now apply orb_false_iff in H as [-> _]. Qed.

End Trim.

Lemma trimSpace_prefix_of_trimLeft s :
  exists q, trimLeft s = trimSpace s ++ q.
Proof.
  unfold trimSpace, trimRight, trimRightRev.
  destruct (trimWith_suffix (fun a b => space2 b a) (fun a b c => space3 c b a)
              (rev (trimLeft s))) as [p Hp].
  exists (rev p).
  rewrite <- (rev_involutive (trimLeft s)) at 1. rewrite Hp at 1.
  now rewrite rev_app_distr.
Qed.

Lemma trimSpace_infix s : exists p q, s = p ++ trimSpace s ++ q.
Proof.
  destruct (trimWith_suffix space2 space3 s) as [p Hp].
  destruct (trimSpace_prefix_of_trimLeft s) as [q Hq].
  exists p, q. rewrite Hp at 1. unfold trimLeft in Hq. now rewrite Hq.
Qed.

Lemma trimSpace_trimmed s : trimmed (trimSpace s).
Proof.
  split.
  - destruct (trimSpace_prefix_of_trimLeft s) as [q Hq].
    apply (startsSpace_prefix _ _ _ q). rewrite <- Hq.
    apply trimWith_startsSpace.
  - unfold trimSpace, trimRight. rewrite rev_involutive.
    apply trimWith_startsSpace.
Qed.

Lemma trimmed_fixed s : trimmed s -> trimSpace s = s.
Proof.
  intros [Hl Hr]. unfold trimSpace, trimRight, trimLeft, trimRightRev.
  rewrite (trimWith_stop _ _ s Hl), (trimWith_stop _ _ (rev s) Hr).
  apply rev_involutive.
Qed.

Lemma trimSpace_idem s : trimSpace (trimSpace s) = trimSpace s.
Proof. apply trimmed_fixed, trimSpace_trimmed. Qed.

Lemma trimSpace_In c s : In c (trimSpace s) -> In c s.
Proof.
  destruct (trimSpace_infix s) as (p & q & E). intros H. rewrite E.
  apply in_or_app. right. apply in_or_app. now left.
Qed.

Lemma trimSpace_length s : (length (trimSpace s) <= length s)%nat.
Proof.
  destruct (trimSpace_infix s) as (p & q & E). rewrite E at 2.
  rewrite !length_app. lia.
Qed.

Lemma TrimSpace_idem s : TrimSpace (TrimSpace s) = TrimSpace s.
Proof.
  unfold TrimSpace. rewrite list_ascii_of_string_of_list_ascii.
  now rewrite trimSpace_idem.
Qed.

Lemma join_newline_terminated (sep : ascii) (l : list bytes) :
  l <> [] ->
  join [sep] l ++ [sep] = concat (map (fun a => a ++ [sep]) l).
Proof.
  induction l as [|a l IH]; [congruence|]. intros _.
  destruct l as [|b l].
  - simpl. now rewrite !app_nil_r.
  - change (join [sep] (a :: b :: l)) with (a ++ [sep] ++ join [sep] (b :: l)).
    rewrite <- !app_assoc, IH by congruence.
    change (map (fun a => a ++ [sep]) (a :: b :: l))
      with ((a ++ [sep]) :: map (fun a => a ++ [sep]) (b :: l)).
    rewrite concat_cons. now rewrite <- app_assoc.
Qed.

End StringsFacts.

Module BufioFacts.
Import Bufio.

Lemma rawLines_line acc a rest :
  ~ In newline a ->
  rawLines acc (a ++ newline :: rest) = (rev acc ++ a) :: rawLines [] rest.
Proof.
  assert (Enl : byte_eqb newline newline = true) by now apply byte_eqb_eq.
  revert acc. induction a as [|c a IH]; intros acc Hn; cbn [app rawLines].
  - rewrite Enl. now rewrite app_nil_r.
  - destruct (byte_eqb c newline) eqn:E.
    + apply byte_eqb_eq in E. subst c. exfalso. apply Hn. now left.
    + rewrite IH by (intros H; apply Hn; now right).
      simpl. now rewrite <- app_assoc.
Qed.

Lemma rawLines_terminated (l : list bytes) :
  Forall (fun a => ~ In newline a) l ->
  rawLines [] (concat (map (fun a => a ++ [newline]) l)) = l.
Proof.
  induction 1 as [|a l Ha _ IH]; [reflexivity|].
  cbn [map concat]. rewrite <- app_assoc. cbn [app].
  rewrite rawLines_line by exact Ha. cbn [rev app]. now rewrite IH.
Qed.

Lemma rawLines_no_newline s : forall acc l,
  ~ In newline acc -> In l (rawLines acc s) -> ~ In newline l.
Proof.
  induction s as [|c s IH]; intros acc l Hacc; simpl.
  - destruct acc; [intros []|]. intros [<-|[]]. now rewrite <- in_rev.
  - destruct (byte_eqb c newline) eqn:E.
    + intros [<-|H]; [now rewrite <- in_rev|]. eapply IH; [|exact H]. intros [].
    + apply IH. intros [->|H]; [|now apply Hacc].
      apply byte_eqb_neq in E. congruence.
Qed.

Lemma dropCR_length l : (length (dropCR l) <= length l)%nat.
Proof.
  unfold dropCR. destruct (rev l) as [|c r] eqn:E; [lia|].
  destruct (byte_eqb c carriage_return); [|lia].
  rewrite length_rev. apply (f_equal (@length _)) in E.
  rewrite length_rev in E. simpl in E. lia.
Qed.

Lemma dropCR_In c l : In c (dropCR l) -> In c l.
Proof.
  unfold dropCR. destruct (rev l) as [|a r] eqn:E; auto.
  destruct (byte_eqb a carriage_return); auto.
  intros H. apply in_rev in H. apply in_rev. rewrite E. now right.
Qed.

Lemma dropCR_trimmed l : trimmed l -> dropCR l = l.
Proof.
  intros [_ Hr]. unfold dropCR. destruct (rev l) as [|c r]; auto.
  apply StringsFacts.startsSpace_head in Hr.
  destruct (byte_eqb c carriage_return) eqn:E; auto.
  apply byte_eqb_eq in E. subst c. discriminate.
Qed.

End BufioFacts.

(** * The language of regular expressions and the derivative matcher *)

Module RegexpFacts.
Import Regexp.

Lemma Matches_Void_inv s : Matches Void s -> False.
Proof. inversion 1. Qed.

Lemma Matches_Eps_inv s : Matches Eps s -> s = [].
Proof. now inversion 1. Qed.

Lemma Matches_Class_inv p s : Matches (Class p) s -> exists c, s = [c] /\ p c = true.
Proof. inversion 1; subst; eauto. Qed.

Lemma Matches_Cat_inv r1 r2 s :
  Matches (Cat r1 r2) s ->
  exists s1 s2, s = s1 ++ s2 /\ Matches r1 s1 /\ Matches r2 s2.
Proof. inversion 1; subst; eauto. Qed.

Lemma Matches_Alt_inv r1 r2 s :
  Matches (Alt r1 r2) s -> Matches r1 s \/ Matches r2 s.
Proof. inversion 1; subst; auto. Qed.

(** A non-empty word of a star starts with a non-empty word of its body. *)
Lemma Matches_Star_cons r c s :
  Matches (Star r) (c :: s) ->
  exists s1 s2, s = s1 ++ s2 /\ Matches r (c :: s1) /\ Matches (Star r) s2.
Proof.
  intros H. remember (Star r) as r0 eqn:Er. remember (c :: s) as w eqn:Ew.
  revert c s Ew. induction H; intros c0 s0 Ew; try discriminate.
  injection Er as ->.
  destruct s1 as [|a s1].
  - simpl in Ew. apply IHMatches2; auto.
  - simpl in Ew. injection Ew as -> <-. eauto.
Qed.

Lemma nullable_spec r : nullable r = true <-> Matches r [].
Proof.
  induction r; simpl.
  - split; [discriminate | intros H; destruct (Matches_Void_inv _ H)].
  - split; [constructor | reflexivity].
  - split; [discriminate|]. intros H.
    apply Matches_Class_inv in H as (c & E & _). discriminate.
  - rewrite andb_true_iff, IHr1, IHr2. split.
    + intros [H1 H2]. exact (MCat _ _ [] [] H1 H2).
    + intros H. apply Matches_Cat_inv in H as (s1 & s2 & E & H1 & H2).
      symmetry in E. apply app_eq_nil in E as [-> ->]. auto.
  - rewrite orb_true_iff, IHr1, IHr2. split.
    + intros [H|H]; [apply MAltL | apply MAltR]; exact H.
    + apply Matches_Alt_inv.
  - split; [constructor | reflexivity].
Qed.

Lemma mkCat_spec r1 r2 s : Matches (mkCat r1 r2) s <-> Matches (Cat r1 r2) s.
Proof.
  destruct r1; simpl; try tauto.
  split; intros H.
  - destruct (Matches_Void_inv _ H).
  - apply Matches_Cat_inv in H as (s1 & s2 & _ & H1 & _).
    destruct (Matches_Void_inv _ H1).
Qed.

Lemma mkAlt_spec r1 r2 s : Matches (mkAlt r1 r2) s <-> Matches (Alt r1 r2) s.
Proof.
  assert (L : Matches r2 s <-> Matches (Alt Void r2) s).
  { split; intros H; [now apply MAltR|].
    apply Matches_Alt_inv in H as [H|H]; [destruct (Matches_Void_inv _ H) | exact H]. }
  assert (R : Matches r1 s <-> Matches (Alt r1 Void) s).
  { split; intros H; [now apply MAltL|].
    apply Matches_Alt_inv in H as [H|H]; [exact H | destruct (Matches_Void_inv _ H)]. }
  destruct r1; simpl; try exact L; destruct r2; simpl; try exact R; tauto.
Qed.

Lemma deriv_spec c r : forall s, Matches (deriv c r) s <-> Matches r (c :: s).
Proof.
  induction r; intros s; simpl.
  - split; intros H; destruct (Matches_Void_inv _ H).
  - split; intros H; [destruct (Matches_Void_inv _ H)|].
    apply Matches_Eps_inv in H. discriminate.
  - destruct (b c) eqn:Eb; split; intros H.
    + apply Matches_Eps_inv in H as ->. now constructor.
    + apply Matches_Class_inv in H as (c' & E & _). injection E as <- ->. constructor.
    + destruct (Matches_Void_inv _ H).
    + apply Matches_Class_inv in H as (c' & E & Hc). injection E as <- ->. congruence.
  - assert (Hcat : Matches (mkCat (deriv c r1) r2) s <->
                   exists s1 s2, s = s1 ++ s2 /\ Matches r1 (c :: s1) /\ Matches r2 s2).
    { rewrite mkCat_spec. split.
      - intros H. apply Matches_Cat_inv in H as (s1 & s2 & E & H1 & H2).
        exists s1, s2. rewrite <- IHr1. auto.
      - intros (s1 & s2 & -> & H1 & H2). constructor; [now apply IHr1 | exact H2]. }
    destruct (nullable r1) eqn:En.
    + rewrite mkAlt_spec. split.
      * intros H. apply Matches_Alt_inv in H as [H|H].
        -- apply Hcat in H as (s1 & s2 & -> & H1 & H2).
           exact (MCat _ _ (c :: s1) s2 H1 H2).
        -- apply IHr2 in H. apply nullable_spec in En.
           exact (MCat _ _ [] (c :: s) En H).
      * intros H. apply Matches_Cat_inv in H as (s1 & s2 & E & H1 & H2).
        destruct s1 as [|a s1]; simpl in E.
        -- subst s2. apply MAltR. now apply IHr2.
        -- injection E as <- ->. apply MAltL. apply Hcat. eauto.
    + rewrite Hcat. split.
      * intros (s1 & s2 & -> & H1 & H2). exact (MCat _ _ (c :: s1) s2 H1 H2).
      * intros H. apply Matches_Cat_inv in H as (s1 & s2 & E & H1 & H2).
        destruct s1 as [|a s1]; simpl in E.
        -- apply nullable_spec in H1. congruence.
        -- injection E as <- ->. eauto.
  - rewrite mkAlt_spec. split; intros H; apply Matches_Alt_inv in H as [H|H].
    + apply MAltL. now apply IHr1.
    + apply MAltR. now apply IHr2.
    + apply MAltL. now apply IHr1.
    + apply MAltR. now apply IHr2.
  - rewrite mkCat_spec. split; intros H.
    + apply Matches_Cat_inv in H as (s1 & s2 & -> & H1 & H2).
      apply IHr in H1. exact (MStarS _ (c :: s1) s2 H1 H2).
    + apply Matches_Star_cons in H as (s1 & s2 & -> & H1 & H2).
      constructor; [now apply IHr | exact H2].
Qed.

Lemma accepts_spec s : forall r, accepts r s = true <-> Matches r s.
Proof.
  induction s as [|c s IH]; intros r; simpl.
  - apply nullable_spec.
  - rewrite IH. apply deriv_spec.
Qed.

Lemma Star_any s : Matches (Star any) s.
Proof.
  induction s as [|c s IH]; [constructor|].
  change (c :: s) with ([c] ++ s). constructor; [now constructor | exact IH].
Qed.

(** [MatchString] looks for the pattern anywhere in the string. *)
Lemma MatchString_spec re s :
  MatchString re s = true <->
  exists pre mid suf, unstr s = pre ++ mid ++ suf /\ Matches re mid.
Proof.
  unfold MatchString. rewrite accepts_spec. split.
  - intros H. apply Matches_Cat_inv in H as (pre & t & E & _ & H).
    apply Matches_Cat_inv in H as (mid & suf & -> & H & _). eauto.
  - intros (pre & mid & suf & -> & H).
    constructor; [apply Star_any|]. constructor; [exact H | apply Star_any].
Qed.

End RegexpFacts.

(** * Slices *)

Module SlicesFacts.
Import Slices.

Lemma Contains_In l x : Contains l x = true <-> In x l.
Proof.
  unfold Contains. rewrite existsb_exists. split.
  - intros (y & Hy & E). apply String.eqb_eq in E. now subst.
  - intros H. exists x. split; [exact H | apply String.eqb_refl].
Qed.

Lemma Contains_not_In l x : Contains l x = false <-> ~ In x l.
Proof.
  rewrite <- Contains_In. destruct (Contains l x); split; congruence.
Qed.

Lemma Index_Delete l x : forall i,
  Index l x = Some i -> Delete l i (i + 1) = removeFirst x l.
Proof.
  unfold Delete. induction l as [|y l IH]; intros i; simpl; [discriminate|].
  destruct (String.eqb y x) eqn:E.
  - intros [= <-]. reflexivity.
  - destruct (Index l x) as [j|] eqn:Ej; [|discriminate].
    intros [= <-]. simpl. f_equal. now apply IH.
Qed.

Lemma Index_In l x : In x l -> exists i, Index l x = Some i.
Proof.
  induction l as [|y l IH]; simpl; [intros []|].
  destruct (String.eqb y x) eqn:E; [eauto|].
  intros [->|H]; [rewrite String.eqb_refl in E; discriminate|].
  destruct (IH H) as [i ->]. eauto.
Qed.

Lemma removeFirst_In x l a :
  In a (removeFirst x l) -> In a l.
Proof.
  induction l as [|y l IH]; simpl; auto.
  destruct (String.eqb y x); simpl; [intros H; right; exact H|].
  intros [H|H]; [left; exact H | right; apply IH; exact H].
Qed.

Lemma removeFirst_filter x l :
  List.NoDup l -> removeFirst x l = List.filter (fun a => negb (String.eqb a x)) l.
Proof.
  induction 1 as [|y l Hy Hl IH]; simpl; [reflexivity|].
  destruct (String.eqb y x) eqn:E; simpl.
  - apply String.eqb_eq in E. subst y.
    symmetry. apply forallb_filter_id. apply forallb_forall.
    intros a Ha. destruct (String.eqb a x) eqn:Ea; [|reflexivity].
    apply String.eqb_eq in Ea. now subst.
  - now rewrite IH.
Qed.

Lemma removeFirst_NoDup x l : List.NoDup l -> List.NoDup (removeFirst x l).
Proof.
  intros H. rewrite removeFirst_filter by exact H. now apply List.NoDup_filter.
Qed.

Lemma removeFirst_In_iff x l a :
  List.NoDup l -> In a (removeFirst x l) <-> In a l /\ a <> x.
Proof.
  intros H. rewrite removeFirst_filter by exact H. rewrite filter_In.
  rewrite negb_true_iff, String.eqb_neq. tauto.
Qed.

End SlicesFacts.

(** * Reading the address file *)

Lemma scanAddresses_acc file lines : forall acc,
  scanAddresses file acc lines =
  match scanAddresses file [] lines with
  | Ok l => Ok (acc ++ l)
  | Err e => Err e
  end.
Proof.
  induction lines as [|raw rest IH]; intros acc; simpl.
  - now rewrite app_nil_r.
  - destruct (Bufio.fits raw); [|reflexivity].
    destruct (negb _); [|apply IH].
    destruct (Regexp.MatchString _ _); [|reflexivity].
    rewrite (IH (acc ++ _)), (IH [_]).
    destruct (scanAddresses file [] rest); [|reflexivity].
    simpl. now rewrite <- app_assoc.
Qed.

Lemma TrimSpace_wellFormed raw :
  ~ In newline raw -> Bufio.fits raw = true ->
  let addr := Strings.TrimSpace (str (Bufio.dropCR raw)) in
  addr <> ""%string -> Regexp.MatchString IP_PATTERN addr = true ->
  wellFormed addr.
Proof.
  intros Hnl Hfit addr Hne Hm. unfold wellFormed.
  split; [exact Hne|]. subst addr. unfold Strings.TrimSpace in *.
  rewrite !list_ascii_of_string_of_list_ascii in *.
  split; [apply StringsFacts.trimSpace_trimmed|].
  split.
  - intros H. apply StringsFacts.trimSpace_In, BufioFacts.dropCR_In in H. auto.
  - split; [|exact Hm]. unfold Bufio.fits in *.
    pose proof (StringsFacts.trimSpace_length (Bufio.dropCR raw)).
    pose proof (BufioFacts.dropCR_length raw).
    apply Z.ltb_lt in Hfit. apply Z.ltb_lt. lia.
Qed.

Lemma scanAddresses_wellFormed file lines : forall l,
  Forall (fun raw => ~ In newline raw) lines ->
  scanAddresses file [] lines = Ok l -> Forall wellFormed l.
Proof.
  induction lines as [|raw rest IH]; intros l Hnl; simpl.
  - intros [= <-]. constructor.
  - inversion Hnl as [|? ? Hraw Hrest]; subst.
    destruct (Bufio.fits raw) eqn:Hfit; [|discriminate].
    destruct (negb _) eqn:Hne; [|now apply IH].
    destruct (Regexp.MatchString _ _) eqn:Hm; [|discriminate].
    rewrite scanAddresses_acc.
    destruct (scanAddresses file [] rest) as [l'|] eqn:E; [|discriminate].
    intros [= <-]. simpl. constructor; [|now apply IH].
    apply TrimSpace_wellFormed; auto.
    apply negb_true_iff, String.eqb_neq in Hne. exact Hne.
Qed.

Lemma scanAddresses_roundtrip file l :
  Forall wellFormed l -> scanAddresses file [] (map unstr l) = Ok l.
Proof.
  induction 1 as [|a l Ha _ IH]; [reflexivity|].
  destruct Ha as (Hne & Htrim & _ & Hfit & Hm).
  simpl. rewrite Hfit.
  assert (E : Strings.TrimSpace (str (Bufio.dropCR (unstr a))) = a).
  { rewrite BufioFacts.dropCR_trimmed by exact Htrim.
    unfold Strings.TrimSpace. rewrite list_ascii_of_string_of_list_ascii.
    rewrite StringsFacts.trimmed_fixed by exact Htrim.
    apply string_of_list_ascii_of_string. }
  rewrite E. apply String.eqb_neq in Hne. rewrite Hne. simpl. rewrite Hm.
  rewrite scanAddresses_acc, IH. reflexivity.
Qed.

(** The text that [addAddress] and [removeAddress] write. *)
Lemma unstr_written l :
  unstr (Strings.Join l nl +:+ nl) =
  Strings.join [newline] (map unstr l) ++ [newline].
Proof.
  rewrite unstr_append. unfold Strings.Join.
  now rewrite list_ascii_of_string_of_list_ascii.
Qed.

Lemma parse_written file l :
  Forall wellFormed l ->
  parseAddresses file (Strings.Join l nl +:+ nl) = Ok l.
Proof.
  intros H. unfold parseAddresses. rewrite unstr_written.
  destruct l as [|a l].
  - reflexivity.
  - rewrite StringsFacts.join_newline_terminated by (destruct l; discriminate).
    rewrite BufioFacts.rawLines_terminated.
    + now apply scanAddresses_roundtrip.
    + apply List.Forall_map. eapply List.Forall_impl; [|exact H].
      intros b Hb. apply Hb.
Qed.

Lemma parseAddresses_wellFormed file content l :
  parseAddresses file content = Ok l -> Forall wellFormed l.
Proof.
  unfold parseAddresses. apply scanAddresses_wellFormed.
  apply List.Forall_forall. intros raw H.
  eapply BufioFacts.rawLines_no_newline; [|exact H]. intros [].
Qed.

Module IPFacts.
Import Regexp RegexpFacts.

Lemma accepts_Void s : accepts Void s = false.
Proof. induction s; simpl; auto. Qed.

Lemma accepts_Eps s : accepts Eps s = match s with [] => true | _ => false end.
Proof. destruct s; simpl; [reflexivity | apply accepts_Void]. Qed.

Lemma between_1_3 p x :
  accepts (between 1 3 (Class p)) x =
  (1 <=? length x)%nat && (length x <=? 3)%nat && forallb p x.
Proof.
  destruct x as [|a [|b [|c [|d x]]]]; simpl; try reflexivity.
  - destruct (p a); reflexivity.
  - destruct (p a); simpl; [|reflexivity]. destruct (p b); reflexivity.
  - destruct (p a); simpl; [|reflexivity].
    destruct (p b); simpl; [|reflexivity]. destruct (p c); reflexivity.
  - destruct (p a); simpl; [|apply accepts_Void].
    destruct (p b); simpl; [|apply accepts_Void].
    destruct (p c); simpl; [|apply accepts_Void]. apply accepts_Void.
Qed.

Lemma Matches_digits x :
  Matches (between 1 3 (Class digit)) x <-> digitRun x = true.
Proof. rewrite <- accepts_spec, between_1_3. reflexivity. Qed.

Lemma Matches_lit a s : Matches (lit a) s <-> s = [a].
Proof.
  unfold lit. split.
  - intros H. apply Matches_Class_inv in H as (c & -> & Hc).
    apply byte_eqb_eq in Hc. now subst.
  - intros ->. constructor. now apply byte_eqb_eq.
Qed.

Lemma Matches_group s :
  Matches (Cat (between 1 3 (Class digit)) (lit dot)) s <->
  exists a, s = a ++ [dot] /\ digitRun a = true.
Proof.
  split.
  - intros H. apply Matches_Cat_inv in H as (a & t & -> & Ha & Ht).
    apply Matches_lit in Ht as ->. apply Matches_digits in Ha. eauto.
  - intros (a & -> & Ha). constructor; [now apply Matches_digits|].
    now apply Matches_lit.
Qed.

Lemma IP_language m : Matches IP_PATTERN m <-> dottedQuad m.
Proof.
  unfold IP_PATTERN, dottedQuad. cbn [times]. split.
  - intros H.
    apply Matches_Cat_inv in H as (g & d & -> & Hg & Hd).
    apply Matches_Cat_inv in Hg as (g1 & t1 & -> & H1 & Hg).
    apply Matches_Cat_inv in Hg as (g2 & t2 & -> & H2 & Hg).
    apply Matches_Cat_inv in Hg as (g3 & t3 & -> & H3 & Hg).
    apply Matches_Eps_inv in Hg as ->.
    apply Matches_group in H1 as (a & -> & Ha).
    apply Matches_group in H2 as (b & -> & Hb).
    apply Matches_group in H3 as (c & -> & Hc).
    apply Matches_digits in Hd.
    exists a, b, c, d. rewrite app_nil_r, <- !app_assoc. simpl. auto.
  - intros (a & b & c & d & -> & Ha & Hb & Hc & Hd).
    replace (a ++ dot :: b ++ dot :: c ++ dot :: d)
      with (((a ++ [dot]) ++ (b ++ [dot]) ++ (c ++ [dot]) ++ []) ++ d)
      by (rewrite app_nil_r, <- !app_assoc; reflexivity).
    constructor; [|now apply Matches_digits].
    repeat (constructor; [apply Matches_group; eauto|]). constructor.
Qed.

Lemma IP_MatchString line :
  MatchString IP_PATTERN line = true <-> containsDottedQuad line.
Proof.
  rewrite MatchString_spec. unfold containsDottedQuad.
  split; intros (pre & m & suf & E & H); exists pre, m, suf;
    (split; [exact E|]); now apply IP_language.
Qed.

End IPFacts.

(** * Running the operations *)

Lemma readAddressFile_run s w :
  readAddressFile s w = (emit EvOpenAddressFile w, watchlist s w).
Proof.
  unfold readAddressFile, os_Open_address, watchlist. unfold_go. simpl.
  destruct (addressPath w); reflexivity.
Qed.

Lemma hook_run s command args w :
  hook s command args w =
  if String.eqb command "" then (w, Ok tt)
  else (emit (EvExec command args) w,
        if commandOk w command args then Ok tt else Err (ExitError command args)).
Proof.
  unfold hook, exec. unfold_go. simpl.
  destruct (String.eqb command ""); simpl; [reflexivity|].
  destruct (commandOk w command args); reflexivity.
Qed.

Lemma removeAddress_unfold s addr :
  removeAddress s addr =
  (run hook s (DeleteCommand s) (DeleteArgs s ++ [addr]);
   do addrs <- readAddressFile s;
   if negb (Slices.Contains addrs addr) then ret "not present in"%string
   else
     match Slices.Index addrs addr with
     | Some i =>
         let addrs := Slices.Delete addrs i (i + 1) in
         run os_WriteFile_address (AddressFile s) (Strings.Join addrs nl +:+ nl);
         ret "deleted from"%string
     | None => ret "deleted from"%string
     end).
Proof. reflexivity. Qed.

Lemma addAddress_unfold s addr :
  addAddress s addr =
  (run hook s (AddCommand s) (AddArgs s ++ [addr]);
   do addrs <- readAddressFile s;
   if Slices.Contains addrs addr then ret "already present in"%string
   else
     let addrs := addrs ++ [addr] in
     run os_WriteFile_address (AddressFile s) (Strings.Join addrs nl +:+ nl);
     ret "added to"%string).
Proof. reflexivity. Qed.

Lemma watchlist_emit s e w : watchlist s (emit e w) = watchlist s w.
Proof. reflexivity. Qed.

Lemma removeAddress_run_absent s w addr addrs :
  watchlist s w = Ok addrs -> ~ In addr addrs ->
  removeAddress s addr w =
  if String.eqb (DeleteCommand s) "" then
    (emit EvOpenAddressFile w, Ok "not present in"%string)
  else if commandOk w (DeleteCommand s) (DeleteArgs s ++ [addr]) then
    (emit EvOpenAddressFile
       (emit (EvExec (DeleteCommand s) (DeleteArgs s ++ [addr])) w),
     Ok "not present in"%string)
  else
    (emit (EvExec (DeleteCommand s) (DeleteArgs s ++ [addr])) w,
     Err (ExitError (DeleteCommand s) (DeleteArgs s ++ [addr]))).
Proof.
  intros Hw Hn. apply SlicesFacts.Contains_not_In in Hn.
  rewrite removeAddress_unfold. unfold bind at 1. rewrite hook_run.
  destruct (String.eqb (DeleteCommand s) "") eqn:Ec.
  - unfold bind. now rewrite readAddressFile_run, Hw, Hn.
  - destruct (commandOk w _ _) eqn:Ek; [|reflexivity].
    unfold bind. now rewrite readAddressFile_run, watchlist_emit, Hw, Hn.
Qed.

(** Claim C8.  Removing is idempotent.  For an address that is not on the
    watchlist, [removeAddress] never writes the watchlist file, whose
    content stays as it was, and, its hook permitting, returns "not present
    in" without error. *)
Theorem remove_absent_is_noop s w addr addrs :
  watchlist s w = Ok addrs -> ~ In addr addrs ->
  (exists evs,
     trace (fst (removeAddress s addr w)) = trace w ++ evs /\
     forallb (fun e => negb (isWrite e)) evs = true) /\
  addressPath (fst (removeAddress s addr w)) = addressPath w /\
  (hookOk w (DeleteCommand s) (DeleteArgs s ++ [addr]) ->
   snd (removeAddress s addr w) = Ok "not present in"%string).
Proof.
  intros Hw Hn. rewrite (removeAddress_run_absent s w addr addrs Hw Hn).
  destruct (String.eqb (DeleteCommand s) "") eqn:Ec;
    [|destruct (commandOk w _ _) eqn:Ek]; simpl.
  - split; [|split; [reflexivity | intros _; reflexivity]].
    exists [EvOpenAddressFile]. auto.
  - split; [|split; [reflexivity | intros _; reflexivity]].
    exists [EvExec (DeleteCommand s) (DeleteArgs s ++ [addr]); EvOpenAddressFile].
    rewrite <- app_assoc. auto.
  - split; [|split; [reflexivity|]].
    + exists [EvExec (DeleteCommand s) (DeleteArgs s ++ [addr])]. auto.
    + intros [H|H]; [|congruence].
      rewrite H in Ec. discriminate.
Qed.

Lemma removeAddress_run s w addr addrs :
  watchlist s w = Ok addrs ->
  removeAddress s addr w =
  let '(w1, r1) := hook s (DeleteCommand s) (DeleteArgs s ++ [addr]) w in
  match r1 with
  | Err e => (w1, Err e)
  | Ok _ =>
      let w2 := emit EvOpenAddressFile w1 in
      if Slices.Contains addrs addr then
        let content := Strings.Join (removeFirst addr addrs) nl +:+ nl in
        (setAddressPath (FileOf content) (emit (EvWriteAddressFile content) w2),
         Ok "deleted from"%string)
      else (w2, Ok "not present in"%string)
  end.
Proof.
  intros Hw. rewrite removeAddress_unfold. unfold bind at 1. rewrite hook_run.
  assert (Hp : exists c, addressPath w = FileOf c).
  { unfold watchlist in Hw. destruct (addressPath w); try discriminate. eauto. }
  destruct Hp as [c Hp].
  destruct (String.eqb (DeleteCommand s) "") eqn:Ec;
    [|destruct (commandOk w _ _) eqn:Ek; [|reflexivity]];
    unfold bind at 1; rewrite readAddressFile_run, ?watchlist_emit, Hw;
    (destruct (Slices.Contains addrs addr) eqn:Hc; simpl; [|reflexivity]);
    apply SlicesFacts.Contains_In, SlicesFacts.Index_In in Hc as [i Hi];
    rewrite Hi, (SlicesFacts.Index_Delete _ _ _ Hi);
    unfold os_WriteFile_address; unfold_go; simpl; now rewrite Hp.
Qed.

Lemma addAddress_run s w addr addrs :
  watchlist s w = Ok addrs ->
  addAddress s addr w =
  let '(w1, r1) := hook s (AddCommand s) (AddArgs s ++ [addr]) w in
  match r1 with
  | Err e => (w1, Err e)
  | Ok _ =>
      let w2 := emit EvOpenAddressFile w1 in
      if Slices.Contains addrs addr then (w2, Ok "already present in"%string)
      else
        let content := Strings.Join (addrs ++ [addr]) nl +:+ nl in
        (setAddressPath (FileOf content) (emit (EvWriteAddressFile content) w2),
         Ok "added to"%string)
  end.
Proof.
  intros Hw. rewrite addAddress_unfold. unfold bind at 1. rewrite hook_run.
  assert (Hp : exists c, addressPath w = FileOf c).
  { unfold watchlist in Hw. destruct (addressPath w); try discriminate. eauto. }
  destruct Hp as [c Hp].
  destruct (String.eqb (AddCommand s) "") eqn:Ec;
    [|destruct (commandOk w _ _) eqn:Ek; [|reflexivity]];
    unfold bind at 1; rewrite readAddressFile_run, ?watchlist_emit, Hw;
    (destruct (Slices.Contains addrs addr) eqn:Hc; simpl; [reflexivity|]);
    unfold os_WriteFile_address; unfold_go; simpl; now rewrite Hp.
Qed.

(** * Directory entries *)

Lemma lookupEntry_putEntry_eq name x l :
  lookupEntry name (putEntry name x l) = Some x.
Proof.
  induction l as [|[n y] l IH]; simpl.
  - now rewrite String.eqb_refl.
  - destruct (String.eqb n name) eqn:E; simpl.
    + now rewrite String.eqb_refl.
    + destruct (String.ltb name n); simpl.
      * now rewrite String.eqb_refl.
      * now rewrite E.
Qed.

Lemma lookupEntry_putEntry_ne name other x l :
  name <> other ->
  lookupEntry other (putEntry name x l) = lookupEntry other l.
Proof.
  intros Hne. apply String.eqb_neq in Hne.
  induction l as [|[n y] l IH]; simpl.
  - now rewrite Hne.
  - destruct (String.eqb n name) eqn:E; simpl.
    + rewrite Hne. apply String.eqb_eq in E. subst n. now rewrite Hne.
    + destruct (String.ltb name n); simpl.
      * now rewrite Hne.
      * now rewrite IH.
Qed.

Lemma lookupEntry_dropEntry_eq name l : lookupEntry name (dropEntry name l) = None.
Proof.
  induction l as [|[n y] l IH]; simpl; [reflexivity|].
  destruct (String.eqb n name) eqn:E; simpl; [exact IH|]. now rewrite E.
Qed.

Lemma lookupEntry_dropEntry_ne name other l :
  name <> other -> lookupEntry other (dropEntry name l) = lookupEntry other l.
Proof.
  intros Hne. induction l as [|[n y] l IH]; simpl; [reflexivity|].
  destruct (String.eqb n name) eqn:E; simpl.
  - apply String.eqb_eq in E. subst n. apply String.eqb_neq in Hne.
    now rewrite Hne.
  - now rewrite IH.
Qed.

Lemma lookupEntry_In name x l : lookupEntry name l = Some x -> In (name, x) l.
Proof.
  induction l as [|[n y] l IH]; simpl; [discriminate|].
  destruct (String.eqb n name) eqn:E.
  - apply String.eqb_eq in E. subst n. intros [= ->]. now left.
  - intros H. right. now apply IH.
Qed.

Lemma In_lookupEntry name x l :
  List.NoDup (names l) -> In (name, x) l -> lookupEntry name l = Some x.
Proof.
  induction l as [|[n y] l IH]; simpl; [intros _ []|].
  intros Hnd. inversion Hnd as [|? ? Hn Hl]; subst.
  intros [[= -> ->]|H].
  - now rewrite String.eqb_refl.
  - destruct (String.eqb n name) eqn:E; [|now apply IH].
    apply String.eqb_eq in E. subst n. exfalso. apply Hn.
    unfold names. apply in_map_iff. now exists (name, x).
Qed.

(** * Refreshing a timeout record *)

Lemma writeTimeoutFile_run s addr w :
  writeTimeoutFile s addr w =
  let expiration := clock w (ticks w) + AddressTimeout s in
  if TimePkg.representable expiration then
    os_WriteFile_timeout (TimeoutDir s) addr (Marshalled expiration) (tick w)
  else (tick w, Err (Errorf "failed marshalling expiration" ErrMarshalText)).
Proof.
  unfold writeTimeoutFile, time_Now, MarshalText, TimePkg.Add. unfold_go. simpl.
  destruct (TimePkg.representable _); reflexivity.
Qed.

(** What a timeout write leaves alone, whatever its outcome. *)
Lemma writeTimeoutFile_frame s addr w :
  let w' := fst (writeTimeoutFile s addr w) in
  addressPath w' = addressPath w /\ commandOk w' = commandOk w /\
  clock w' = clock w /\
  (trace w' = trace w \/
   exists d, trace w' = trace w ++ [EvWriteFile addr d]).
Proof.
  rewrite writeTimeoutFile_run. simpl.
  destruct (TimePkg.representable _); simpl; [|auto].
  unfold os_WriteFile_timeout. unfold_go. simpl.
  destruct (timeoutPath w) as [| |entries]; simpl; eauto 6.
  destruct (plainName addr); simpl; eauto 6.
  destruct (lookupEntry addr entries) as [[d|m]|]; simpl; eauto 6.
Qed.

Lemma writeTimeoutFile_ok s addr w w1 :
  writeTimeoutFile s addr w = (w1, Ok tt) ->
  let data := Marshalled (clock w (ticks w) + AddressTimeout s) in
  exists entries,
    timeoutPath w = DirOf entries /\
    w1 = setTimeoutPath (DirOf (putEntry addr (Regular data) entries))
           (emit (EvWriteFile addr data) (tick w)).
Proof.
  rewrite writeTimeoutFile_run. simpl.
  destruct (TimePkg.representable _); [|discriminate].
  unfold os_WriteFile_timeout. unfold_go. simpl.
  destruct (timeoutPath w) as [| |entries]; simpl; try discriminate.
  destruct (plainName addr); simpl; try discriminate.
  destruct (lookupEntry addr entries) as [[d|m]|]; simpl; try discriminate;
    intros [= <-]; eauto.
Qed.

Lemma onMatch_unfold s addr w :
  onMatch s addr w =
  let '(w1, r1) := writeTimeoutFile s addr w in
  match r1 with
  | Err e => (w1, Err (Errorf "scanner: writeTimeoutFile" e))
  | Ok _ =>
      let '(w2, r2) := addAddress s addr w1 in
      match r2 with
      | Err e => (w2, Err (Errorf "scanner: addAddress" e))
      | Ok action => (emit (EvLog (LogScannerIP addr action (AddressFile s))) w2, Ok tt)
      end
  end.
Proof.
  unfold onMatch. unfold_go.
  destruct (writeTimeoutFile s addr w) as [w1 [[]|e]]; [|reflexivity].
  destruct (addAddress s addr w1) as [w2 [action|e]]; reflexivity.
Qed.

Lemma watchlist_frame s w w' :
  addressPath w' = addressPath w -> watchlist s w' = watchlist s w.
Proof. unfold watchlist. now intros ->. Qed.

(** An address already listed: [addAddress] writes nothing. *)
Lemma addAddress_present s w addr addrs :
  watchlist s w = Ok addrs -> In addr addrs ->
  let w' := fst (addAddress s addr w) in
  addressPath w' = addressPath w /\
  timeoutPath w' = timeoutPath w /\
  (exists evs, trace w' = trace w ++ evs /\
               forallb (fun e => negb (isWrite e)) evs = true) /\
  (hookOk w (AddCommand s) (AddArgs s ++ [addr]) ->
   snd (addAddress s addr w) = Ok "already present in"%string) /\
  (forall action, snd (addAddress s addr w) = Ok action ->
                  action = "already present in"%string).
Proof.
  intros Hw Hin. apply SlicesFacts.Contains_In in Hin.
  rewrite (addAddress_run s w addr addrs Hw), hook_run, Hin.
  destruct (String.eqb (AddCommand s) "") eqn:Ec;
    [|destruct (commandOk w _ _) eqn:Ek]; simpl.
  - repeat split; try (intros; congruence).
    exists [EvOpenAddressFile]. auto.
  - repeat split; try (intros; congruence).
    exists [EvExec (AddCommand s) (AddArgs s ++ [addr]); EvOpenAddressFile].
    rewrite <- app_assoc. auto.
  - repeat split; try (intros; congruence).
    + exists [EvExec (AddCommand s) (AddArgs s ++ [addr])]. auto.
    + intros [H|H]; [|congruence]. rewrite H in Ec. discriminate.
Qed.

(** Claim C4.  Adding is idempotent.  When a matched address is already on
    the watchlist, processing the match never writes the watchlist file,
    whose content and list of addresses stay as they were, so that the
    address is there once in a list without duplicates; when the timeout
    write succeeds the record of the address holds a fresh expiration, now
    plus the configured timeout; when the processing succeeds the outcome
    reported is "already present in"; [addAddress] itself, its hook
    permitting, returns "already present in" and leaves the file alone. *)
Theorem rematch_refreshes_record_only s w addr addrs :
  watchlist s w = Ok addrs -> In addr addrs ->
  let w' := fst (onMatch s addr w) in
  (addressPath w' = addressPath w /\ watchlist s w' = Ok addrs /\
   exists evs, trace w' = trace w ++ evs /\
               forallb (fun e => negb (isWrite e)) evs = true) /\
  (List.NoDup addrs -> count_occ String.string_dec addrs addr = 1%nat) /\
  (forall w1, writeTimeoutFile s addr w = (w1, Ok tt) ->
     exists entries',
       timeoutPath w' = DirOf entries' /\
       lookupEntry addr entries' =
         Some (Regular (Marshalled (clock w (ticks w) + AddressTimeout s)))) /\
  (snd (onMatch s addr w) = Ok tt ->
   exists evs,
     trace w' = trace w ++ evs ++
       [EvLog (LogScannerIP addr "already present in" (AddressFile s))]) /\
  (forall w1, hookOk w1 (AddCommand s) (AddArgs s ++ [addr]) ->
     watchlist s w1 = Ok addrs ->
     addAddress s addr w1 =
       (fst (addAddress s addr w1), Ok "already present in"%string) /\
     addressPath (fst (addAddress s addr w1)) = addressPath w1).
Proof.
  intros Hw Hin w'. subst w'.
  rewrite onMatch_unfold.
  pose proof (writeTimeoutFile_frame s addr w) as (Fa & Fc & Fk & Ft).
  pose proof (writeTimeoutFile_ok s addr w) as Hok.
  destruct (writeTimeoutFile s addr w) as [w1 r1]. simpl in Fa, Fc, Fk, Ft.
  assert (Hw1 : watchlist s w1 = Ok addrs)
    by (rewrite (watchlist_frame s w w1 Fa); exact Hw).
  pose proof (addAddress_present s w1 addr addrs Hw1 Hin) as (Ga & Gd & Gt & _ & Gact).
  assert (Hevs : exists evs, trace (fst (addAddress s addr w1)) = trace w ++ evs /\
                             forallb (fun e => negb (isWrite e)) evs = true).
  { destruct Gt as (evs & Et & Hf).
    destruct Ft as [Ft|[d Ft]]; rewrite Et, Ft.
    - eauto.
    - exists (EvWriteFile addr d :: evs). rewrite <- app_assoc. split; auto. }
  split; [|split; [|split; [|split]]].
  - destruct r1 as [[]|e]; simpl.
    + destruct (addAddress s addr w1) as [w2 [action|e]]; simpl in *.
      * split; [congruence|]. split.
        { erewrite watchlist_frame; [exact Hw | simpl; congruence]. }
        destruct Hevs as (evs & Et & Hf).
        exists (evs ++ [EvLog (LogScannerIP addr action (AddressFile s))]).
        rewrite Et, <- app_assoc. split; [reflexivity|].
        rewrite forallb_app, Hf. reflexivity.
      * split; [congruence|]. split; [|exact Hevs].
        erewrite watchlist_frame; [exact Hw | simpl; congruence].
    + split; [exact Fa|]. split; [exact Hw1|].
      destruct Ft as [Ft|[d Ft]]; rewrite Ft.
      * exists []. now rewrite app_nil_r.
      * exists [EvWriteFile addr d]. auto.
  - intros Hnd. now apply NoDup_count_occ'.
  - intros w0 [= <- ->].
    destruct (Hok w1 eq_refl) as (entries & Hd & E1).
    assert (Hd1 : timeoutPath w1 = DirOf (putEntry addr
              (Regular (Marshalled (clock w (ticks w) + AddressTimeout s))) entries))
      by (rewrite E1; reflexivity).
    exists (putEntry addr
              (Regular (Marshalled (clock w (ticks w) + AddressTimeout s))) entries).
    split; [|apply lookupEntry_putEntry_eq].
    rewrite <- Hd1, <- Gd.
    destruct (addAddress s addr w1) as [w2 [action|e]]; reflexivity.
  - destruct r1 as [[]|e]; [|discriminate].
    destruct (addAddress s addr w1) as [w2 [action|e]] eqn:Eadd; [|discriminate].
    intros _. simpl in *.
    rewrite (Gact action eq_refl). destruct Hevs as (evs & -> & _).
    exists evs. now rewrite <- app_assoc.
  - intros w0 Hk Hw0.
    pose proof (addAddress_present s w0 addr addrs Hw0 Hin) as (Ha & _ & _ & Hr & _).
    split; [|exact Ha]. specialize (Hr Hk).
    destruct (addAddress s addr w0) as [w2 r2]. simpl in *. now subst.
Qed.

(** * The patterns of a line *)

Lemma forPatterns_cons s pattern rest line :
  forPatterns s (pattern :: rest) line =
  match FindStringSubmatch pattern line with
  | _ :: addr :: _ => (run onMatch s addr; forPatterns s rest line)
  | _ => forPatterns s rest line
  end.
Proof.
  cbn [forPatterns].
  destruct (FindStringSubmatch pattern line) as [|whole [|addr groups]];
    reflexivity.
Qed.

Lemma forPatterns_processEach s patterns line :
  forPatterns s patterns line = processEach s (matchedAddresses patterns line).
Proof.
  induction patterns as [|pattern rest IH]; [reflexivity|].
  rewrite forPatterns_cons. unfold matchedAddresses. cbn [flat_map].
  unfold firstGroup at 1.
  destruct (FindStringSubmatch pattern line) as [|whole [|addr groups]];
    cbn [app processEach]; now rewrite IH.
Qed.

Lemma forPatterns_skip s pre rest line :
  Forall (noMatch line) pre ->
  forPatterns s (pre ++ rest) line = forPatterns s rest line.
Proof.
  induction 1 as [|p pre Hp _ IH]; [reflexivity|].
  cbn [app]. rewrite forPatterns_cons. unfold noMatch in Hp.
  destruct (FindStringSubmatch p line) as [|whole [|addr groups]]; auto.
  simpl in Hp. lia.
Qed.

Lemma addAddress_events s addr w :
  exists evs, trace (fst (addAddress s addr w)) = trace w ++ evs /\
              forallb addressEvent evs = true.
Proof.
  rewrite addAddress_unfold. unfold bind at 1. rewrite hook_run.
  assert (G : forall w0 pre, trace w0 = trace w ++ pre ->
            forallb addressEvent pre = true ->
            exists evs,
              trace (fst ((do addrs <- readAddressFile s;
                 if Slices.Contains addrs addr then ret "already present in"%string
                 else
                   let addrs := addrs ++ [addr] in
                   run os_WriteFile_address (AddressFile s)
                         (Strings.Join addrs nl +:+ nl);
                   ret "added to"%string) w0)) = trace w ++ evs /\
              forallb addressEvent evs = true).
  { intros w0 pre Hpre Hf. unfold bind at 1. rewrite readAddressFile_run.
    destruct (watchlist s w0) as [addrs|e]; simpl.
    - destruct (Slices.Contains addrs addr); simpl.
      + exists (pre ++ [EvOpenAddressFile]). rewrite Hpre, <- app_assoc.
        split; [reflexivity|]. now rewrite forallb_app, Hf.
      + unfold os_WriteFile_address. unfold_go. simpl.
        exists (pre ++ [EvOpenAddressFile;
                        EvWriteAddressFile (Strings.Join (addrs ++ [addr]) nl +:+ nl)]).
        split; [|now rewrite forallb_app, Hf].
        destruct (addressPath w0); simpl; rewrite Hpre, <- !app_assoc; reflexivity.
    - exists (pre ++ [EvOpenAddressFile]). rewrite Hpre, <- app_assoc.
      split; [reflexivity|]. now rewrite forallb_app, Hf. }
  destruct (String.eqb (AddCommand s) "").
  - apply (G w []); [now rewrite app_nil_r | reflexivity].
  - destruct (commandOk w _ _).
    + apply (G _ [EvExec (AddCommand s) (AddArgs s ++ [addr])]); reflexivity.
    + exists [EvExec (AddCommand s) (AddArgs s ++ [addr])]. auto.
Qed.

Lemma refreshed_app a b : refreshed (a ++ b) = refreshed a ++ refreshed b.
Proof. apply flat_map_app. Qed.

Lemma reported_app a b : reported (a ++ b) = reported a ++ reported b.
Proof. apply flat_map_app. Qed.

Lemma addressEvent_silent evs :
  forallb addressEvent evs = true -> refreshed evs = [] /\ reported evs = [].
Proof.
  induction evs as [|e evs IH]; [auto|]. simpl.
  intros H. apply andb_true_iff in H as [He H]. destruct (IH H) as [-> ->].
  destruct e; try discriminate; auto.
Qed.

Lemma onMatch_ok_events s addr w w' :
  onMatch s addr w = (w', Ok tt) ->
  exists evs, trace w' = trace w ++ evs /\
              refreshed evs = [addr] /\ reported evs = [addr].
Proof.
  rewrite onMatch_unfold.
  pose proof (writeTimeoutFile_ok s addr w) as Hok.
  destruct (writeTimeoutFile s addr w) as [w1 [[]|e]]; [|discriminate].
  destruct (Hok w1 eq_refl) as (entries & Hd & ->).
  pose proof (addAddress_events s addr
    (setTimeoutPath (DirOf (putEntry addr
       (Regular (Marshalled (clock w (ticks w) + AddressTimeout s))) entries))
       (emit (EvWriteFile addr (Marshalled (clock w (ticks w) + AddressTimeout s)))
             (tick w)))) as (evs & Et & Hf).
  destruct (addAddress s addr _) as [w2 [action|e]]; [|discriminate].
  intros [= <-]. simpl in *.
  apply addressEvent_silent in Hf as [Hr Hp].
  exists (EvWriteFile addr (Marshalled (clock w (ticks w) + AddressTimeout s))
          :: evs ++ [EvLog (LogScannerIP addr action (AddressFile s))]).
  rewrite Et, <- !app_assoc. split; [reflexivity|].
  change (EvWriteFile addr ?d :: ?l) with ([EvWriteFile addr d] ++ l).
  rewrite !refreshed_app, !reported_app, Hr, Hp. auto.
Qed.

Lemma processEach_ok_events s addrs : forall w w',
  processEach s addrs w = (w', Ok tt) ->
  exists evs, trace w' = trace w ++ evs /\
              refreshed evs = addrs /\ reported evs = addrs.
Proof.
  induction addrs as [|addr rest IH]; intros w w'; cbn [processEach].
  - intros [= <-]. exists []. now rewrite app_nil_r.
  - unfold bind.
    destruct (onMatch s addr w) as [w1 [[]|e]] eqn:E1; [|discriminate].
    intros H. apply onMatch_ok_events in E1 as (e1 & T1 & R1 & P1).
    apply IH in H as (e2 & T2 & R2 & P2).
    exists (e1 ++ e2). rewrite T2, T1, <- app_assoc.
    rewrite refreshed_app, reported_app, R1, R2, P1, P2. auto.
Qed.

(** Claim C3.  For every line received from the follow process the worker
    runs the loop over all configured patterns, in configured order, and
    that loop processes the first capturing group of every pattern that
    matches with one, not only of the first such pattern: it is the
    processing, in order and up to the first error, of one address for each
    matching pattern.  When it completes, the timeout records refreshed and
    the outcomes reported are exactly those addresses, one for each
    matching pattern, so that a line matched by several patterns is
    processed once for each of them. *)
Theorem scanner_applies_every_pattern s line :
  (forall stderrOpen selects,
     scannerLoop s stderrOpen true (StdoutLine line :: selects) =
     (run forPatterns s (Patterns s) line;
      scannerLoop s stderrOpen true selects)) /\
  forall patterns,
    forPatterns s patterns line = processEach s (matchedAddresses patterns line) /\
    forall w w',
      forPatterns s patterns line w = (w', Ok tt) ->
      exists evs, trace w' = trace w ++ evs /\
                  refreshed evs = matchedAddresses patterns line /\
                  reported evs = matchedAddresses patterns line.
Proof.
  split.
  - intros stderrOpen selects. cbn [scannerLoop].
    now rewrite orb_true_r.
  - intros patterns. split; [apply forPatterns_processEach|].
    intros w w'. rewrite forPatterns_processEach. apply processEach_ok_events.
Qed.

(** Claim C5.  Partial failure of a match.  When the timeout record of a
    matched address has been written and the add hook then fails, the
    worker returns the error of the hook; the record stands with its new
    expiration, now plus the configured timeout; and the watchlist file is
    neither opened nor written, the hook being run before that step: the
    address is not appended. *)
Theorem add_hook_failure_keeps_record s w addr w1 :
  writeTimeoutFile s addr w = (w1, Ok tt) ->
  AddCommand s <> ""%string ->
  commandOk w (AddCommand s) (AddArgs s ++ [addr]) = false ->
  let e := Errorf "scanner: addAddress"
             (ExitError (AddCommand s) (AddArgs s ++ [addr])) in
  let data := Marshalled (clock w (ticks w) + AddressTimeout s) in
  let w' := emit (EvExec (AddCommand s) (AddArgs s ++ [addr])) w1 in
  onMatch s addr w = (w', Err e) /\
  (exists entries', timeoutPath w' = DirOf entries' /\
                    lookupEntry addr entries' = Some (Regular data)) /\
  addressPath w' = addressPath w /\
  trace w' = trace w ++ [EvWriteFile addr data;
                         EvExec (AddCommand s) (AddArgs s ++ [addr])] /\
  forall pre pattern rest line whole groups,
    Forall (noMatch line) pre ->
    FindStringSubmatch pattern line = whole :: addr :: groups ->
    forPatterns s (pre ++ pattern :: rest) line w = (w', Err e) /\
    (Patterns s = pre ++ pattern :: rest ->
     forall stderrOpen selects,
       scannerLoop s stderrOpen true (StdoutLine line :: selects) w = (w', Err e)).
Proof.
  intros Hw Hc Hk e data w'.
  assert (Hm : onMatch s addr w = (w', Err e)).
  { rewrite onMatch_unfold, Hw.
    pose proof (writeTimeoutFile_frame s addr w) as (_ & Fc & _).
    rewrite Hw in Fc. simpl in Fc.
    rewrite addAddress_unfold. unfold bind at 1. rewrite hook_run.
    apply String.eqb_neq in Hc. rewrite Hc, Fc, Hk. reflexivity. }
  destruct (writeTimeoutFile_ok s addr w w1 Hw) as (entries & Hd & E1).
  split; [exact Hm|]. split; [|split; [|split]].
  - subst w' w1. simpl. eexists. split; [reflexivity|].
    apply lookupEntry_putEntry_eq.
  - subst w' w1. reflexivity.
  - subst w' w1. simpl. now rewrite <- app_assoc.
  - intros pre pattern rest line whole groups Hpre Hfound.
    assert (Hf : forPatterns s (pre ++ pattern :: rest) line w = (w', Err e)).
    { rewrite forPatterns_skip by exact Hpre.
      rewrite forPatterns_cons, Hfound. unfold bind. now rewrite Hm. }
    split; [exact Hf|]. intros Hp stderrOpen selects.
    cbn [scannerLoop]. rewrite orb_true_r. cbn [negb].
    unfold bind. now rewrite Hp, Hf.
Qed.

(** * The reaper *)

Lemma Compare_ge now expiration :
  (0 <=? TimePkg.Compare now expiration) = (expiration <=? now).
Proof.
  unfold TimePkg.Compare.
  destruct (Z.compare_spec now expiration); simpl; symmetry.
  - apply Z.leb_le. lia.
  - apply Z.leb_gt. lia.
  - apply Z.leb_le. lia.
Qed.

Lemma collectExpired_cons s addr node rest acc :
  collectExpired s ((addr, node) :: rest) acc =
  if IsRegular node then
    (do timeData <- orReturn Fatal (os_ReadFile_timeout (TimeoutDir s) addr);
     do expiration <-
       orReturn (Fatalf ("reaper: failed umarshalling expiration from '"
                         +:+ TimeoutDir s +:+ "/" +:+ addr +:+ "'"))
                (lift (UnmarshalText timeData));
     do now <- time_Now;
     if 0 <=? TimePkg.Compare now expiration
     then collectExpired s rest (acc ++ [addr])
     else
       run effect (EvLog (LogReaperActive addr timeData));
       collectExpired s rest acc)
  else collectExpired s rest acc.
Proof. reflexivity. Qed.

Lemma sameStores_refl w : sameStores w w.
Proof. repeat split. Qed.

Lemma sameStores_trans a b c : sameStores a b -> sameStores b c -> sameStores a c.
Proof. unfold sameStores. intuition congruence. Qed.

Lemma collectExpired_success s now all : forall entries acc w w' L,
  (forall k, clock w k = now) ->
  timeoutPath w = DirOf all ->
  (forall addr node, In (addr, node) entries -> lookupEntry addr all = Some node) ->
  collectExpired s entries acc w = (w', Ok L) ->
  L = acc ++ expiredNames now entries /\ sameStores w w'.
Proof.
  induction entries as [|[addr node] rest IH]; intros acc w w' L Hclock Hdir Hall.
  - cbn [collectExpired]. unfold ret. intros [= <- <-].
    unfold expiredNames. simpl. rewrite app_nil_r. split; [reflexivity|].
    apply sameStores_refl.
  - rewrite collectExpired_cons.
    assert (Hrest : forall a n, In (a, n) rest -> lookupEntry a all = Some n)
      by (intros a n H; apply Hall; now right).
    destruct node as [data|mode]; cbn [IsRegular].
    + unfold os_ReadFile_timeout, time_Now. unfold_go. simpl.
      rewrite Hdir, (Hall addr (Regular data)) by now left.
      destruct data as [expiration|raw]; simpl; [|discriminate].
      rewrite Compare_ge, Hclock.
      unfold expiredNames. cbn [List.filter isExpired snd].
      destruct (expiration <=? now) eqn:E.
      * intros H. apply IH in H as [-> H]; auto.
        split; [simpl; now rewrite <- app_assoc|].
        unfold sameStores in *. simpl in H. exact H.
      * intros H. apply IH in H as [-> H]; auto.
    + intros H. apply IH in H as [-> H]; auto.
Qed.

Lemma deleteTimeoutFile_ok s addr w w1 :
  deleteTimeoutFile s addr w = (w1, Ok tt) ->
  exists entries,
    timeoutPath w = DirOf entries /\
    w1 = setTimeoutPath (DirOf (dropEntry addr entries)) (emit (EvRemove addr) w).
Proof.
  unfold deleteTimeoutFile, os_Remove_timeout. unfold_go. simpl.
  destruct (timeoutPath w) as [| |entries]; try discriminate.
  destruct (lookupEntry addr entries) as [[d|[]]|]; try discriminate;
    intros [= <-]; eauto.
Qed.

Lemma removeAddress_unreadable s addr w e :
  watchlist s w = Err e -> exists e', snd (removeAddress s addr w) = Err e'.
Proof.
  intros Hw. rewrite removeAddress_unfold. unfold bind at 1. rewrite hook_run.
  destruct (String.eqb (DeleteCommand s) "");
    [|destruct (commandOk w _ _); [|simpl; eauto]];
    unfold bind; rewrite readAddressFile_run, ?watchlist_emit, Hw; simpl; eauto.
Qed.

Lemma wellFormed_removeFirst addr addrs :
  Forall wellFormed addrs -> Forall wellFormed (removeFirst addr addrs).
Proof.
  intros H. apply List.Forall_forall. intros a Ha.
  apply SlicesFacts.removeFirst_In in Ha.
  rewrite List.Forall_forall in H. now apply H.
Qed.

(** A successful [removeAddress]: the address is gone, the others stay. *)
Lemma removeAddress_ok s addr w w1 action :
  removeAddress s addr w = (w1, Ok action) ->
  noDuplicates s w ->
  timeoutPath w1 = timeoutPath w /\ clock w1 = clock w /\
  commandOk w1 = commandOk w /\
  noDuplicates s w1 /\
  forall a, watched s w1 a <-> (watched s w a /\ a <> addr).
Proof.
  intros Hrun Hnd.
  destruct (watchlist s w) as [addrs|e] eqn:Hw.
  2:{ destruct (removeAddress_unreadable s addr w e Hw) as [e' He'].
      rewrite Hrun in He'. discriminate. }
  pose proof (Hnd addrs Hw) as Hno.
  rewrite (removeAddress_run s w addr addrs Hw), hook_run in Hrun.
  assert (G : forall w0, sameStores w w0 ->
    (let w2 := emit EvOpenAddressFile w0 in
     if Slices.Contains addrs addr then
       let content := Strings.Join (removeFirst addr addrs) nl +:+ nl in
       (setAddressPath (FileOf content) (emit (EvWriteAddressFile content) w2),
        Ok "deleted from"%string)
     else (w2, Ok "not present in"%string)) = (w1, Ok action) ->
    timeoutPath w1 = timeoutPath w /\ clock w1 = clock w /\
    commandOk w1 = commandOk w /\ noDuplicates s w1 /\
    forall a, watched s w1 a <-> (watched s w a /\ a <> addr)).
  { intros w0 (Sa & Sd & Sc & Sk). simpl.
    destruct (Slices.Contains addrs addr) eqn:Hc; intros [= <- <-]; simpl.
    - assert (Hp : watchlist s
         (setAddressPath (FileOf (Strings.Join (removeFirst addr addrs) nl +:+ nl))
            (emit (EvWriteAddressFile (Strings.Join (removeFirst addr addrs) nl +:+ nl))
               (emit EvOpenAddressFile w0))) = Ok (removeFirst addr addrs)).
      { unfold watchlist. simpl. apply parse_written, wellFormed_removeFirst.
        unfold watchlist in Hw. destruct (addressPath w); try discriminate.
        eapply parseAddresses_wellFormed; eauto. }
      split; [exact Sd|]. split; [exact Sc|]. split; [exact Sk|]. split.
      + intros l Hl. rewrite Hp in Hl. injection Hl as <-.
        now apply SlicesFacts.removeFirst_NoDup.
      + intros a. split.
        * intros (l & Hl & Hin). rewrite Hp in Hl. injection Hl as <-.
          apply SlicesFacts.removeFirst_In_iff in Hin as [Hin Hne]; auto.
          split; [|exact Hne]. exists addrs; auto.
        * intros [(l & Hl & Hin) Hne]. rewrite Hw in Hl. injection Hl as <-.
          exists (removeFirst addr addrs). split; [exact Hp|].
          now apply SlicesFacts.removeFirst_In_iff.
    - assert (Hp : watchlist s (emit EvOpenAddressFile w0) = Ok addrs).
      { rewrite <- Hw. apply watchlist_frame. exact Sa. }
      apply SlicesFacts.Contains_not_In in Hc.
      split; [exact Sd|]. split; [exact Sc|]. split; [exact Sk|]. split.
      + intros l Hl. rewrite Hp in Hl. injection Hl as <-. exact Hno.
      + intros a. split.
        * intros (l & Hl & Hin). rewrite Hp in Hl. injection Hl as <-.
          split; [exists addrs; auto|]. intros ->. auto.
        * intros [(l & Hl & Hin) Hne]. rewrite Hw in Hl. injection Hl as <-.
          exists addrs; auto. }
  destruct (String.eqb (DeleteCommand s) "").
  - apply (G w); [apply sameStores_refl | exact Hrun].
  - destruct (commandOk w _ _); [|discriminate].
    apply (G (emit (EvExec (DeleteCommand s) (DeleteArgs s ++ [addr])) w));
      [repeat split | exact Hrun].
Qed.

Lemma removeExpired_cons s addr rest :
  removeExpired s (addr :: rest) =
  (do action <- orReturn (Fatalf "reaper: removeAddress failed")
                         (removeAddress s addr);
   run orReturn Fatal (deleteTimeoutFile s addr);
   run effect (EvLog (LogReaperExpired addr action (AddressFile s)));
   removeExpired s rest).
Proof. reflexivity. Qed.

Lemma watched_frame s w w' a :
  addressPath w' = addressPath w -> watched s w' a <-> watched s w a.
Proof.
  intros H. unfold watched. now rewrite (watchlist_frame s w w' H).
Qed.

Lemma noDuplicates_frame s w w' :
  addressPath w' = addressPath w -> noDuplicates s w -> noDuplicates s w'.
Proof.
  intros H Hn l. rewrite (watchlist_frame s w w' H). apply Hn.
Qed.

Lemma removeExpired_success s : forall expired w w' entries,
  removeExpired s expired w = (w', Ok tt) ->
  noDuplicates s w ->
  timeoutPath w = DirOf entries ->
  timeoutPath w' = DirOf (dropAll expired entries) /\
  forall a, watched s w' a <-> (watched s w a /\ ~ In a expired).
Proof.
  induction expired as [|addr rest IH]; intros w w' entries.
  - cbn [removeExpired]. unfold ret. intros [= <-] _ Hd. simpl.
    split; [exact Hd|]. intros a. tauto.
  - rewrite removeExpired_cons. unfold_go.
    destruct (removeAddress s addr w) as [w1 [action|e]] eqn:E1; [|discriminate].
    destruct (deleteTimeoutFile s addr w1) as [w2 [[]|e]] eqn:E2; [|discriminate].
    intros Hrest Hnd Hd.
    destruct (removeAddress_ok s addr w w1 action E1 Hnd) as (Hd1 & _ & _ & Hnd1 & Hw1).
    apply deleteTimeoutFile_ok in E2 as (entries1 & Hd2 & ->).
    rewrite Hd1, Hd in Hd2. injection Hd2 as <-.
    apply IH with (entries := dropEntry addr entries) in Hrest.
    + destruct Hrest as [Hdir Hwatch]. split; [exact Hdir|].
      intros a. rewrite Hwatch.
      rewrite (watched_frame s w1) by reflexivity. rewrite Hw1. simpl.
      split.
      * intros [[H1 H2] H3]. split; [exact H1|]. intros [->|H]; auto.
      * intros [H1 H2]. repeat split; auto.
    + apply (noDuplicates_frame s w1); [reflexivity | exact Hnd1].
    + reflexivity.
Qed.

Lemma lookupEntry_dropAll_in addr expired : forall entries,
  In addr expired -> lookupEntry addr (dropAll expired entries) = None.
Proof.
  induction expired as [|a rest IH]; intros entries; [intros []|].
  simpl. destruct (String.eqb a addr) eqn:E.
  - apply String.eqb_eq in E. subst a. intros _.
    clear IH. revert entries.
    assert (G : forall l e, lookupEntry addr e = None ->
                            lookupEntry addr (dropAll l e) = None).
    { induction l as [|b l IHl]; intros e He; [exact He|].
      simpl. apply IHl.
      destruct (String.eqb b addr) eqn:Eb.
      - apply String.eqb_eq in Eb. subst b. apply lookupEntry_dropEntry_eq.
      - apply String.eqb_neq in Eb. now rewrite lookupEntry_dropEntry_ne. }
    intros entries. apply G, lookupEntry_dropEntry_eq.
  - intros [->|H]; [rewrite String.eqb_refl in E; discriminate|].
    now apply IH.
Qed.

Lemma lookupEntry_dropAll_out addr expired : forall entries,
  ~ In addr expired ->
  lookupEntry addr (dropAll expired entries) = lookupEntry addr entries.
Proof.
  induction expired as [|a rest IH]; intros entries Hn; [reflexivity|].
  simpl. rewrite IH by (intros H; apply Hn; now right).
  apply lookupEntry_dropEntry_ne. intros ->. apply Hn. now left.
Qed.

Lemma sweep_unfold s :
  sweep s =
  (do entries <- orReturn Fatal (os_ReadDir (TimeoutDir s));
   do expiredAddrs <- collectExpired s entries [];
   removeExpired s expiredAddrs).
Proof. reflexivity. Qed.

(** Claim C2.  The expiry boundary of the reaper is not strict.  In a
    sweep that takes place at the instant [now] and completes, over a store
    that has its uniqueness invariant, every timeout record whose expiration
    is at or before [now] has its file deleted and its address off the
    watchlist at the end of the sweep, the record that expires exactly at
    [now] included; every record whose expiration is after [now] keeps its
    file with the same content, and its address is on the watchlist after
    the sweep if and only if it was before. *)
Theorem reaper_expiry_boundary s w now entries w' :
  (forall k, clock w k = now) ->
  timeoutPath w = DirOf entries ->
  List.NoDup (names entries) ->
  noDuplicates s w ->
  sweep s w = (w', Ok tt) ->
  exists entries',
    timeoutPath w' = DirOf entries' /\
    forall addr expiration,
      In (addr, Regular (Marshalled expiration)) entries ->
      (expiration <= now ->
       lookupEntry addr entries' = None /\ ~ watched s w' addr) /\
      (now < expiration ->
       lookupEntry addr entries' = Some (Regular (Marshalled expiration)) /\
       (watched s w' addr <-> watched s w addr)).
Proof.
  intros Hclock Hdir Hnames Hnd. rewrite sweep_unfold.
  unfold os_ReadDir. unfold_go. simpl. rewrite Hdir.
  destruct (collectExpired s entries [] (emit EvReadDir w))
    as [w1 [expired|e]] eqn:E1; [|discriminate].
  intros E2.
  apply (collectExpired_success s now entries) in E1
    as [-> (Sa & Sd & Sc & Sk)]; auto.
  2:{ intros addr node H. now apply In_lookupEntry. }
  simpl in *.
  apply (removeExpired_success s _ w1 w' entries) in E2
    as [Hdir' Hwatch]; [| |congruence].
  2:{ apply (noDuplicates_frame s w); [exact Sa | exact Hnd]. }
  exists (dropAll (expiredNames now entries) entries).
  split; [exact Hdir'|].
  intros addr expiration Hin.
  assert (Hiff : In addr (expiredNames now entries) <-> expiration <= now).
  { unfold expiredNames. rewrite in_map_iff. split.
    - intros ([a node] & <- & Hf). apply filter_In in Hf as [Hf He].
      simpl in *.
      pose proof (In_lookupEntry _ _ _ Hnames Hf) as L1.
      pose proof (In_lookupEntry _ _ _ Hnames Hin) as L2.
      rewrite L1 in L2. injection L2 as ->.
      unfold isExpired in He. simpl in He. now apply Z.leb_le.
    - intros Hle. exists (addr, Regular (Marshalled expiration)).
      split; [reflexivity|]. apply filter_In. split; [exact Hin|].
      unfold isExpired. simpl. now apply Z.leb_le. }
  split.
  - intros Hle. apply Hiff in Hle. split.
    + now apply lookupEntry_dropAll_in.
    + intros Hw. apply Hwatch in Hw as [_ Hn]. auto.
  - intros Hlt. assert (Hn : ~ In addr (expiredNames now entries))
      by (rewrite Hiff; lia).
    split.
    + rewrite lookupEntry_dropAll_out by exact Hn.
      now apply In_lookupEntry.
    + rewrite Hwatch, (watched_frame s w w1 addr Sa). tauto.
Qed.

(** * Entries that are not regular files *)

Lemma quiet_nil name : quiet name [].
Proof. reflexivity. Qed.

Lemma quiet_app name a b : quiet name a -> quiet name b -> quiet name (a ++ b).
Proof. unfold quiet. intros Ha Hb. now rewrite forallb_app, Ha, Hb. Qed.

Lemma quiet_addressEvents name evs :
  forallb addressEvent evs = true -> quiet name evs.
Proof.
  unfold quiet. induction evs as [|e evs IH]; [reflexivity|]. simpl.
  intros H. apply andb_true_iff in H as [He H]. rewrite (IH H).
  destruct e; try discriminate; reflexivity.
Qed.

Lemma forget_dir name w all :
  timeoutPath w = DirOf all ->
  forget name w = setTimeoutPath (DirOf (dropEntry name all)) w.
Proof. unfold forget. now intros ->. Qed.

Lemma dropEntry_comm a b l : dropEntry a (dropEntry b l) = dropEntry b (dropEntry a l).
Proof.
  unfold dropEntry. induction l as [|[n x] l IH]; [reflexivity|]. simpl.
  destruct (String.eqb n b) eqn:Eb, (String.eqb n a) eqn:Ea; simpl;
    rewrite ?Ea, ?Eb; simpl; now rewrite IH.
Qed.

Lemma removeAddress_setTimeoutPath s addr p w :
  removeAddress s addr (setTimeoutPath p w) =
  (setTimeoutPath p (fst (removeAddress s addr w)), snd (removeAddress s addr w)).
Proof.
  rewrite !removeAddress_unfold.
  unfold hook, exec, readAddressFile, os_Open_address, os_WriteFile_address.
  unfold_go. unfold emit, setAddressPath, setTimeoutPath. simpl.
  destruct (String.eqb (DeleteCommand s) ""); simpl;
    [|destruct (commandOk w _ _); simpl; [|reflexivity]];
    (destruct (addressPath w) as [| |content]; simpl; try reflexivity;
     destruct (parseAddresses (AddressFile s) content) as [addrs|e]; simpl;
       [|reflexivity];
     destruct (Slices.Contains addrs addr); simpl; [|reflexivity];
     destruct (Slices.Index addrs addr); reflexivity).
Qed.

Lemma removeAddress_timeoutPath s addr w :
  timeoutPath (fst (removeAddress s addr w)) = timeoutPath w.
Proof.
  rewrite !removeAddress_unfold.
  unfold hook, exec, readAddressFile, os_Open_address, os_WriteFile_address.
  unfold_go. unfold emit, setAddressPath, setTimeoutPath. simpl.
  destruct (String.eqb (DeleteCommand s) ""); simpl;
    [|destruct (commandOk w _ _); simpl; [|reflexivity]];
    (destruct (addressPath w) as [| |content]; simpl; try reflexivity;
     destruct (parseAddresses (AddressFile s) content) as [addrs|e]; simpl;
       [|reflexivity];
     destruct (Slices.Contains addrs addr); simpl; [|reflexivity];
     destruct (Slices.Index addrs addr); reflexivity).
Qed.

Lemma removeAddress_events s addr w :
  exists evs, trace (fst (removeAddress s addr w)) = trace w ++ evs /\
              forallb addressEvent evs = true.
Proof.
  rewrite !removeAddress_unfold.
  unfold hook, exec, readAddressFile, os_Open_address, os_WriteFile_address.
  unfold_go. unfold emit, setAddressPath, setTimeoutPath. simpl.
  destruct (String.eqb (DeleteCommand s) ""); simpl;
    [|destruct (commandOk w _ _); simpl;
      [|exists [EvExec (DeleteCommand s) (DeleteArgs s ++ [addr])]; auto]];
    (destruct (addressPath w) as [| |content]; simpl;
     [rewrite <- ?app_assoc; eexists; split; [reflexivity|reflexivity]..|];
     destruct (parseAddresses (AddressFile s) content) as [addrs|e]; simpl;
       [|rewrite <- ?app_assoc; eexists; split; [reflexivity|reflexivity]];
     destruct (Slices.Contains addrs addr); simpl;
       [|rewrite <- ?app_assoc; eexists; split; [reflexivity|reflexivity]];
     destruct (Slices.Index addrs addr); simpl;
       rewrite <- ?app_assoc; eexists; split; reflexivity).
Qed.

Lemma removeAddress_forget s addr name w :
  removeAddress s addr (forget name w) =
  (forget name (fst (removeAddress s addr w)), snd (removeAddress s addr w)).
Proof.
  unfold forget at 1 2. rewrite removeAddress_timeoutPath.
  destruct (timeoutPath w); try (now destruct (removeAddress s addr w)).
  apply removeAddress_setTimeoutPath.
Qed.

Section Skip.

Variable s : Scanner.
Variable name : string.
Variable mode : FileMode.

Lemma collectExpired_sim all : forall entries acc w w' r,
  timeoutPath w = DirOf all ->
  lookupEntry name all = Some (NonRegular mode) ->
  (forall x, In (name, x) entries -> x = NonRegular mode) ->
  ~ In name acc ->
  collectExpired s entries acc w = (w', r) ->
  collectExpired s (dropEntry name entries) acc (forget name w)
    = (forget name w', r) /\
  timeoutPath w' = DirOf all /\
  (exists evs, trace w' = trace w ++ evs /\ quiet name evs) /\
  (forall L, r = Ok L -> ~ In name L).
Proof.
  induction entries as [|[addr node] rest IH]; intros acc w w' r Hdir Hname Hent Hacc.
  - cbn [collectExpired dropEntry List.filter]. unfold ret. intros [= <- <-].
    split; [reflexivity|]. split; [exact Hdir|]. split.
    + exists []. split; [now rewrite app_nil_r | apply quiet_nil].
    + intros L [= <-]. exact Hacc.
  - assert (Hrest : forall x, In (name, x) rest -> x = NonRegular mode)
      by (intros x H; apply Hent; now right).
    destruct (String.eqb addr name) eqn:E.
    + apply String.eqb_eq in E. subst addr.
      rewrite (Hent node) by now left.
      rewrite collectExpired_cons. cbn [IsRegular].
      unfold dropEntry. cbn [List.filter fst]. rewrite String.eqb_refl.
      cbn [negb]. now apply IH.
    + assert (Hne : name <> addr)
        by (intros ->; rewrite String.eqb_refl in E; discriminate).
      unfold dropEntry. cbn [List.filter fst]. rewrite E. cbn [negb].
      fold (dropEntry name rest). rewrite !collectExpired_cons.
      destruct node as [data|m]; cbn [IsRegular]; [|now apply IH].
      rewrite (forget_dir name w all Hdir).
      unfold os_ReadFile_timeout, time_Now. unfold_go. simpl.
      rewrite Hdir, (lookupEntry_dropEntry_ne name addr all Hne).
      destruct (lookupEntry addr all) as [[d|m]|]; simpl.
      2,3: intros [= <- <-]; rewrite (forget_dir name _ all) by exact Hdir;
           (split; [reflexivity|]); (split; [exact Hdir|]); split;
           [exists [EvReadFile addr]; split; [reflexivity|];
            unfold quiet; simpl; now rewrite E
           |discriminate].
      destruct d as [expiration|raw]; simpl.
      2: intros [= <- <-]; rewrite (forget_dir name _ all) by exact Hdir;
         (split; [reflexivity|]); (split; [exact Hdir|]); split;
         [exists [EvReadFile addr]; split; [reflexivity|];
          unfold quiet; simpl; now rewrite E
         |discriminate].
      destruct (0 <=? TimePkg.Compare (clock w (ticks w)) expiration).
      * intros H.
        apply IH in H as (H1 & H2 & (evs & H3 & H4) & H5); auto.
        -- rewrite (forget_dir name _ all) in H1 by exact Hdir.
           split; [exact H1|]. split; [exact H2|]. split; [|exact H5].
           exists (EvReadFile addr :: evs). simpl in H3.
           rewrite H3, <- app_assoc. split; [reflexivity|].
           unfold quiet in *. simpl. now rewrite E.
        -- intros Hin. apply in_app_or in Hin as [Hin|[->|[]]]; auto.
      * intros H.
        apply IH in H as (H1 & H2 & (evs & H3 & H4) & H5); auto.
        rewrite (forget_dir name _ all) in H1 by exact Hdir.
        split; [exact H1|]. split; [exact H2|]. split; [|exact H5].
        exists (EvReadFile addr
                :: EvLog (LogReaperActive addr (Marshalled expiration)) :: evs).
        simpl in H3. rewrite H3, <- !app_assoc. split; [reflexivity|].
        unfold quiet in *. simpl. now rewrite E.
Qed.

Lemma removeExpired_sim : forall expired w w' r all,
  timeoutPath w = DirOf all ->
  lookupEntry name all = Some (NonRegular mode) ->
  ~ In name expired ->
  removeExpired s expired w = (w', r) ->
  removeExpired s expired (forget name w) = (forget name w', r) /\
  (exists all', timeoutPath w' = DirOf all' /\
                lookupEntry name all' = Some (NonRegular mode)) /\
  (exists evs, trace w' = trace w ++ evs /\ quiet name evs).
Proof.
  induction expired as [|addr rest IH]; intros w w' r all Hdir Hname Hn.
  - cbn [removeExpired]. unfold ret. intros [= <- <-].
    split; [reflexivity|]. split; [eauto|].
    exists []. split; [now rewrite app_nil_r | apply quiet_nil].
  - assert (Hne : addr <> name) by (intros ->; apply Hn; now left).
    assert (Hrest : ~ In name rest) by (intros H; apply Hn; now right).
    rewrite !removeExpired_cons. unfold_go.
    rewrite removeAddress_forget.
    pose proof (removeAddress_timeoutPath s addr w) as Ht.
    destruct (removeAddress_events s addr w) as (ev1 & Et1 & Hq1).
    apply (quiet_addressEvents name) in Hq1.
    destruct (removeAddress s addr w) as [w1 [action|e]]; simpl in Ht, Et1.
    2:{ cbn [fst snd]. intros [= <- <-]. split; [reflexivity|].
        split; [rewrite Ht; eauto|]. eauto. }
    cbn [fst snd]. rewrite Hdir in Ht.
    rewrite (forget_dir name w1 all Ht).
    unfold deleteTimeoutFile, os_Remove_timeout. unfold_go. simpl.
    rewrite Ht, (lookupEntry_dropEntry_ne name addr all) by congruence.
    assert (Hq2 : quiet name (ev1 ++ [EvRemove addr])).
    { apply quiet_app; [exact Hq1|]. unfold quiet. simpl.
      apply String.eqb_neq in Hne. now rewrite Hne. }
    assert (Hstop : forall e0,
      (emit (EvRemove addr) w1, @Err unit e0) = (w', r) ->
      (setTimeoutPath (DirOf (dropEntry name all)) (emit (EvRemove addr) w1),
       @Err unit e0) = (forget name w', r) /\
      (exists all', timeoutPath w' = DirOf all' /\
                    lookupEntry name all' = Some (NonRegular mode)) /\
      (exists evs, trace w' = trace w ++ evs /\ quiet name evs)).
    { intros e0 [= <- <-]. rewrite (forget_dir name _ all) by exact Ht.
      split; [reflexivity|]. split; [eauto|].
      exists (ev1 ++ [EvRemove addr]). simpl.
      now rewrite Et1, <- app_assoc. }
    assert (Hgo : forall w0 : World,
      removeExpired s rest
        (emit (EvLog (LogReaperExpired addr action (AddressFile s)))
           (setTimeoutPath (DirOf (dropEntry addr all)) (emit (EvRemove addr) w1)))
        = (w', r) ->
      removeExpired s rest
        (emit (EvLog (LogReaperExpired addr action (AddressFile s)))
           (setTimeoutPath (DirOf (dropEntry addr (dropEntry name all)))
              (emit (EvRemove addr)
                 (setTimeoutPath (DirOf (dropEntry name all)) w1))))
        = (forget name w', r) /\
      (exists all', timeoutPath w' = DirOf all' /\
                    lookupEntry name all' = Some (NonRegular mode)) /\
      (exists evs, trace w' = trace w ++ evs /\ quiet name evs)).
    { intros _ H.
      apply IH with (all := dropEntry addr all) in H
        as (H1 & H2 & (evs & H3 & H4)); auto.
      2:{ rewrite lookupEntry_dropEntry_ne by exact Hne. exact Hname. }
      unfold forget in H1 at 1. simpl in H1.
      rewrite dropEntry_comm in H1.
      split; [exact H1|]. split; [exact H2|].
      exists ((ev1 ++ [EvRemove addr])
              ++ EvLog (LogReaperExpired addr action (AddressFile s)) :: evs).
      split.
      - simpl in H3. rewrite H3, Et1, <- !app_assoc. reflexivity.
      - apply quiet_app; [exact Hq2|]. unfold quiet in *. simpl. exact H4. }
    destruct (lookupEntry addr all) as [[d|m]|] eqn:El; simpl.
    + apply (Hgo w).
    + destruct m; simpl; try apply (Hgo w). apply Hstop.
    + apply Hstop.
Qed.

End Skip.

Lemma sweep_run s w entries :
  timeoutPath w = DirOf entries ->
  sweep s w =
  let '(w1, r1) := collectExpired s entries [] (emit EvReadDir w) in
  match r1 with
  | Ok expired => removeExpired s expired w1
  | Err e => (w1, Err e)
  end.
Proof.
  intros Hdir. rewrite sweep_unfold. unfold os_ReadDir. unfold_go.
  cbn [emit timeoutPath]. rewrite Hdir. reflexivity.
Qed.

(** Claim C10.  The reaper only considers regular files.  Whatever the name
    of an entry of the timeout directory that is not a regular file, and
    whatever the time, a sweep does what it does without that entry: the
    same outcome, the same final state but for the entry; the entry is
    still there afterwards; and no event of the sweep reads, writes or
    removes it. *)
Theorem reaper_skips_nonregular s w entries name mode :
  timeoutPath w = DirOf entries ->
  List.NoDup (names entries) ->
  In (name, NonRegular mode) entries ->
  let w' := fst (sweep s w) in
  sweep s (forget name w) = (forget name w', snd (sweep s w)) /\
  (exists entries', timeoutPath w' = DirOf entries' /\
                    lookupEntry name entries' = Some (NonRegular mode)) /\
  (exists evs, trace w' = trace w ++ evs /\ quiet name evs).
Proof.
  intros Hdir Hnames Hin. cbv zeta.
  pose proof (In_lookupEntry _ _ _ Hnames Hin) as Hlook.
  rewrite (sweep_run s w entries Hdir).
  rewrite (sweep_run s (forget name w) (dropEntry name entries))
    by (rewrite (forget_dir name w entries Hdir); reflexivity).
  destruct (collectExpired s entries [] (emit EvReadDir w)) as [w1 r1] eqn:E1.
  apply (collectExpired_sim s name mode entries) in E1
    as (S1 & D1 & (ev1 & T1 & Q1) & N1); auto.
  2:{ intros x Hx. apply (In_lookupEntry _ _ _ Hnames) in Hx. congruence. }
  rewrite (forget_dir name _ entries) in S1 by exact Hdir.
  rewrite (forget_dir name w entries Hdir).
  change (emit EvReadDir (setTimeoutPath (DirOf (dropEntry name entries)) w))
    with (setTimeoutPath (DirOf (dropEntry name entries)) (emit EvReadDir w)).
  rewrite S1.
  destruct r1 as [expired|e].
  - destruct (removeExpired s expired w1) as [w2 r2] eqn:E2.
    apply (removeExpired_sim s name mode expired w1 w2 r2 entries) in E2
      as (S2 & D2 & (ev2 & T2 & Q2)); auto.
    cbn [fst snd]. split; [exact S2|]. split; [exact D2|].
    exists (EvReadDir :: ev1 ++ ev2). split.
    + simpl in T1. rewrite T2, T1, <- !app_assoc. reflexivity.
    + apply (quiet_app name [EvReadDir]); [reflexivity|].
      now apply quiet_app.
  - cbn [fst snd]. split; [reflexivity|]. split; [eauto|].
    exists (EvReadDir :: ev1). split.
    + simpl in T1. rewrite T1, <- app_assoc. reflexivity.
    + apply (quiet_app name [EvReadDir]); [reflexivity|]. exact Q1.
Qed.

(** * The layout of the watchlist file *)

Lemma wellFormed_token a :
  wellFormed a -> notBlank a /\ ~ In newline (unstr a).
Proof.
  intros (Hne & Htrim & Hnl & _). split; [|exact Hnl].
  unfold notBlank, Strings.TrimSpace.
  rewrite StringsFacts.trimmed_fixed by exact Htrim.
  now rewrite string_of_list_ascii_of_string.
Qed.

Lemma layout_written l :
  l <> [] -> layout (Strings.Join l nl +:+ nl) l.
Proof.
  intros Hl. unfold layout. rewrite unstr_written.
  rewrite StringsFacts.join_newline_terminated by (destruct l; [congruence|discriminate]).
  now rewrite map_map.
Qed.

Lemma written_empty : Strings.Join [] nl +:+ nl = nl.
Proof. reflexivity. Qed.

(** Claim C6, as amended.  Over a watchlist without duplicates, a
    successful [addAddress] that writes the file, for an address that is
    not blank and has no newline, leaves a file with one address on each
    line, every line ended by a newline, no blank line and no duplicate,
    the new address last; a successful [removeAddress] that writes the file
    leaves the surviving addresses in their order, laid out in the same
    way, unless no address survives: the file is then a single newline. *)
Theorem watchlist_layout_preserved s w addr addrs :
  watchlist s w = Ok addrs -> List.NoDup addrs ->
  (forall w',
     addAddress s addr w = (w', Ok "added to"%string) ->
     notBlank addr -> ~ In newline (unstr addr) ->
     exists content,
       addressPath w' = FileOf content /\
       layout content (addrs ++ [addr]) /\ wellLaidOut content) /\
  (forall w',
     removeAddress s addr w = (w', Ok "deleted from"%string) ->
     exists content,
       addressPath w' = FileOf content /\
       (survivors addr addrs <> [] ->
        layout content (survivors addr addrs) /\ wellLaidOut content) /\
       (survivors addr addrs = [] -> content = nl)).
Proof.
  intros Hw Hnd.
  assert (Hwf : Forall wellFormed addrs).
  { unfold watchlist in Hw. destruct (addressPath w); try discriminate.
    eapply parseAddresses_wellFormed; eauto. }
  assert (Htok : Forall (fun a => notBlank a /\ ~ In newline (unstr a)) addrs).
  { eapply List.Forall_impl; [|exact Hwf]. apply wellFormed_token. }
  split; intros w'.
  - rewrite (addAddress_run s w addr addrs Hw), hook_run.
    assert (G : forall w0 : World,
      (let w2 := emit EvOpenAddressFile w0 in
       if Slices.Contains addrs addr then (w2, Ok "already present in"%string)
       else
         let content := Strings.Join (addrs ++ [addr]) nl +:+ nl in
         (setAddressPath (FileOf content) (emit (EvWriteAddressFile content) w2),
          Ok "added to"%string)) = (w', Ok "added to"%string) ->
      notBlank addr -> ~ In newline (unstr addr) ->
      exists content, addressPath w' = FileOf content /\
        layout content (addrs ++ [addr]) /\ wellLaidOut content).
    { intros w0. cbv zeta.
      destruct (Slices.Contains addrs addr) eqn:Hc; [discriminate|].
      intros [= <-] Hb Hn. eexists. split; [reflexivity|].
      assert (L : layout (Strings.Join (addrs ++ [addr]) nl +:+ nl) (addrs ++ [addr]))
        by (apply layout_written; destruct addrs; discriminate).
      split; [exact L|]. exists (addrs ++ [addr]). split; [exact L|]. split.
      - apply List.Forall_app. split; [exact Htok|]. constructor; auto.
      - apply SlicesFacts.Contains_not_In in Hc.
        apply List.NoDup_app; [exact Hnd | repeat constructor; auto |].
        intros a Ha [->|[]]. auto. }
    destruct (String.eqb (AddCommand s) ""); [apply G|].
    destruct (commandOk w _ _); [apply G | discriminate].
  - rewrite (removeAddress_run s w addr addrs Hw), hook_run.
    assert (G : forall w0 : World,
      (let w2 := emit EvOpenAddressFile w0 in
       if Slices.Contains addrs addr then
         let content := Strings.Join (removeFirst addr addrs) nl +:+ nl in
         (setAddressPath (FileOf content) (emit (EvWriteAddressFile content) w2),
          Ok "deleted from"%string)
       else (w2, Ok "not present in"%string)) = (w', Ok "deleted from"%string) ->
      exists content, addressPath w' = FileOf content /\
        (survivors addr addrs <> [] ->
         layout content (survivors addr addrs) /\ wellLaidOut content) /\
        (survivors addr addrs = [] -> content = nl)).
    { intros w0. cbv zeta.
      destruct (Slices.Contains addrs addr) eqn:Hc; [|discriminate].
      intros [= <-]. eexists. split; [reflexivity|].
      rewrite (SlicesFacts.removeFirst_filter addr addrs Hnd).
      fold (survivors addr addrs). split.
      - intros Hne.
        assert (L : layout (Strings.Join (survivors addr addrs) nl +:+ nl)
                           (survivors addr addrs))
          by now apply layout_written.
        split; [exact L|]. exists (survivors addr addrs).
        split; [exact L|]. split.
        + apply List.Forall_forall. intros a Ha.
          apply filter_In in Ha as [Ha _].
          rewrite List.Forall_forall in Htok. now apply Htok.
        + now apply List.NoDup_filter.
      - intros ->. reflexivity. }
    destruct (String.eqb (DeleteCommand s) ""); [apply G|].
    destruct (commandOk w _ _); [apply G | discriminate].
Qed.

(** A file made of one newline has a blank line. *)
Lemma not_wellLaidOut_nl : ~ wellLaidOut nl.
Proof.
  intros (addrs & L & Htok & _). unfold layout in L.
  destruct addrs as [|a rest].
  - discriminate.
  - inversion Htok as [|? ? [Hb _] _]; subst.
    destruct a as [|c a].
    + apply Hb. reflexivity.
    + simpl in L. injection L as _ L. destruct (unstr a); discriminate.
Qed.

(** Claim C6 as stated fails: removing the only address of the watchlist
    succeeds, writes the file, and leaves a single empty line. *)
Lemma watchlist_layout_blank_line :
  let w := demoWorld oneAddress [] 0 in
  let w' := fst (removeAddress demoScanner "1.2.3.4" w) in
  watchlist demoScanner w = Ok ["1.2.3.4"%string] /\
  snd (removeAddress demoScanner "1.2.3.4" w) = Ok "deleted from"%string /\
  addressPath w' = FileOf nl /\
  ~ wellLaidOut nl.
Proof.
  split; [vm_compute; reflexivity|].
  split; [vm_compute; reflexivity|].
  split; [vm_compute; reflexivity|].
  exact not_wellLaidOut_nl.
Qed.

(** * Reading the watchlist at startup *)

Lemma scanAddresses_cons file acc raw rest :
  scanAddresses file acc (raw :: rest) =
  if Bufio.fits raw then
    if negb (String.eqb (lineText raw) "") then
      if Regexp.MatchString IP_PATTERN (lineText raw)
      then scanAddresses file (acc ++ [lineText raw]) rest
      else Err (UnexpectedAddress (lineText raw) file)
    else scanAddresses file acc rest
  else Err (Errorf ("failed reading address file '" +:+ file +:+ "'") ErrTooLong).
Proof. reflexivity. Qed.

Lemma scanAddresses_accepts file lines : forall acc,
  Forall (fun raw => Bufio.fits raw = true /\
                     (lineText raw = ""%string \/
                      Regexp.MatchString IP_PATTERN (lineText raw) = true)) lines ->
  scanAddresses file acc lines = Ok (acc ++ kept lines).
Proof.
  induction lines as [|raw rest IH]; intros acc H.
  - simpl. now rewrite app_nil_r.
  - inversion H as [|? ? [Hfit Hline] Hrest]; subst.
    rewrite scanAddresses_cons, Hfit. unfold kept. cbn [map List.filter].
    destruct (String.eqb (lineText raw) "") eqn:E; cbn [negb].
    + now apply IH.
    + destruct Hline as [Hl|Hm]; [apply String.eqb_neq in E; congruence|].
      rewrite Hm, IH by exact Hrest. unfold kept. now rewrite <- app_assoc.
Qed.

Lemma scanAddresses_offending file lines : forall acc raw,
  In raw lines -> offending raw = true ->
  exists e,
    scanAddresses file acc lines = Err e /\
    (Forall (fun l => Bufio.fits l = true) lines ->
     exists bad, In bad lines /\ offending bad = true /\
                 e = UnexpectedAddress (lineText bad) file).
Proof.
  induction lines as [|l rest IH]; intros acc raw Hin Hoff; [destruct Hin|].
  rewrite scanAddresses_cons.
  destruct (Bufio.fits l) eqn:Hfit.
  2:{ eexists. split; [reflexivity|]. intros H. inversion H; congruence. }
  destruct (offending l) eqn:Hl.
  - pose proof Hl as Hl'. unfold offending in Hl'.
    apply andb_true_iff in Hl' as [H1 H2]. rewrite H1.
    apply negb_true_iff in H2. rewrite H2.
    eexists. split; [reflexivity|]. intros _. exists l.
    split; [now left|]. auto.
  - destruct Hin as [->|Hin]; [congruence|].
    assert (G : forall acc', exists e,
      scanAddresses file acc' rest = Err e /\
      (Forall (fun l => Bufio.fits l = true) (l :: rest) ->
       exists bad, In bad (l :: rest) /\ offending bad = true /\
                   e = UnexpectedAddress (lineText bad) file)).
    { intros acc'. destruct (IH acc' raw Hin Hoff) as (e & He & Hbad).
      exists e. split; [exact He|]. intros H. inversion H; subst.
      destruct Hbad as (bad & Hb & Ho & ->); auto.
      exists bad. split; [now right|]. auto. }
    unfold offending in Hl.
    destruct (negb (String.eqb (lineText l) "")); [|apply G].
    simpl in Hl. apply negb_false_iff in Hl. rewrite Hl. apply G.
Qed.

Section ConstructionFacts.

Variable ParseDuration : string -> option Duration.
Variable Compile : string -> option Pattern.

Lemma NewScanner_run cfg logFile addressFile timeoutDir patterns w
    timeout interval compiled content :
  ParseDuration (timeout_seconds cfg +:+ "s") = Some timeout ->
  ParseDuration (interval_seconds cfg +:+ "s") = Some interval ->
  compileAll Compile patterns [] = Ok compiled ->
  addressPath w = FileOf content ->
  NewScanner ParseDuration Compile cfg logFile addressFile timeoutDir patterns w =
  let s := mkScanner logFile addressFile timeoutDir timeout interval compiled
             (hd ""%string (Strings.Split (add_command cfg) " "%char))
             (tl (Strings.Split (add_command cfg) " "%char))
             (hd ""%string (Strings.Split (delete_command cfg) " "%char))
             (tl (Strings.Split (delete_command cfg) " "%char))
             (verbose_flag cfg) in
  let '(w1, r1) := (if negb (IsDir w) then os_Mkdir timeoutDir else ret tt) w in
  match r1 with
  | Err e => (w1, Err e)
  | Ok _ =>
      match parseAddresses addressFile content with
      | Err e => (emit EvOpenAddressFile w1, Err e)
      | Ok addrs => (run reconcile s addrs; ret s) (emit EvOpenAddressFile w1)
      end
  end.
Proof.
  intros Ht Hi Hc Hp. unfold NewScanner. rewrite Ht, Hi, Hc.
  unfold_go. cbn [fst snd].
  assert (Hm : addressPath
            (fst ((if negb (IsDir w) then os_Mkdir timeoutDir else (fun w => (w, Ok tt))) w))
          = FileOf content).
  { destruct (IsDir w); simpl; [exact Hp|].
    unfold os_Mkdir. unfold_go. simpl.
    destruct (timeoutPath w); exact Hp. }
  destruct ((if negb (IsDir w) then os_Mkdir timeoutDir else (fun w => (w, Ok tt))) w)
    as [w1 [[]|e]]; [|reflexivity].
  simpl in Hm. unfold IsFile_address. rewrite Hm. cbn [negb].
  rewrite readAddressFile_run. unfold watchlist. rewrite Hm. simpl.
  destruct (parseAddresses addressFile content); reflexivity.
Qed.

(** Claim C7.  Construction fails on a corrupt watchlist.  When the
    watchlist file holds a line that is not blank and does not have the
    address shape, [NewScanner] returns an error and no scanner, and the
    file is left as it was; when the configuration is valid, the timeout
    directory is or can be created, and every line fits the buffer of the
    line scanner, the error is the one that names an offending line. *)
Theorem corrupt_watchlist_fails_construction cfg logFile addressFile timeoutDir patterns
    w content raw :
  addressPath w = FileOf content ->
  In raw (fileLines content) -> offending raw = true ->
  exists w' e,
    NewScanner ParseDuration Compile cfg logFile addressFile timeoutDir patterns w
      = (w', Err e) /\
    addressPath w' = FileOf content /\
    (forall timeout interval compiled,
       ParseDuration (timeout_seconds cfg +:+ "s") = Some timeout ->
       ParseDuration (interval_seconds cfg +:+ "s") = Some interval ->
       compileAll Compile patterns [] = Ok compiled ->
       timeoutPath w <> DirBlocked ->
       Forall (fun l => Bufio.fits l = true) (fileLines content) ->
       exists bad, In bad (fileLines content) /\ offending bad = true /\
                   e = UnexpectedAddress (lineText bad) addressFile).
Proof.
  intros Hp Hin Hoff.
  destruct (ParseDuration (timeout_seconds cfg +:+ "s")) as [timeout|] eqn:Ht.
  2:{ unfold NewScanner. rewrite Ht. unfold fail.
      do 2 eexists. split; [reflexivity|]. split; [exact Hp|]. discriminate. }
  destruct (ParseDuration (interval_seconds cfg +:+ "s")) as [interval|] eqn:Hi.
  2:{ unfold NewScanner. rewrite Ht, Hi. unfold fail.
      do 2 eexists. split; [reflexivity|]. split; [exact Hp|]. discriminate. }
  destruct (compileAll Compile patterns []) as [compiled|e0] eqn:Hc.
  2:{ unfold NewScanner. rewrite Ht, Hi, Hc. unfold_go.
      do 2 eexists. split; [reflexivity|]. split; [exact Hp|]. discriminate. }
  rewrite (NewScanner_run cfg logFile addressFile timeoutDir patterns w
             timeout interval compiled content Ht Hi Hc Hp).
  cbv zeta.
  destruct (scanAddresses_offending addressFile (fileLines content) [] raw Hin Hoff)
    as (e & He & Hbad).
  unfold IsDir, os_Mkdir. unfold_go.
  destruct (timeoutPath w) as [| |entries] eqn:Hd; cbn [negb emit timeoutPath].
  - rewrite Hd. unfold parseAddresses. fold (fileLines content). rewrite He.
    do 2 eexists. split; [reflexivity|]. split; [exact Hp|].
    intros ? ? ? _ _ _ _. exact Hbad.
  - rewrite Hd. do 2 eexists. split; [reflexivity|]. split; [exact Hp|].
    intros ? ? ? _ _ _ H. congruence.
  - unfold parseAddresses. fold (fileLines content). rewrite He.
    do 2 eexists. split; [reflexivity|]. split; [exact Hp|].
    intros ? ? ? _ _ _ _. exact Hbad.
Qed.

(** Claim C9.  The address shape is a substring match without range
    check: a line matches [IP_PATTERN] exactly when it contains, anywhere,
    four runs of one to three digits separated by dots.  A watchlist file
    whose lines are blank or contain such a substring is read without
    error into the list of its trimmed non-blank lines, each kept whole,
    and construction goes on with these addresses. *)
Theorem address_shape_substring_match cfg logFile addressFile timeoutDir
    patterns w content :
  addressPath w = FileOf content ->
  Forall (fun raw => Bufio.fits raw = true /\
                     (lineText raw = ""%string \/
                      containsDottedQuad (lineText raw))) (fileLines content) ->
  (forall line,
     Regexp.MatchString IP_PATTERN line = true <-> containsDottedQuad line) /\
  (forall s, AddressFile s = addressFile ->
     snd (readAddressFile s w) = Ok (kept (fileLines content))) /\
  (forall timeout interval compiled,
     ParseDuration (timeout_seconds cfg +:+ "s") = Some timeout ->
     ParseDuration (interval_seconds cfg +:+ "s") = Some interval ->
     compileAll Compile patterns [] = Ok compiled ->
     IsDir w = true ->
     let s := mkScanner logFile addressFile timeoutDir timeout interval compiled
                (hd ""%string (Strings.Split (add_command cfg) " "%char))
                (tl (Strings.Split (add_command cfg) " "%char))
                (hd ""%string (Strings.Split (delete_command cfg) " "%char))
                (tl (Strings.Split (delete_command cfg) " "%char))
                (verbose_flag cfg) in
     NewScanner ParseDuration Compile cfg logFile addressFile timeoutDir patterns w
     = (run reconcile s (kept (fileLines content)); ret s)
         (emit EvOpenAddressFile w)).
Proof.
  intros Hp Hlines.
  assert (Hparse : parseAddresses addressFile content = Ok (kept (fileLines content))).
  { unfold parseAddresses. fold (fileLines content).
    rewrite scanAddresses_accepts; [reflexivity|].
    eapply List.Forall_impl; [|exact Hlines].
    intros l [Hf [Hl|Hq]]; (split; [exact Hf|]); [now left|right].
    now apply IPFacts.IP_MatchString. }
  split; [apply IPFacts.IP_MatchString|]. split.
  - intros s <-. rewrite readAddressFile_run. unfold watchlist.
    now rewrite Hp.
  - intros timeout interval compiled Ht Hi Hc Hd.
    rewrite (NewScanner_run cfg logFile addressFile timeoutDir patterns w
               timeout interval compiled content Ht Hi Hc Hp).
    cbv zeta. rewrite Hd, Hparse. reflexivity.
Qed.

End ConstructionFacts.

Module CoordinatorFacts.
Import Coordinator.

(** * The shutdown coordinator *)

Lemma key_marker k : key k <> marker.
Proof. destruct k; discriminate. Qed.

Lemma runtime_eta r :
  mkRuntime (tail r) (active r) (reaperStop r) (scannerStop r) (handlerStop r)
            (shutdownLock r) (done r) = r.
Proof. now destruct r. Qed.

Lemma shutdown_marked caller r :
  is_Some (active r !! marker) -> shutdownLock r = false ->
  shutdown caller r = Finished r.
Proof.
  intros [v Hv] Hl. unfold shutdown. rewrite Hl. cbn [setLock active].
  rewrite Hv. destruct r. simpl in *. now subst.
Qed.

Lemma notify_Finished k r r' :
  notify k r = Finished r' ->
  tail r' = tail r /\ active r' = active r /\ shutdownLock r' = shutdownLock r /\
  done r' = done r ++ match active r !! key k with
                      | Some _ => [Send k]
                      | None => []
                      end.
Proof.
  unfold notify. destruct (active r !! key k).
  - destruct (closed (stopChan k r)); [discriminate|].
    destruct (queued (stopChan k r) <? capacity)%nat; [|discriminate].
    intros [= <-]. destruct k; auto.
  - intros [= <-]. now rewrite app_nil_r.
Qed.

Lemma stopTail_spec r :
  tail (stopTail r) = None /\ active (stopTail r) = active r /\
  shutdownLock (stopTail r) = shutdownLock r /\
  reaperStop (stopTail r) = reaperStop r /\
  scannerStop (stopTail r) = scannerStop r /\
  handlerStop (stopTail r) = handlerStop r /\
  done (stopTail r) = done r ++ match tail r with
                                | Some cmd => match Process cmd with
                                              | Some _ => [Kill; WaitTail]
                                              | None => []
                                              end
                                | None => []
                                end.
Proof.
  unfold stopTail. destruct (tail r) as [cmd|] eqn:E.
  - destruct (Process cmd); simpl; rewrite ?app_nil_r; auto 10.
  - rewrite app_nil_r. auto 10.
Qed.

Lemma shutdown_first caller r r' :
  active r !! marker = None -> shutdown caller r = Finished r' ->
  active r' = <[marker := VString caller]> (active r) /\
  tail r' = None /\ shutdownLock r' = false /\
  done r' = done r ++ teardownActions r.
Proof.
  intros Hm. unfold shutdown. destruct (shutdownLock r); [discriminate|].
  cbn [setLock active]. rewrite Hm.
  set (r0 := stopTail _).
  destruct (stopTail_spec (setActive (<[marker:=VString caller]> (active r))
              (setLock true r))) as (T0 & A0 & _ & _ & _ & _ & D0).
  fold r0 in T0, A0, D0. cbn [setActive setLock tail active done] in A0, D0.
  destruct (notify Reaper r0) as [r1| |] eqn:E1; try discriminate.
  apply notify_Finished in E1 as (T1 & A1 & _ & D1).
  cbn [andThen].
  destruct (notify Tailer r1) as [r2| |] eqn:E2; try discriminate.
  apply notify_Finished in E2 as (T2 & A2 & _ & D2).
  cbn [andThen].
  destruct (notify Handler r2) as [r3| |] eqn:E3; try discriminate.
  apply notify_Finished in E3 as (T3 & A3 & _ & D3).
  cbn [unlocking]. intros [= <-]. cbn [setLock active tail shutdownLock done].
  split; [congruence|]. split; [congruence|]. split; [reflexivity|].
  rewrite D3, D2, D1, D0, A2, A1, A0.
  rewrite !lookup_insert_ne by (apply not_eq_sym, key_marker).
  unfold teardownActions. cbn [flat_map]. rewrite app_nil_r, <- !app_assoc.
  reflexivity.
Qed.

Lemma calls_marked later : forall r,
  is_Some (active r !! marker) -> shutdownLock r = false ->
  calls later r = Finished r.
Proof.
  induction later as [|c rest IH]; intros r Hm Hl; [reflexivity|].
  cbn [calls]. rewrite shutdown_marked by assumption. cbn [andThen].
  now apply IH.
Qed.

(** ** Interleaved invocations *)

Lemma lookup_update {A} (l : list A) i j x y z :
  l !! i = Some x -> <[i:=y]> l !! j = Some z ->
  (j = i /\ z = y) \/ (j <> i /\ l !! j = Some z).
Proof.
  intros Hi Hj. destruct (decide (j = i)) as [->|Hne].
  - left. split; [reflexivity|].
    rewrite list_lookup_insert_eq in Hj by (eapply lookup_lt_Some; eauto).
    congruence.
  - right. split; [exact Hne|].
    now rewrite list_lookup_insert_ne in Hj by congruence.
Qed.

Lemma allowed_order pc : sublist (allowed pc) teardownOrder.
Proof.
  unfold teardownOrder.
  destruct pc as [| | | |[]| |]; simpl; try reflexivity.
  - apply sublist_nil_l.
  - do 2 apply sublist_skip. apply sublist_nil_l.
  - do 3 apply sublist_skip. apply sublist_nil_l.
  - do 4 apply sublist_skip. apply sublist_nil_l.
Qed.

Lemma Inv_initial : Inv 0 initial.
Proof.
  split; simpl; try (intros i; intros; now rewrite lookup_nil in *).
  - apply sublist_nil_l.
  - intros _. repeat split. intros i c pc H. now rewrite lookup_nil in H.
  - intros [v Hv]. now rewrite lookup_empty in Hv.
Qed.

(** A step of the workers or of [Stop] changes neither the marker, the
    lock nor the actions done. *)
Lemma envStep_frame a r r' :
  envStep a r = Some r' ->
  active r' !! marker = active r !! marker /\
  shutdownLock r' = shutdownLock r /\ done r' = done r.
Proof.
  destruct a as [k|k|cmd|k|k]; simpl.
  - intros [= <-]. simpl. split; [|auto].
    apply lookup_insert_ne, key_marker.
  - intros [= <-]. simpl. split; [|auto].
    apply lookup_delete_ne, key_marker.
  - intros [= <-]. auto.
  - destruct (queued (stopChan k r)); [destruct (closed (stopChan k r))|];
      try discriminate; intros [= <-]; destruct k; auto.
  - destruct (closed (stopChan k r)); [discriminate|].
    intros [= <-]. destruct k; auto.
Qed.

Lemma Inv_env n s r' :
  Inv n s ->
  active r' !! marker = active (shared s) !! marker ->
  shutdownLock r' = shutdownLock (shared s) -> done r' = done (shared s) ->
  Inv n (mkSystem r' (threads s)).
Proof.
  intros [I1 I2 I3 I4 I5] Ha Hl Hd.
  split; simpl; rewrite ?Ha, ?Hl, ?Hd; auto.
Qed.

Lemma Inv_call n s caller :
  Inv n s -> Inv n (mkSystem (shared s) (threads s ++ [(caller, AwaitLock)])).
Proof.
  intros [I1 I2 I3 I4 I5].
  assert (L : forall i c pc,
    (threads s ++ [(caller, AwaitLock)]) !! i = Some (c, pc) ->
    threads s !! i = Some (c, pc) \/ pc = AwaitLock).
  { intros i c pc H. apply lookup_app_Some in H as [H|[_ H]]; [now left|].
    right. apply list_lookup_singleton_Some in H as [_ [= _ <-]]. reflexivity. }
  split; simpl.
  - intros i c pc H Hc. apply L in H as [H| ->]; [eauto | discriminate].
  - intros i j c d pc qc Hi Hj Hc Hd.
    assert (Hi' : threads s !! i = Some (c, pc)).
    { apply lookup_app_Some in Hi as [H|[_ H]]; [exact H|].
      apply list_lookup_singleton_Some in H as [_ [= _ <-]]. discriminate. }
    assert (Hj' : threads s !! j = Some (d, qc)).
    { apply lookup_app_Some in Hj as [H|[_ H]]; [exact H|].
      apply list_lookup_singleton_Some in H as [_ [= _ <-]]. discriminate. }
    eauto.
  - exact I3.
  - intros Hm. destruct (I4 Hm) as (H1 & H2 & H3). repeat split; auto.
    intros i c pc H. apply L in H as [H| ->]; [eauto | reflexivity].
  - intros Hm. destruct (I5 Hm) as (H1 & H2). split; auto.
    intros i c pc H. apply L in H as [H| ->]; [eauto|].
    split; [discriminate | exact I3].
Qed.

(** The lock discipline when the thread [i] moves from [pc] to [pc']. *)
Lemma lock_step n s i caller pc pc' r' :
  Inv n s -> threads s !! i = Some (caller, pc) ->
  (critical pc' = true -> shutdownLock r' = true) ->
  (critical pc = false -> critical pc' = true ->
   shutdownLock (shared s) = false) ->
  (critical pc = true \/ critical pc' = true) ->
  let s' := mkSystem r' (<[i := (caller, pc')]> (threads s)) in
  (forall j c qc, threads s' !! j = Some (c, qc) -> critical qc = true ->
                  shutdownLock (shared s') = true) /\
  (forall j k c d qc qd,
     threads s' !! j = Some (c, qc) -> threads s' !! k = Some (d, qd) ->
     critical qc = true -> critical qd = true -> j = k).
Proof.
  intros [I1 I2 _ _ _] Hi Hin Hfree Hmoves. simpl.
  assert (Hother : forall j c qc,
    <[i:=(caller, pc')]> (threads s) !! j = Some (c, qc) ->
    critical qc = true -> j = i /\ critical pc' = true).
  { intros j c qc Hj Hc.
    destruct (lookup_update _ _ _ _ _ _ Hi Hj) as [[-> [= -> ->]]|[Hne Hj']].
    - auto.
    - exfalso. destruct (critical pc) eqn:Ecp.
      + apply Hne. eapply I2; eauto.
      + destruct (critical pc') eqn:Ecp'.
        * pose proof (I1 _ _ _ Hj' Hc). rewrite Hfree in H; auto. discriminate.
        * destruct Hmoves; discriminate. }
  split.
  - intros j c qc Hj Hc. apply Hin. eapply Hother; eauto.
  - intros j k c d qc qd Hj Hk Hc Hd.
    destruct (Hother _ _ _ Hj Hc) as [-> _].
    destruct (Hother _ _ _ Hk Hd) as [-> _]. reflexivity.
Qed.

Lemma others_outside n s i j c d pc qc :
  Inv n s -> threads s !! i = Some (c, pc) -> critical pc = true ->
  j <> i -> threads s !! j = Some (d, qc) ->
  qc <> StoreMarker /\ allowed qc = teardownOrder.
Proof.
  intros [_ I2 _ _ _] Hi Hc Hne Hj.
  destruct (critical qc) eqn:E.
  - exfalso. apply Hne. eapply I2; eauto.
  - destruct qc as [| | | |[]| |]; try discriminate; split; auto; discriminate.
Qed.

Lemma sublist_snoc (l1 l2 : list Action) x y :
  sublist l1 l2 -> sublist y [x] -> sublist (l1 ++ y) (l2 ++ [x]).
Proof. intros H1 H2. now apply sublist_app. Qed.

(** One statement of an invocation keeps the invariant; the count grows
    when the statement stores the marker. *)
Lemma Inv_thread n s i caller pc pc' r' :
  Inv n s -> threads s !! i = Some (caller, pc) ->
  threadStep caller pc (shared s) = Some (pc', r') ->
  Inv (n + counts (Step i pc))
      (mkSystem r' (<[i := (caller, pc')]> (threads s))).
Proof.
  intros HI Hi Hstep. pose proof HI as [I1 I2 I3 I4 I5].
  destruct pc; cbn [threadStep counts] in *; rewrite ?Nat.add_0_r.
  - (* AwaitLock *)
    destruct (shutdownLock (shared s)) eqn:Hl; [discriminate|].
    injection Hstep as <- <-.
    destruct (lock_step n s i caller AwaitLock LoadMarker (setLock true (shared s))
                HI Hi) as [L1 L2];
      [reflexivity | intros _ _; exact Hl | now right |].
    split; cbn [shared threads setLock active done shutdownLock] in *; auto.
    + intros Hm. destruct (I4 Hm) as (? & ? & Hpcs). repeat split; auto.
      intros j c0 qc Hj.
      destruct (lookup_update _ _ _ _ _ _ Hi Hj) as [[-> [= -> ->]]|[Hne Hj']];
        eauto.
    + intros Hm. destruct (I5 Hm) as (? & Hpcs). split; auto.
      intros j c0 qc Hj.
      destruct (lookup_update _ _ _ _ _ _ Hi Hj) as [[-> [= -> ->]]|[Hne Hj']];
        [split; [discriminate | exact I3] | eauto].
  - (* LoadMarker *)
    destruct (active (shared s) !! marker) as [v|] eqn:Hm;
      injection Hstep as <- <-.
    + destruct (lock_step n s i caller LoadMarker Unlock (shared s) HI Hi)
        as [L1 L2];
        [intros _; eapply I1; eauto | discriminate | now left |].
      split; cbn [shared threads] in *; auto.
      * rewrite Hm. discriminate.
      * intros _. destruct (I5 (ex_intro _ v eq_refl)) as (? & Hpcs). split; auto.
        intros j c0 qc Hj.
        destruct (lookup_update _ _ _ _ _ _ Hi Hj) as [[-> [= -> ->]]|[Hne Hj']];
          [split; [discriminate | exact I3] | eauto].
    + destruct (lock_step n s i caller LoadMarker StoreMarker (shared s) HI Hi)
        as [L1 L2];
        [intros _; eapply I1; eauto | discriminate | now left |].
      split; cbn [shared threads] in *; auto.
      * intros _. destruct (I4 eq_refl) as (? & ? & Hpcs). repeat split; auto.
        intros j c0 qc Hj.
        destruct (lookup_update _ _ _ _ _ _ Hi Hj) as [[-> [= -> ->]]|[Hne Hj']];
          eauto.
      * rewrite Hm. intros [v Hv]. discriminate.
  - (* StoreMarker *)
    injection Hstep as <- <-.
    destruct (active (shared s) !! marker) as [v|] eqn:Hm.
    { destruct (I5 (ex_intro _ v eq_refl)) as (_ & Hpcs).
      destruct (Hpcs _ _ _ Hi) as [Hne _]. congruence. }
    destruct (I4 eq_refl) as (-> & Hd & Hpcs).
    destruct (lock_step 0 s i caller StoreMarker StopTail
                (setActive (<[marker:=VString caller]> (active (shared s))) (shared s))
                HI Hi) as [L1 L2];
      [intros _; eapply I1; eauto | discriminate | now left |].
    split; cbn [shared threads setActive active done shutdownLock] in *; auto.
    + rewrite lookup_insert_eq. discriminate.
    + intros _. split; [reflexivity|].
      intros j c0 qc Hj. rewrite Hd.
      destruct (lookup_update _ _ _ _ _ _ Hi Hj) as [[-> [= -> ->]]|[Hne Hj']].
      * split; [discriminate | apply sublist_nil_l].
      * split; [|apply sublist_nil_l].
        apply (others_outside 0 s i j caller c0 StoreMarker qc HI Hi eq_refl Hne Hj').
  - (* StopTail *)
    injection Hstep as <- <-.
    destruct (active (shared s) !! marker) as [v|] eqn:Hm.
    2:{ destruct (I4 eq_refl) as (_ & _ & Hpcs).
        specialize (Hpcs _ _ _ Hi). discriminate. }
    destruct (I5 (ex_intro _ v eq_refl)) as (Hn & Hpcs).
    destruct (Hpcs _ _ _ Hi) as [_ Hsub]. cbn [allowed] in Hsub.
    apply sublist_nil_r in Hsub.
    destruct (stopTail_spec (shared s)) as (_ & Ha & Hl & _ & _ & _ & Hd).
    rewrite Hsub in Hd. cbn [app] in Hd.
    assert (Hdone : sublist (done (stopTail (shared s))) [Kill; WaitTail]).
    { rewrite Hd. destruct (tail (shared s)) as [cmd|];
        [destruct (Process cmd)|]; try apply sublist_nil_l. reflexivity. }
    destruct (lock_step n s i caller StopTail (Notify Reaper) (stopTail (shared s))
                HI Hi) as [L1 L2];
      [intros _; rewrite Hl; eapply I1; eauto | discriminate | now left |].
    split; cbn [shared threads] in *; auto.
    + etransitivity; [exact Hdone|]. apply (allowed_order (Notify Reaper)).
    + rewrite Ha, Hm. discriminate.
    + intros _. split; [exact Hn|].
      intros j c0 qc Hj.
      destruct (lookup_update _ _ _ _ _ _ Hi Hj) as [[-> [= -> ->]]|[Hne Hj']].
      * split; [discriminate | exact Hdone].
      * destruct (others_outside n s i j caller c0 StopTail qc HI Hi eq_refl Hne Hj')
          as [H1 H2].
        split; [exact H1|]. rewrite H2.
        etransitivity; [exact Hdone|]. apply (allowed_order (Notify Reaper)).
  - (* Notify *)
    destruct (notify k (shared s)) as [r1| |] eqn:En; try discriminate.
    injection Hstep as <- <-.
    destruct (active (shared s) !! marker) as [v|] eqn:Hm.
    2:{ destruct (I4 eq_refl) as (_ & _ & Hpcs).
        specialize (Hpcs _ _ _ Hi). discriminate. }
    destruct (I5 (ex_intro _ v eq_refl)) as (Hn & Hpcs).
    destruct (Hpcs _ _ _ Hi) as [_ Hsub].
    apply notify_Finished in En as (_ & Ha & Hl & Hd).
    set (next := match k with
                 | Reaper => Notify Tailer
                 | Tailer => Notify Handler
                 | Handler => Unlock
                 end).
    assert (Hdone : sublist (done r1) (allowed next)).
    { rewrite Hd.
      assert (Hy : sublist (match active (shared s) !! key k with
                            | Some _ => [Send k]
                            | None => []
                            end) [Send k])
        by (destruct (active (shared s) !! key k);
            [reflexivity | apply sublist_nil_l]).
      destruct k; apply (sublist_snoc _ _ _ _ Hsub Hy). }
    destruct (lock_step n s i caller (Notify k) next r1 HI Hi) as [L1 L2];
      [intros _; rewrite Hl; eapply I1; eauto | discriminate | now left |].
    split; cbn [shared threads] in *; auto.
    + etransitivity; [exact Hdone|]. apply allowed_order.
    + rewrite Ha, Hm. discriminate.
    + intros _. split; [exact Hn|].
      intros j c0 qc Hj.
      destruct (lookup_update _ _ _ _ _ _ Hi Hj) as [[-> [= -> ->]]|[Hne Hj']].
      * split; [destruct k; discriminate | exact Hdone].
      * destruct (others_outside n s i j caller c0 (Notify k) qc HI Hi eq_refl Hne Hj')
          as [H1 H2].
        split; [exact H1|]. rewrite H2.
        etransitivity; [exact Hdone|]. apply allowed_order.
  - (* Unlock *)
    injection Hstep as <- <-.
    destruct (lock_step n s i caller Unlock Exit (setLock false (shared s)) HI Hi)
      as [L1 L2]; [discriminate | discriminate | now left |].
    split; cbn [shared threads setLock active done shutdownLock] in *; auto.
    + intros Hm. destruct (I4 Hm) as (_ & _ & Hpcs).
      specialize (Hpcs _ _ _ Hi). discriminate.
    + intros Hm. destruct (I5 Hm) as (? & Hpcs). split; auto.
      intros j c0 qc Hj.
      destruct (lookup_update _ _ _ _ _ _ Hi Hj) as [[-> [= -> ->]]|[Hne Hj']];
        [split; [discriminate | exact I3] | eauto].
  - discriminate.
Qed.

Lemma Inv_step n s l s' :
  Inv n s -> step l s = Some s' -> Inv (n + counts l) s'.
Proof.
  intros HI. destruct l as [caller|i pc|a]; cbn [step].
  - intros [= <-]. cbn [counts]. rewrite Nat.add_0_r. now apply Inv_call.
  - destruct (threads s !! i) as [[caller pc0]|] eqn:Hi; [|discriminate].
    destruct (decide (pc0 = pc)) as [->|]; [|discriminate].
    destruct (threadStep caller pc (shared s)) as [[pc' r']|] eqn:Hs;
      [|discriminate].
    intros [= <-]. eapply Inv_thread; eauto.
  - destruct (envStep a (shared s)) as [r'|] eqn:He; [|discriminate].
    intros [= <-]. cbn [counts]. rewrite Nat.add_0_r.
    apply envStep_frame in He as (Ha & Hl & Hd). now apply Inv_env.
Qed.

Lemma teardowns_cons l ls :
  teardowns (l :: ls) = (counts l + teardowns ls)%nat.
Proof.
  unfold teardowns. cbn [List.filter].
  destruct l as [c|i pc|a]; try reflexivity. destruct pc; reflexivity.
Qed.

Lemma Inv_execute ls : forall n s s',
  Inv n s -> execute ls s = Some s' -> Inv (n + teardowns ls) s'.
Proof.
  induction ls as [|l ls IH]; intros n s s' HI.
  - cbn [execute]. intros [= <-]. unfold teardowns. simpl.
    now rewrite Nat.add_0_r.
  - cbn [execute]. destruct (step l s) as [s1|] eqn:Hs; [|discriminate].
    intros He. rewrite teardowns_cons, Nat.add_assoc.
    eapply IH; [|exact He]. eapply Inv_step; eauto.
Qed.

Lemma step_own caller pc pc' r r' ths :
  threadStep caller pc r = Some (pc', r') ->
  step (Step (length ths) pc) (mkSystem r (ths ++ [(caller, pc)]))
  = Some (mkSystem r' (ths ++ [(caller, pc')])).
Proof.
  intros H. cbn [step shared threads]. rewrite list_lookup_middle by reflexivity.
  rewrite decide_True by reflexivity. rewrite H.
  rewrite insert_app_r_alt by reflexivity. rewrite Nat.sub_diag. reflexivity.
Qed.

Lemma shutdown_uninterrupted caller r r' ths :
  shutdown caller r = Finished r' ->
  execute (uninterrupted (length ths) (bool_decide (active r !! marker = None)))
          (mkSystem r (ths ++ [(caller, AwaitLock)]))
  = Some (mkSystem r' (ths ++ [(caller, Exit)])).
Proof.
  unfold shutdown. destruct (shutdownLock r) eqn:Hl; [discriminate|].
  cbn [setLock active].
  destruct (active r !! marker) as [v|] eqn:Hm.
  - cbn [unlocking]. intros [= <-].
    rewrite bool_decide_false by discriminate. cbn [uninterrupted map execute].
    rewrite (step_own caller AwaitLock LoadMarker r (setLock true r))
      by (cbn [threadStep]; now rewrite Hl).
    rewrite (step_own caller LoadMarker Unlock (setLock true r) (setLock true r))
      by (cbn [threadStep setLock active]; now rewrite Hm).
    rewrite (step_own caller Unlock Exit (setLock true r)
               (setLock false (setLock true r))) by reflexivity.
    reflexivity.
  - rewrite bool_decide_true by reflexivity. cbn [uninterrupted map execute].
    set (r1 := setActive _ _). set (r2 := stopTail r1).
    destruct (notify Reaper r2) as [r3| |] eqn:E3; try discriminate.
    cbn [andThen].
    destruct (notify Tailer r3) as [r4| |] eqn:E4; try discriminate.
    cbn [andThen].
    destruct (notify Handler r4) as [r5| |] eqn:E5; try discriminate.
    cbn [unlocking]. intros [= <-].
    rewrite (step_own caller AwaitLock LoadMarker r (setLock true r))
      by (cbn [threadStep]; now rewrite Hl).
    rewrite (step_own caller LoadMarker StoreMarker (setLock true r) (setLock true r))
      by (cbn [threadStep setLock active]; now rewrite Hm).
    rewrite (step_own caller StoreMarker StopTail (setLock true r) r1)
      by reflexivity.
    rewrite (step_own caller StopTail (Notify Reaper) r1 r2) by reflexivity.
    rewrite (step_own caller (Notify Reaper) (Notify Tailer) r2 r3)
      by (cbn [threadStep]; now rewrite E3).
    rewrite (step_own caller (Notify Tailer) (Notify Handler) r3 r4)
      by (cbn [threadStep]; now rewrite E4).
    rewrite (step_own caller (Notify Handler) Unlock r4 r5)
      by (cbn [threadStep]; now rewrite E5).
    rewrite (step_own caller Unlock Exit r5 (setLock false r5)) by reflexivity.
    reflexivity.
Qed.

(** Claim C1.  Shutdown is idempotent.  The first invocation, by any caller,
    stores the marker under the key "shutdown" and performs the teardown:
    kill and wait for the tail process if one is registered, then one stop
    notification for each worker still marked active.  Every later
    invocation finds the marker and returns with the state as it was: no
    kill, no notification.  Whatever the interleaving of the invocations
    with each other, with the workers and with [Stop], the body goes past the
    marker check at most once, exactly once when an invocation has returned,
    and what has been done to the outside is never more than one teardown.
    The statement-by-statement run of one invocation alone is the function
    [shutdown]. *)
Theorem shutdown_teardown_once :
  (forall caller r r',
     active r !! marker = None -> shutdown caller r = Finished r' ->
     active r' !! marker = Some (VString caller) /\ tail r' = None /\
     done r' = done r ++ teardownActions r /\
     forall later, calls later r' = Finished r') /\
  (forall caller r,
     is_Some (active r !! marker) -> shutdownLock r = false ->
     shutdown caller r = Finished r) /\
  (forall ls s,
     execute ls initial = Some s ->
     (teardowns ls <= 1)%nat /\
     sublist (done (shared s)) teardownOrder /\
     forall i caller,
       threads s !! i = Some (caller, Exit) -> teardowns ls = 1%nat) /\
  (forall caller r r' ths,
     shutdown caller r = Finished r' ->
     execute (uninterrupted (length ths)
                (bool_decide (active r !! marker = None)))
             (mkSystem r (ths ++ [(caller, AwaitLock)]))
     = Some (mkSystem r' (ths ++ [(caller, Exit)]))).
Proof.
  split; [|split; [|split]].
  - intros caller r r' Hm Hs.
    destruct (shutdown_first caller r r' Hm Hs) as (Ha & Ht & Hl & Hd).
    assert (Hmk : active r' !! marker = Some (VString caller))
      by (rewrite Ha; apply lookup_insert_eq).
    split; [exact Hmk|]. split; [exact Ht|]. split; [exact Hd|].
    intros later. apply calls_marked; [|exact Hl]. rewrite Hmk. eauto.
  - apply shutdown_marked.
  - intros ls s He.
    pose proof (Inv_execute ls 0 initial s Inv_initial He) as [_ _ I3 I4 I5].
    cbn [Nat.add] in *.
    destruct (active (shared s) !! marker) as [v|] eqn:Hm.
    + destruct (I5 (ex_intro _ v eq_refl)) as [Hn _].
      split; [lia|]. split; [exact I3|]. intros _ _ _. exact Hn.
    + destruct (I4 eq_refl) as (Hn & _ & Hpcs).
      split; [lia|]. split; [exact I3|].
      intros i caller Hi. specialize (Hpcs _ _ _ Hi). discriminate.
  - apply shutdown_uninterrupted.
Qed.

End CoordinatorFacts.

(** * The statements at sample states *)

Lemma NoDup_one (a : string) : List.NoDup [a].
Proof. constructor; [intros [] | constructor]. Qed.

Lemma NoDup_two (a b : string) : a <> b -> List.NoDup [a; b].
Proof.
  intros H. constructor; [|apply NoDup_one]. intros [E|[]]. now apply H.
Qed.

Lemma shutdown_teardown_once_witness :
  Coordinator.shutdown "handler" busy = Coordinator.Finished stopped /\
  Coordinator.done stopped = Coordinator.teardownOrder /\
  Coordinator.calls ["scanner"; "stop"; "reaper"]%string stopped
  = Coordinator.Finished stopped /\
  Coordinator.shutdown "stop" stopped = Coordinator.Finished stopped /\
  Coordinator.teardowns twoCalls = 1%nat.
Proof.
  assert (E : Coordinator.shutdown "handler" busy = Coordinator.Finished stopped)
    by (vm_compute; reflexivity).
  destruct CoordinatorFacts.shutdown_teardown_once as (Hfirst & Hlater & Hany & _).
  destruct (Hfirst "handler"%string busy stopped eq_refl E) as (_ & _ & _ & Hcalls).
  split; [exact E|]. split; [reflexivity|]. split; [apply Hcalls|].
  split.
  - apply Hlater; [|reflexivity]. exists (Coordinator.VString "handler").
    vm_compute. reflexivity.
  - assert (Hrun : exists s,
      Coordinator.execute twoCalls Coordinator.initial = Some s /\
      Coordinator.threads s !! 0%nat = Some ("reaper"%string, Coordinator.Exit)).
    { eexists. split; vm_compute; reflexivity. }
    destruct Hrun as (s & Hs & Hexit).
    destruct (Hany twoCalls s Hs) as (_ & _ & Hone).
    exact (Hone 0%nat "reaper"%string Hexit).
Defined.

Lemma reaper_expiry_boundary_witness :
  let w := demoWorld twoAddresses twoRecords 100 in
  let w' := fst (sweep demoScanner w) in
  ~ watched demoScanner w' "10.0.0.5" /\
  (watched demoScanner w' "10.0.0.6" <-> watched demoScanner w "10.0.0.6").
Proof.
  intros w w'.
  assert (Hnd : noDuplicates demoScanner w).
  { intros addrs H. vm_compute in H. injection H as <-.
    apply NoDup_two. discriminate. }
  assert (Hnames : List.NoDup (names twoRecords))
    by (apply NoDup_two; discriminate).
  assert (Hrun : sweep demoScanner w = (w', Ok tt)) by (vm_compute; reflexivity).
  destruct (reaper_expiry_boundary demoScanner w 100 twoRecords w'
              (fun _ => eq_refl) eq_refl Hnames Hnd Hrun)
    as (entries' & _ & Hall).
  split.
  - apply (Hall "10.0.0.5"%string 100); [now left | lia].
  - apply (Hall "10.0.0.6"%string 101); [right; now left | lia].
Defined.

Lemma scanner_applies_every_pattern_witness :
  let w := demoWorld "" [] 100 in
  let w' := fst (forPatterns demoScanner [fromPattern; rootPattern] authLine w) in
  exists evs,
    trace w' = trace w ++ evs /\
    refreshed evs = ["10.0.0.5"; "10.0.0.5"]%string /\
    reported evs = ["10.0.0.5"; "10.0.0.5"]%string.
Proof.
  intros w w'.
  assert (Hrun : forPatterns demoScanner [fromPattern; rootPattern] authLine w
                 = (w', Ok tt)) by (vm_compute; reflexivity).
  exact (proj2 (proj2 (scanner_applies_every_pattern demoScanner authLine)
                  [fromPattern; rootPattern]) w w' Hrun).
Defined.

Lemma rematch_refreshes_record_only_witness :
  let w := demoWorld oneAddress [("1.2.3.4"%string, Regular (Marshalled 50))] 100 in
  let w' := fst (onMatch demoScanner "1.2.3.4" w) in
  addressPath w' = addressPath w /\
  watchlist demoScanner w' = Ok ["1.2.3.4"%string] /\
  (exists entries',
     timeoutPath w' = DirOf entries' /\
     lookupEntry "1.2.3.4" entries'
     = Some (Regular (Marshalled (100 + 5 * TimePkg.second)))) /\
  snd (addAddress demoScanner "1.2.3.4" w) = Ok "already present in"%string.
Proof.
  intros w w'.
  assert (Hw : watchlist demoScanner w = Ok ["1.2.3.4"%string])
    by (vm_compute; reflexivity).
  assert (Hwrite : writeTimeoutFile demoScanner "1.2.3.4" w
                   = (fst (writeTimeoutFile demoScanner "1.2.3.4" w), Ok tt))
    by (vm_compute; reflexivity).
  destruct (rematch_refreshes_record_only demoScanner w "1.2.3.4" ["1.2.3.4"%string]
              Hw (or_introl eq_refl)) as ((Hp & Hl & _) & _ & Hfresh & _ & Hadd).
  split; [exact Hp|]. split; [exact Hl|]. split; [exact (Hfresh _ Hwrite)|].
  destruct (Hadd w (or_introl eq_refl) Hw) as [Hr _]. now rewrite Hr.
Defined.

Lemma add_hook_failure_keeps_record_witness :
  let w := failing (demoWorld "" [] 100) in
  let w1 := fst (writeTimeoutFile hookedScanner "10.0.0.5" w) in
  let args := ["-t"; "watch"; "-T"; "add"; "10.0.0.5"]%string in
  let e := Errorf "scanner: addAddress" (ExitError "pfctl" args) in
  onMatch hookedScanner "10.0.0.5" w = (emit (EvExec "pfctl" args) w1, Err e) /\
  addressPath (emit (EvExec "pfctl" args) w1) = addressPath w /\
  scannerLoop hookedScanner true true [StdoutLine authLine; StdoutClosed] w
  = (emit (EvExec "pfctl" args) w1, Err e).
Proof.
  intros w w1 args e.
  assert (Hw : writeTimeoutFile hookedScanner "10.0.0.5" w = (w1, Ok tt))
    by (vm_compute; reflexivity).
  assert (Hc : AddCommand hookedScanner <> ""%string) by discriminate.
  destruct (add_hook_failure_keeps_record hookedScanner w "10.0.0.5" w1 Hw Hc eq_refl)
    as (Hrun & _ & Hp & _ & Hworker).
  split; [exact Hrun|]. split; [exact Hp|].
  assert (Hbare : Forall (noMatch authLine) [barePattern]).
  { constructor; [|constructor]. unfold noMatch. vm_compute. lia. }
  destruct (Hworker [barePattern] fromPattern [rootPattern] authLine
              "from 10.0.0.5"%string [] Hbare eq_refl) as [_ Hloop].
  exact (Hloop eq_refl true [StdoutClosed]).
Defined.

Lemma watchlist_layout_preserved_witness :
  (exists content,
     addressPath (fst (addAddress demoScanner "5.6.7.8" (demoWorld oneAddress [] 0)))
     = FileOf content /\
     layout content ["1.2.3.4"; "5.6.7.8"]%string /\ wellLaidOut content) /\
  (exists content,
     addressPath (fst (removeAddress demoScanner "10.0.0.5"
                         (demoWorld twoAddresses [] 0)))
     = FileOf content /\
     layout content ["10.0.0.6"]%string /\ wellLaidOut content).
Proof.
  split.
  - set (w := demoWorld oneAddress [] 0).
    assert (Hw : watchlist demoScanner w = Ok ["1.2.3.4"%string])
      by (vm_compute; reflexivity).
    assert (Hrun : addAddress demoScanner "5.6.7.8" w
                   = (fst (addAddress demoScanner "5.6.7.8" w), Ok "added to"%string))
      by (vm_compute; reflexivity).
    assert (Hb : notBlank "5.6.7.8") by (vm_compute; discriminate).
    assert (Hn : ~ In newline (unstr "5.6.7.8"))
      by (vm_compute; intuition discriminate).
    exact (proj1 (watchlist_layout_preserved demoScanner w "5.6.7.8"
                    ["1.2.3.4"%string] Hw (NoDup_one _)) _ Hrun Hb Hn).
  - set (w := demoWorld twoAddresses [] 0).
    assert (Hw : watchlist demoScanner w = Ok ["10.0.0.5"; "10.0.0.6"]%string)
      by (vm_compute; reflexivity).
    assert (Hnd : List.NoDup ["10.0.0.5"; "10.0.0.6"]%string)
      by (apply NoDup_two; discriminate).
    assert (Hrun : removeAddress demoScanner "10.0.0.5" w
                   = (fst (removeAddress demoScanner "10.0.0.5" w),
                      Ok "deleted from"%string))
      by (vm_compute; reflexivity).
    destruct (proj2 (watchlist_layout_preserved demoScanner w "10.0.0.5"
                       ["10.0.0.5"; "10.0.0.6"]%string Hw Hnd) _ Hrun)
      as (content & Hp & Hsome & _).
    exists content. split; [exact Hp|]. apply Hsome. discriminate.
Defined.

Lemma corrupt_watchlist_fails_construction_witness :
  let w := demoWorld corruptAddresses [] 100 in
  exists w' e,
    NewScanner demoParseDuration demoCompile demoConfig
      "/var/log/authlog" "/etc/iplsd/addrs" "/var/iplsd/timeout" [] w
    = (w', Err e) /\
    addressPath w' = FileOf corruptAddresses /\
    exists bad, offending bad = true /\
                e = UnexpectedAddress (lineText bad) "/etc/iplsd/addrs".
Proof.
  intros w.
  assert (Hin : In (unstr "not-an-ip") (fileLines corruptAddresses))
    by (vm_compute; right; left; reflexivity).
  assert (Hoff : offending (unstr "not-an-ip") = true) by (vm_compute; reflexivity).
  destruct (corrupt_watchlist_fails_construction demoParseDuration demoCompile
              demoConfig "/var/log/authlog" "/etc/iplsd/addrs" "/var/iplsd/timeout"
              [] w corruptAddresses (unstr "not-an-ip") eq_refl Hin Hoff)
    as (w' & e & Hrun & Hp & Hname).
  exists w', e. split; [exact Hrun|]. split; [exact Hp|].
  destruct (Hname (5 * TimePkg.second) TimePkg.second [] eq_refl eq_refl eq_refl)
    as (bad & _ & Hb & He).
  - discriminate.
  - vm_compute. repeat constructor.
  - exists bad. split; [exact Hb | exact He].
Defined.

Lemma remove_absent_is_noop_witness :
  let w := demoWorld oneAddress [] 0 in
  snd (removeAddress demoScanner "5.6.7.8" w) = Ok "not present in"%string /\
  addressPath (fst (removeAddress demoScanner "5.6.7.8" w)) = FileOf oneAddress.
Proof.
  intros w.
  assert (Hw : watchlist demoScanner w = Ok ["1.2.3.4"%string])
    by (vm_compute; reflexivity).
  assert (Hn : ~ In "5.6.7.8"%string ["1.2.3.4"%string])
    by (intros [H|[]]; discriminate).
  destruct (remove_absent_is_noop demoScanner w "5.6.7.8" ["1.2.3.4"%string] Hw Hn)
    as (_ & Hp & Hr).
  split; [apply Hr; now left | exact Hp].
Defined.

Lemma address_shape_substring_match_witness :
  let w := demoWorld oddAddresses [] 100 in
  snd (readAddressFile demoScanner w)
  = Ok ["999.999.999.999"; "prefix 1.2.3.4 suffix"]%string /\
  exists s,
    snd (NewScanner demoParseDuration demoCompile demoConfig
           "/var/log/authlog" "/etc/iplsd/addrs" "/var/iplsd/timeout" [] w)
    = Ok s.
Proof.
  intros w.
  assert (Hlines : Forall (fun raw => Bufio.fits raw = true /\
                     (lineText raw = ""%string \/
                      containsDottedQuad (lineText raw))) (fileLines oddAddresses)).
  { assert (E : fileLines oddAddresses
                = [unstr "999.999.999.999"; unstr " prefix 1.2.3.4 suffix"])
      by (vm_compute; reflexivity).
    rewrite E.
    assert (Hline : forall raw,
      Bufio.fits raw = true ->
      Regexp.MatchString IP_PATTERN (lineText raw) = true ->
      Bufio.fits raw = true /\
      (lineText raw = ""%string \/ containsDottedQuad (lineText raw))).
    { intros raw Hf Hm. split; [exact Hf|]. right.
      now apply IPFacts.IP_MatchString. }
    constructor; [apply Hline; vm_compute; reflexivity|].
    constructor; [apply Hline; vm_compute; reflexivity|].
    constructor. }
  destruct (address_shape_substring_match demoParseDuration demoCompile demoConfig
              "/var/log/authlog" "/etc/iplsd/addrs" "/var/iplsd/timeout" []
              w oddAddresses eq_refl Hlines) as (_ & Hread & Hnew).
  split.
  - rewrite (Hread demoScanner eq_refl). vm_compute. reflexivity.
  - rewrite (Hnew (5 * TimePkg.second) TimePkg.second [] eq_refl eq_refl eq_refl
               eq_refl).
    eexists. vm_compute. reflexivity.
Defined.

Lemma reaper_skips_nonregular_witness :
  let w := demoWorld oneAddress withSubdirectory 100 in
  let w' := fst (sweep demoScanner w) in
  sweep demoScanner (forget "lost+found" w)
  = (forget "lost+found" w', snd (sweep demoScanner w)) /\
  (exists entries', timeoutPath w' = DirOf entries' /\
                    lookupEntry "lost+found" entries' = Some (NonRegular ModeDir)) /\
  exists evs, trace w' = trace w ++ evs /\ quiet "lost+found" evs.
Proof.
  intros w w'.
  assert (Hnames : List.NoDup (names withSubdirectory))
    by (apply NoDup_two; discriminate).
  exact (reaper_skips_nonregular demoScanner w withSubdirectory "lost+found" ModeDir
           eq_refl Hnames (or_intror (or_introl eq_refl))).
Defined.

(** * The two stores, operation by operation *)

Lemma hookOk_run s command args w :
  hookOk w command args -> hook s command args w =
  (if String.eqb command "" then w else emit (EvExec command args) w, Ok tt).
Proof.
  intros H. rewrite hook_run. destruct (String.eqb command "") eqn:E; [reflexivity|].
  destruct H as [H | H]; [now subst | now rewrite H].
Qed.

Lemma watchlist_wellFormed s w addrs :
  watchlist s w = Ok addrs -> Forall wellFormed addrs.
Proof.
  unfold watchlist. destruct (addressPath w); try discriminate.
  apply parseAddresses_wellFormed.
Qed.

Lemma watchlist_written s w content l :
  Forall wellFormed l -> content = (Strings.Join l nl +:+ nl)%string ->
  addressPath w = FileOf content -> watchlist s w = Ok l.
Proof.
  intros Hl -> Hp. unfold watchlist. rewrite Hp. now apply parse_written.
Qed.

(** An address that is not listed yet, its hook permitting: the run of
    [addAddress]. *)
Lemma addAddress_run_absent s w addr addrs :
  watchlist s w = Ok addrs -> ~ In addr addrs ->
  hookOk w (AddCommand s) (AddArgs s ++ [addr]) ->
  let content := (Strings.Join (addrs ++ [addr]) nl +:+ nl)%string in
  let w0 := if String.eqb (AddCommand s) "" then w
            else emit (EvExec (AddCommand s) (AddArgs s ++ [addr])) w in
  addAddress s addr w =
  (setAddressPath (FileOf content)
     (emit (EvWriteAddressFile content) (emit EvOpenAddressFile w0)),
   Ok "added to"%string).
Proof.
  intros Hw Hn Hh. rewrite (addAddress_run s w addr addrs Hw).
  rewrite (hookOk_run _ _ _ _ Hh).
  apply SlicesFacts.Contains_not_In in Hn. now rewrite Hn.
Qed.

(** An address that is listed, its hook permitting: the run of
    [removeAddress]. *)
Lemma removeAddress_run_present s w addr addrs :
  watchlist s w = Ok addrs -> In addr addrs ->
  hookOk w (DeleteCommand s) (DeleteArgs s ++ [addr]) ->
  let content := (Strings.Join (removeFirst addr addrs) nl +:+ nl)%string in
  let w0 := if String.eqb (DeleteCommand s) "" then w
            else emit (EvExec (DeleteCommand s) (DeleteArgs s ++ [addr])) w in
  removeAddress s addr w =
  (setAddressPath (FileOf content)
     (emit (EvWriteAddressFile content) (emit EvOpenAddressFile w0)),
   Ok "deleted from"%string).
Proof.
  intros Hw Hin Hh. rewrite (removeAddress_run s w addr addrs Hw).
  rewrite (hookOk_run _ _ _ _ Hh).
  apply SlicesFacts.Contains_In in Hin. now rewrite Hin.
Qed.


Lemma count_occ_removeFirst x l a :
  In x l ->
  count_occ String.string_dec l a =
  (count_occ String.string_dec (removeFirst x l) a
   + if String.eqb a x then 1 else 0)%nat.
Proof.
  induction l as [|y l IH]; [intros []|]. intros Hin. cbn [removeFirst].
  destruct (String.eqb y x) eqn:E.
  - apply String.eqb_eq in E. subst y. cbn [count_occ].
    destruct (String.string_dec x a) as [->|Hne].
    + rewrite String.eqb_refl. lia.
    + apply not_eq_sym, String.eqb_neq in Hne. rewrite Hne. lia.
  - destruct Hin as [->|Hin]; [rewrite String.eqb_refl in E; discriminate|].
    cbn [count_occ]. specialize (IH Hin).
    destruct (String.string_dec y a); lia.
Qed.

(** Property X1.  Read after write.  When an address that is not on the
    watchlist, and that reads back as itself, is added with its hook
    permitting, [addAddress] returns "added to", and the list that
    [readAddressFile] returns afterwards is the former list with the new
    address at its end; the timeout directory is not touched. *)
Theorem added_address_is_read_back s w addr addrs :
  watchlist s w = Ok addrs -> ~ In addr addrs -> wellFormed addr ->
  hookOk w (AddCommand s) (AddArgs s ++ [addr]) ->
  exists w',
    addAddress s addr w = (w', Ok "added to"%string) /\
    watchlist s w' = Ok (addrs ++ [addr]) /\
    fst (readAddressFile s w') = emit EvOpenAddressFile w' /\
    snd (readAddressFile s w') = Ok (addrs ++ [addr]) /\
    timeoutPath w' = timeoutPath w.
Proof.
  intros Hw Hn Hwf Hh. eexists. split.
  - apply (addAddress_run_absent s w addr addrs Hw Hn Hh).
  - assert (Hl : watchlist s
       (setAddressPath (FileOf (Strings.Join (addrs ++ [addr]) nl +:+ nl))
          (emit (EvWriteAddressFile (Strings.Join (addrs ++ [addr]) nl +:+ nl))
             (emit EvOpenAddressFile
                (if String.eqb (AddCommand s) "" then w
                 else emit (EvExec (AddCommand s) (AddArgs s ++ [addr])) w))))
       = Ok (addrs ++ [addr])).
    { eapply watchlist_written; [|reflexivity|reflexivity].
      apply List.Forall_app. split; [|now constructor].
      eapply watchlist_wellFormed; eauto. }
    rewrite readAddressFile_run. cbn [fst snd]. rewrite Hl.
    repeat split. destruct (String.eqb (AddCommand s) ""); reflexivity.
Qed.


(** Property X3.  Removal takes one occurrence.  [removeAddress] deletes
    the first line that holds the address and no other: every address
    keeps its number of occurrences, but for the removed one, which loses
    exactly one; an address listed twice is therefore still on the
    watchlist after its removal. *)
Theorem remove_drops_first_occurrence s w addr addrs :
  watchlist s w = Ok addrs -> In addr addrs ->
  hookOk w (DeleteCommand s) (DeleteArgs s ++ [addr]) ->
  exists w' addrs',
    removeAddress s addr w = (w', Ok "deleted from"%string) /\
    watchlist s w' = Ok addrs' /\
    addrs' = removeFirst addr addrs /\
    (forall a,
       count_occ String.string_dec addrs a =
       (count_occ String.string_dec addrs' a + if String.eqb a addr then 1 else 0)%nat) /\
    (watched s w' addr <-> (2 <= count_occ String.string_dec addrs addr)%nat).
Proof.
  intros Hw Hin Hh.
  pose proof (watchlist_wellFormed s w addrs Hw) as Hall.
  eexists. exists (removeFirst addr addrs). split.
  { apply (removeAddress_run_present s w addr addrs Hw Hin Hh). }
  set (w' := setAddressPath _ _).
  assert (Hw' : watchlist s w' = Ok (removeFirst addr addrs)).
  { eapply watchlist_written; [|reflexivity|reflexivity].
    now apply wellFormed_removeFirst. }
  split; [exact Hw'|]. split; [reflexivity|].
  split; [intros a; now apply count_occ_removeFirst|].
  pose proof (count_occ_removeFirst addr addrs addr Hin) as Hc.
  rewrite String.eqb_refl in Hc.
  unfold watched. rewrite Hw'. split.
  - intros (l & [= <-] & Hl).
    apply (count_occ_In String.string_dec) in Hl. lia.
  - intros H. exists (removeFirst addr addrs). split; [reflexivity|].
    apply (count_occ_In String.string_dec). lia.
Qed.

Lemma scanAddresses_app file l1 : forall acc l2,
  scanAddresses file acc (l1 ++ l2) =
  match scanAddresses file acc l1 with
  | Ok a => scanAddresses file a l2
  | Err e => Err e
  end.
Proof.
  induction l1 as [|raw l1 IH]; intros acc l2; [reflexivity|].
  cbn [app]. rewrite !scanAddresses_cons.
  destruct (Bufio.fits raw); [|reflexivity].
  destruct (negb _); [|apply IH].
  destruct (Regexp.MatchString _ _); [apply IH | reflexivity].
Qed.

Lemma lineText_trimmed a : trimmed (unstr a) -> lineText (unstr a) = a.
Proof.
  intros Ht. unfold lineText.
  rewrite BufioFacts.dropCR_trimmed by exact Ht.
  unfold Strings.TrimSpace. rewrite list_ascii_of_string_of_list_ascii.
  rewrite StringsFacts.trimmed_fixed by exact Ht.
  apply string_of_list_ascii_of_string.
Qed.

(** Property X4.  The address is not checked before it is written.
    [addAddress] appends whatever the pattern captured: when the captured
    text does not have the address shape, the call still returns "added
    to", and the file it leaves is one that [readAddressFile] refuses, with
    the error that names this text; the next [addAddress] and the next
    [removeAddress] then fail on it, whatever their address, and write
    nothing. *)
Theorem unchecked_address_corrupts_watchlist s w addr addrs :
  watchlist s w = Ok addrs -> ~ In addr addrs ->
  hookOk w (AddCommand s) (AddArgs s ++ [addr]) ->
  addr <> ""%string -> trimmed (unstr addr) -> ~ In newline (unstr addr) ->
  Bufio.fits (unstr addr) = true ->
  Regexp.MatchString IP_PATTERN addr = false ->
  exists w',
    addAddress s addr w = (w', Ok "added to"%string) /\
    watchlist s w' = Err (UnexpectedAddress addr (AddressFile s)) /\
    forall other,
      hookOk w' (AddCommand s) (AddArgs s ++ [other]) ->
      hookOk w' (DeleteCommand s) (DeleteArgs s ++ [other]) ->
      snd (addAddress s other w') = Err (UnexpectedAddress addr (AddressFile s)) /\
      snd (removeAddress s other w') = Err (UnexpectedAddress addr (AddressFile s)) /\
      addressPath (fst (addAddress s other w')) = addressPath w' /\
      addressPath (fst (removeAddress s other w')) = addressPath w'.
Proof.
  intros Hw Hn Hh Hne Ht Hnl Hfit Hm.
  pose proof (watchlist_wellFormed s w addrs Hw) as Hall.
  eexists. split.
  { apply (addAddress_run_absent s w addr addrs Hw Hn Hh). }
  set (w' := setAddressPath _ _).
  assert (Hw' : watchlist s w' = Err (UnexpectedAddress addr (AddressFile s))).
  { unfold watchlist. subst w'. cbn [addressPath setAddressPath].
    unfold parseAddresses. rewrite unstr_written.
    rewrite StringsFacts.join_newline_terminated by (destruct addrs; discriminate).
    rewrite BufioFacts.rawLines_terminated.
    2:{ apply List.Forall_map, List.Forall_app. split.
        - eapply List.Forall_impl; [|exact Hall]. intros a Ha. apply Ha.
        - now constructor. }
    rewrite map_app, scanAddresses_app.
    rewrite (scanAddresses_roundtrip _ _ Hall).
    cbn [map]. rewrite scanAddresses_cons, Hfit, (lineText_trimmed _ Ht).
    apply String.eqb_neq in Hne. rewrite Hne. cbn [negb]. now rewrite Hm. }
  split; [exact Hw'|].
  intros other Ha Hd.
  rewrite addAddress_unfold, removeAddress_unfold. unfold bind.
  rewrite (hookOk_run _ _ _ _ Ha), (hookOk_run _ _ _ _ Hd).
  rewrite !readAddressFile_run.
  destruct (String.eqb (AddCommand s) ""), (String.eqb (DeleteCommand s) "");
    rewrite ?watchlist_emit, Hw'; repeat split.
Qed.

(** A run of the hook at the head of some events, and nowhere else. *)
Lemma hook_then s command args (k : M string) w :
  (forall w0, exists evs,
      trace (fst (k w0)) = trace w0 ++ evs /\
      forallb (fun e => negb (isExec e)) evs = true) ->
  command <> ""%string ->
  exists evs,
    trace (fst ((run hook s command args; k) w)) =
      trace w ++ EvExec command args :: evs /\
    forallb (fun e => negb (isExec e)) evs = true /\
    (commandOk w command args = false ->
     (run hook s command args; k) w =
       (emit (EvExec command args) w, Err (ExitError command args))).
Proof.
  intros Hk Hc. unfold bind. rewrite hook_run.
  apply String.eqb_neq in Hc. rewrite Hc.
  destruct (commandOk w command args).
  - destruct (Hk (emit (EvExec command args) w)) as (evs & He & Hf).
    exists evs. split; [|split; [exact Hf | discriminate]].
    rewrite He. cbn [trace emit]. now rewrite <- app_assoc.
  - exists []. cbn [fst trace emit]. auto.
Qed.

(** Property X5.  The hooks run on every call.  When a command is
    configured, [addAddress] and [removeAddress] run it once, with the
    configured arguments followed by the address, before they open the
    watchlist file and whether or not the address is listed; when the
    command fails, the call returns its error without having opened the
    file. *)
Theorem hook_runs_once_and_first s w addr :
  (AddCommand s <> ""%string ->
   exists evs,
     trace (fst (addAddress s addr w)) =
       trace w ++ EvExec (AddCommand s) (AddArgs s ++ [addr]) :: evs /\
     forallb (fun e => negb (isExec e)) evs = true /\
     (commandOk w (AddCommand s) (AddArgs s ++ [addr]) = false ->
      addAddress s addr w =
        (emit (EvExec (AddCommand s) (AddArgs s ++ [addr])) w,
         Err (ExitError (AddCommand s) (AddArgs s ++ [addr]))))) /\
  (DeleteCommand s <> ""%string ->
   exists evs,
     trace (fst (removeAddress s addr w)) =
       trace w ++ EvExec (DeleteCommand s) (DeleteArgs s ++ [addr]) :: evs /\
     forallb (fun e => negb (isExec e)) evs = true /\
     (commandOk w (DeleteCommand s) (DeleteArgs s ++ [addr]) = false ->
      removeAddress s addr w =
        (emit (EvExec (DeleteCommand s) (DeleteArgs s ++ [addr])) w,
         Err (ExitError (DeleteCommand s) (DeleteArgs s ++ [addr]))))).
Proof.
  split; intros Hc.
  - rewrite addAddress_unfold. apply hook_then; [|exact Hc].
    intros w0. unfold bind. rewrite readAddressFile_run.
    destruct (watchlist s w0) as [addrs|e]; [|exists [EvOpenAddressFile]; auto].
    destruct (Slices.Contains addrs addr); [exists [EvOpenAddressFile]; auto|].
    unfold os_WriteFile_address. unfold_go. cbn [fst].
    eexists [EvOpenAddressFile; EvWriteAddressFile _].
    split; [|reflexivity].
    destruct (addressPath _); cbn; now rewrite <- app_assoc.
  - rewrite removeAddress_unfold. apply hook_then; [|exact Hc].
    intros w0. unfold bind. rewrite readAddressFile_run.
    destruct (watchlist s w0) as [addrs|e]; [|exists [EvOpenAddressFile]; auto].
    destruct (negb (Slices.Contains addrs addr)); [exists [EvOpenAddressFile]; auto|].
    destruct (Slices.Index addrs addr); [|exists [EvOpenAddressFile]; auto].
    unfold os_WriteFile_address. unfold_go. cbn [fst].
    eexists [EvOpenAddressFile; EvWriteAddressFile _].
    split; [|reflexivity].
    destruct (addressPath _); cbn; now rewrite <- app_assoc.
Qed.

Lemma dropEntry_absent name l :
  lookupEntry name l = None -> dropEntry name l = l.
Proof.
  induction l as [|[n y] l IH]; [reflexivity|]. cbn [lookupEntry].
  destruct (String.eqb n name) eqn:E; [discriminate|].
  intros H. unfold dropEntry in *. cbn [List.filter fst]. rewrite E.
  cbn [negb]. now rewrite IH.
Qed.

Lemma dropEntry_putEntry name x l :
  lookupEntry name l = None -> dropEntry name (putEntry name x l) = l.
Proof.
  induction l as [|[n y] l IH]; cbn [lookupEntry putEntry].
  - intros _. unfold dropEntry. cbn. now rewrite String.eqb_refl.
  - destruct (String.eqb n name) eqn:E; [discriminate|]. intros H.
    destruct (String.ltb name n).
    + unfold dropEntry. cbn [List.filter fst]. rewrite String.eqb_refl, E.
      cbn [negb]. f_equal. now apply dropEntry_absent.
    + unfold dropEntry in *. cbn [List.filter fst]. rewrite E. cbn [negb].
      now rewrite IH.
Qed.

(** Property X6.  A timeout record written and deleted.  In a timeout
    directory that has no entry of this name, [writeTimeoutFile] creates the
    record of the address, with the expiration now plus the configured
    timeout, and [deleteTimeoutFile] then leaves the directory as it was
    before the two calls; neither touches the watchlist file. *)
Theorem timeout_record_write_then_delete s w addr entries :
  timeoutPath w = DirOf entries -> lookupEntry addr entries = None ->
  plainName addr = true ->
  TimePkg.representable (clock w (ticks w) + AddressTimeout s) = true ->
  exists w1 w2 entries1,
    writeTimeoutFile s addr w = (w1, Ok tt) /\
    timeoutPath w1 = DirOf entries1 /\
    lookupEntry addr entries1 =
      Some (Regular (Marshalled (clock w (ticks w) + AddressTimeout s))) /\
    (forall other, other <> addr ->
       lookupEntry other entries1 = lookupEntry other entries) /\
    deleteTimeoutFile s addr w1 = (w2, Ok tt) /\
    timeoutPath w2 = DirOf entries /\
    addressPath w2 = addressPath w.
Proof.
  intros Hd Hl Hp Hr.
  set (data := Marshalled (clock w (ticks w) + AddressTimeout s)).
  exists (setTimeoutPath (DirOf (putEntry addr (Regular data) entries))
            (emit (EvWriteFile addr data) (tick w))).
  eexists. exists (putEntry addr (Regular data) entries).
  split.
  { rewrite writeTimeoutFile_run. cbn zeta. rewrite Hr.
    unfold os_WriteFile_timeout. unfold_go. cbn. now rewrite Hd, Hp, Hl. }
  split; [reflexivity|].
  split; [apply lookupEntry_putEntry_eq|].
  split; [intros other Hne; apply lookupEntry_putEntry_ne; congruence|].
  split.
  { unfold deleteTimeoutFile, os_Remove_timeout. unfold_go. cbn.
    rewrite lookupEntry_putEntry_eq. reflexivity. }
  cbn. split; [|reflexivity]. now rewrite dropEntry_putEntry.
Qed.

(** * A sweep, whatever its outcome *)

Lemma onlyRead_refl w : onlyRead w w.
Proof.
  split; [apply sameStores_refl|]. split; [lia|].
  exists []. now rewrite app_nil_r.
Qed.

Lemma onlyRead_trans a b c : onlyRead a b -> onlyRead b c -> onlyRead a c.
Proof.
  intros (S1 & T1 & e1 & E1 & F1) (S2 & T2 & e2 & E2 & F2).
  split; [eapply sameStores_trans; eauto|]. split; [lia|].
  exists (e1 ++ e2). rewrite E2, E1, <- app_assoc. split; [reflexivity|].
  now rewrite forallb_app, F1, F2.
Qed.

Lemma onlyRead_emit e w : changes e = false -> onlyRead w (emit e w).
Proof.
  intros H. split; [repeat split|]. split; [simpl; lia|].
  exists [e]. split; [reflexivity|]. simpl. now rewrite H.
Qed.

Lemma onlyRead_tick w : onlyRead w (tick w).
Proof.
  split; [repeat split|]. split; [simpl; lia|].
  exists []. simpl. now rewrite app_nil_r.
Qed.

Lemma fromNow_onlyRead now w w' : onlyRead w w' -> fromNow now w -> fromNow now w'.
Proof.
  intros ((_ & _ & Hc & _) & Ht & _) H k Hk. rewrite Hc. apply H. lia.
Qed.

(** The first loop of a sweep only reads, whether it ends well or not. *)
Lemma collectExpired_onlyRead s : forall entries acc w,
  onlyRead w (fst (collectExpired s entries acc w)).
Proof.
  induction entries as [|[addr node] rest IH]; intros acc w.
  - apply onlyRead_refl.
  - rewrite collectExpired_cons. destruct node as [data|mode]; cbn [IsRegular].
    2:{ apply IH. }
    unfold os_ReadFile_timeout, time_Now. unfold_go. cbn [fst snd].
    assert (R : onlyRead w (emit (EvReadFile addr) w))
      by now apply onlyRead_emit.
    destruct (timeoutPath (emit (EvReadFile addr) w)) as [| |all]; try exact R.
    destruct (lookupEntry addr all) as [[d|m]|]; try exact R.
    destruct d as [expiration|raw]; cbn [UnmarshalText]; try exact R.
    assert (R2 : onlyRead w (tick (emit (EvReadFile addr) w)))
      by (eapply onlyRead_trans; [exact R | apply onlyRead_tick]).
    destruct (0 <=? TimePkg.Compare _ _).
    + eapply onlyRead_trans; [exact R2 | apply IH].
    + eapply onlyRead_trans; [|apply IH].
      eapply onlyRead_trans; [exact R2 | now apply onlyRead_emit].
Qed.

(** With every record readable, the first loop ends well, with the names of
    the expired records. *)
Lemma collectExpired_run s now all : forall entries acc w,
  fromNow now w -> timeoutPath w = DirOf all ->
  (forall addr node, In (addr, node) entries -> lookupEntry addr all = Some node) ->
  readable entries ->
  snd (collectExpired s entries acc w) = Ok (acc ++ expiredNames now entries).
Proof.
  induction entries as [|[addr node] rest IH]; intros acc w Hnow Hdir Hall Hr.
  - cbn. now rewrite app_nil_r.
  - rewrite collectExpired_cons.
    assert (Hrest : forall a n, In (a, n) rest -> lookupEntry a all = Some n)
      by (intros a n H; apply Hall; now right).
    assert (Hr' : readable rest)
      by (intros n raw H; apply (Hr n raw); now right).
    destruct node as [data|mode]; cbn [IsRegular].
    2:{ rewrite IH; auto. }
    unfold os_ReadFile_timeout, time_Now. unfold_go. cbn [fst snd].
    cbn [emit timeoutPath]. rewrite Hdir, (Hall addr (Regular data)) by now left.
    destruct data as [expiration|raw]; [|exfalso; apply (Hr addr raw); now left].
    cbn [UnmarshalText]. rewrite Compare_ge.
    cbn [tick emit clock ticks]. rewrite (Hnow (ticks w)) by lia.
    unfold expiredNames. cbn [List.filter isExpired snd].
    destruct (expiration <=? now).
    + rewrite IH; auto.
      * cbn [map fst]. now rewrite <- app_assoc.
      * intros k Hk. apply Hnow. simpl in Hk. lia.
    + rewrite IH; auto. intros k Hk. apply Hnow. simpl in Hk. lia.
Qed.

(** With a record that does not parse, the first loop stops on one. *)
Lemma collectExpired_garbled s all : forall entries acc w name raw,
  timeoutPath w = DirOf all ->
  (forall addr node, In (addr, node) entries -> lookupEntry addr all = Some node) ->
  In (name, Regular (Garbled raw)) entries ->
  exists bad raw',
    In (bad, Regular (Garbled raw')) entries /\
    snd (collectExpired s entries acc w) =
      Err (Fatalf ("reaper: failed umarshalling expiration from '"
                   +:+ TimeoutDir s +:+ "/" +:+ bad +:+ "'") ErrUnmarshalText).
Proof.
  induction entries as [|[addr node] rest IH]; intros acc w name raw Hdir Hall Hin;
    [destruct Hin|].
  rewrite collectExpired_cons.
  assert (Hrest : forall a n, In (a, n) rest -> lookupEntry a all = Some n)
    by (intros a n H; apply Hall; now right).
  assert (G : forall acc' w', timeoutPath w' = DirOf all ->
            In (name, Regular (Garbled raw)) rest ->
            exists bad raw',
              In (bad, Regular (Garbled raw')) ((addr, node) :: rest) /\
              snd (collectExpired s rest acc' w') =
                Err (Fatalf ("reaper: failed umarshalling expiration from '"
                   +:+ TimeoutDir s +:+ "/" +:+ bad +:+ "'") ErrUnmarshalText)).
  { intros acc' w' Hd Hi.
    destruct (IH acc' w' name raw Hd Hrest Hi) as (bad & raw' & Hb & He).
    exists bad, raw'. split; [now right | exact He]. }
  destruct node as [data|mode]; cbn [IsRegular].
  2:{ destruct Hin as [[=]|Hin]. now apply G. }
  unfold os_ReadFile_timeout, time_Now. unfold_go. cbn [fst snd].
  cbn [emit timeoutPath]. rewrite Hdir, (Hall addr (Regular data)) by now left.
  destruct data as [expiration|raw0].
  - destruct Hin as [[=]|Hin]. cbn [UnmarshalText].
    destruct (0 <=? TimePkg.Compare _ _); apply G; auto.
  - exists addr, raw0. split; [now left | reflexivity].
Qed.

Lemma removeAddress_clock s addr w :
  let w' := fst (removeAddress s addr w) in
  clock w' = clock w /\ ticks w' = ticks w /\ commandOk w' = commandOk w.
Proof.
  rewrite !removeAddress_unfold.
  unfold hook, exec, readAddressFile, os_Open_address, os_WriteFile_address.
  unfold_go. unfold emit, setAddressPath, setTimeoutPath. simpl.
  destruct (String.eqb (DeleteCommand s) ""); simpl;
    [|destruct (commandOk w _ _); simpl; [|auto]];
    (destruct (addressPath w) as [| |content]; simpl; auto;
     destruct (parseAddresses (AddressFile s) content) as [addrs|e]; simpl;
       auto;
     destruct (Slices.Contains addrs addr); simpl; auto;
     destruct (Slices.Index addrs addr); simpl; auto).
Qed.

Lemma removeAddress_failed s addr w e :
  snd (removeAddress s addr w) = Err e ->
  addressPath (fst (removeAddress s addr w)) = addressPath w.
Proof.
  rewrite !removeAddress_unfold.
  unfold hook, exec, readAddressFile, os_Open_address, os_WriteFile_address.
  unfold_go. unfold emit, setAddressPath, setTimeoutPath. simpl.
  destruct (String.eqb (DeleteCommand s) ""); simpl;
    [|destruct (commandOk w _ _); simpl; [|auto]];
    (destruct (addressPath w) as [| |content]; simpl; auto;
     destruct (parseAddresses (AddressFile s) content) as [addrs|e']; simpl;
       auto;
     destruct (Slices.Contains addrs addr); simpl; auto;
     destruct (Slices.Index addrs addr); simpl; discriminate).
Qed.

(** [removeAddress] never adds an address, whatever its outcome. *)
Lemma removeAddress_shrinks s addr w a :
  watched s (fst (removeAddress s addr w)) a -> watched s w a.
Proof.
  destruct (watchlist s w) as [addrs|e] eqn:Hw.
  - rewrite (removeAddress_run s w addr addrs Hw), hook_run.
    assert (G : forall w0, addressPath w0 = addressPath w ->
      watched s (fst (let w2 := emit EvOpenAddressFile w0 in
        if Slices.Contains addrs addr then
          let content := Strings.Join (removeFirst addr addrs) nl +:+ nl in
          (setAddressPath (FileOf content) (emit (EvWriteAddressFile content) w2),
           Ok "deleted from"%string)
        else (w2, Ok "not present in"%string))) a -> watched s w a).
    { intros w0 Hp. cbn zeta. destruct (Slices.Contains addrs addr); cbn [fst].
      - intros (l & Hl & Hin).
        erewrite watchlist_written in Hl; [| |reflexivity|reflexivity].
        2:{ apply wellFormed_removeFirst. eapply watchlist_wellFormed; eauto. }
        injection Hl as <-. exists addrs. split; [exact Hw|].
        eapply SlicesFacts.removeFirst_In; eauto.
      - apply (proj1 (watched_frame s w (emit EvOpenAddressFile w0) a Hp)). }
    destruct (String.eqb (DeleteCommand s) ""); [now apply G|].
    destruct (commandOk w _ _); [now apply G|].
    cbn [fst]. apply (proj1 (watched_frame s w _ a eq_refl)).
  - destruct (removeAddress_unreadable s addr w e Hw) as [e' He'].
    apply (proj1 (watched_frame s w _ a (removeAddress_failed s addr w e' He'))).
Qed.

Lemma deleteTimeoutFile_shrinks s addr w entries :
  timeoutPath w = DirOf entries ->
  let w' := fst (deleteTimeoutFile s addr w) in
  addressPath w' = addressPath w /\ clock w' = clock w /\ ticks w' = ticks w /\
  commandOk w' = commandOk w /\ trace w' = trace w ++ [EvRemove addr] /\
  exists entries',
    timeoutPath w' = DirOf entries' /\
    forall name node, lookupEntry name entries' = Some node ->
                      lookupEntry name entries = Some node.
Proof.
  intros Hd. unfold deleteTimeoutFile, os_Remove_timeout. unfold_go.
  cbn [emit timeoutPath]. rewrite Hd.
  assert (Same : exists entries',
            DirOf entries = DirOf entries' /\
            forall name node, lookupEntry name entries' = Some node ->
                              lookupEntry name entries = Some node) by eauto.
  destruct (lookupEntry addr entries) as [[d|m]|] eqn:El; cbn;
    try (destruct m; cbn); rewrite ?Hd; repeat split; auto;
    (exists (dropEntry addr entries); split; [reflexivity|];
     intros name node; destruct (String.eqb addr name) eqn:E;
     [apply String.eqb_eq in E; subst name;
      now rewrite lookupEntry_dropEntry_eq
     |apply String.eqb_neq in E; now rewrite lookupEntry_dropEntry_ne]).
Qed.

(** The second loop of a sweep only removes, whether it ends well or
    not. *)
Lemma removeExpired_shrinks s : forall expired w entries,
  timeoutPath w = DirOf entries ->
  let w' := fst (removeExpired s expired w) in
  clock w' = clock w /\ ticks w' = ticks w /\ commandOk w' = commandOk w /\
  (exists entries',
     timeoutPath w' = DirOf entries' /\
     forall name node, lookupEntry name entries' = Some node ->
                       lookupEntry name entries = Some node) /\
  (forall a, watched s w' a -> watched s w a) /\
  exists evs, trace w' = trace w ++ evs /\
              forallb (fun e => negb (creates e)) evs = true.
Proof.
  induction expired as [|addr rest IH]; intros w entries Hd.
  - cbn. repeat split; eauto. exists []. now rewrite app_nil_r.
  - rewrite removeExpired_cons. unfold_go.
    pose proof (removeAddress_clock s addr w) as (C1 & T1 & K1).
    pose proof (removeAddress_timeoutPath s addr w) as D1.
    pose proof (removeAddress_shrinks s addr w) as W1.
    destruct (removeAddress_events s addr w) as (ev1 & E1 & F1).
    assert (F1' : forallb (fun e => negb (creates e)) ev1 = true).
    { clear -F1. induction ev1 as [|e l IHl]; [reflexivity|]. simpl in *.
      apply andb_true_iff in F1 as [He Hl]. rewrite (IHl Hl).
      destruct e; try discriminate; reflexivity. }
    destruct (removeAddress s addr w) as [w1 [action|e]]; cbn [fst snd] in *.
    2:{ repeat split; eauto. rewrite D1. eauto. }
    rewrite Hd in D1.
    pose proof (deleteTimeoutFile_shrinks s addr w1 entries D1)
      as (A2 & C2 & T2 & K2 & E2 & entries2 & D2 & L2).
    destruct (deleteTimeoutFile s addr w1) as [w2 [[]|e]]; cbn [fst snd] in *.
    2:{ split; [congruence|]. split; [congruence|]. split; [congruence|].
        split; [eauto|]. split.
        - intros a Ha. apply W1. eapply watched_frame; [|exact Ha]. now symmetry.
        - exists (ev1 ++ [EvRemove addr]). rewrite E2, E1, <- app_assoc.
          split; [reflexivity|]. now rewrite forallb_app, F1'. }
    set (w3 := emit _ w2).
    assert (D3 : timeoutPath w3 = DirOf entries2) by exact D2.
    destruct (IH w3 entries2 D3) as (C4 & T4 & K4 & (entries4 & D4 & L4) & W4 & ev4 & E4 & F4).
    split; [rewrite C4; cbn; congruence|].
    split; [rewrite T4; cbn; congruence|].
    split; [rewrite K4; cbn; congruence|].
    split; [exists entries4; split; [exact D4 | auto]|].
    split.
    + intros a Ha. apply W1. apply W4 in Ha.
      eapply watched_frame; [|exact Ha]. subst w3. cbn. now symmetry.
    + exists (ev1 ++ [EvRemove addr] ++ [EvLog (LogReaperExpired addr action (AddressFile s))] ++ ev4).
      rewrite E4. subst w3. cbn [trace emit]. rewrite E2, E1, <- !app_assoc.
      split; [reflexivity|].
      rewrite !forallb_app, F1', F4. reflexivity.
Qed.

Lemma changes_creates evs :
  forallb (fun e => negb (changes e)) evs = true ->
  forallb (fun e => negb (creates e)) evs = true.
Proof.
  induction evs as [|e l IH]; [reflexivity|]. simpl.
  intros H. apply andb_true_iff in H as [He Hl]. rewrite (IH Hl).
  destruct e; try discriminate; reflexivity.
Qed.

(** Property X7.  A sweep only removes.  Whatever its outcome, a sweep
    writes no timeout record and creates nothing: every entry of the
    timeout directory after the sweep was there before, unchanged, and
    every address on the watchlist after the sweep was on it before. *)
Theorem sweep_only_removes s w entries :
  timeoutPath w = DirOf entries ->
  let w' := fst (sweep s w) in
  (exists evs, trace w' = trace w ++ evs /\
               forallb (fun e => negb (creates e)) evs = true) /\
  (exists entries',
     timeoutPath w' = DirOf entries' /\
     forall name node, lookupEntry name entries' = Some node ->
                       lookupEntry name entries = Some node) /\
  (forall a, watched s w' a -> watched s w a).
Proof.
  intros Hd. rewrite (sweep_run s w entries Hd).
  pose proof (collectExpired_onlyRead s entries [] (emit EvReadDir w))
    as ((A1 & D1 & C1 & K1) & T1 & ev1 & E1 & F1).
  destruct (collectExpired s entries [] (emit EvReadDir w)) as [w1 [expired|e]];
    cbn [fst snd] in *.
  - cbn [emit timeoutPath] in D1. rewrite Hd in D1.
    destruct (removeExpired_shrinks s expired w1 entries D1)
      as (_ & _ & _ & De & We & ev2 & E2 & F2).
    split; [|split; [exact De|]].
    + exists (EvReadDir :: ev1 ++ ev2). rewrite E2, E1. cbn [trace emit].
      rewrite <- !app_assoc. split; [reflexivity|].
      cbn [forallb creates negb andb]. rewrite forallb_app, F2.
      now rewrite (changes_creates _ F1).
    + intros a Ha. apply We in Ha. eapply watched_frame; [|exact Ha].
      now symmetry.
  - split; [|split].
    + exists (EvReadDir :: ev1). rewrite E1. cbn [trace emit].
      rewrite <- !app_assoc. split; [reflexivity|].
      cbn [forallb creates negb andb]. now apply changes_creates.
    + exists entries. split; [|auto]. cbn [emit timeoutPath] in D1. congruence.
    + intros a. apply (proj1 (watched_frame s w w1 a A1)).
Qed.

(** Property X8.  A record that does not parse stops the sweep.  When some
    regular file of the timeout directory holds bytes that are not a time,
    the sweep returns the error of the unmarshalling, which names such a
    file, before it removes anything: the watchlist and every record, the
    expired ones included, are as they were, and no command has run. *)
Theorem corrupt_record_blocks_the_sweep s w entries name raw :
  timeoutPath w = DirOf entries -> List.NoDup (names entries) ->
  In (name, Regular (Garbled raw)) entries ->
  let w' := fst (sweep s w) in
  (exists bad raw',
     In (bad, Regular (Garbled raw')) entries /\
     snd (sweep s w) =
       Err (Fatalf ("reaper: failed umarshalling expiration from '"
                    +:+ TimeoutDir s +:+ "/" +:+ bad +:+ "'") ErrUnmarshalText)) /\
  addressPath w' = addressPath w /\ timeoutPath w' = timeoutPath w /\
  exists evs, trace w' = trace w ++ evs /\
              forallb (fun e => negb (changes e)) evs = true.
Proof.
  intros Hd Hnd Hin. rewrite (sweep_run s w entries Hd).
  pose proof (collectExpired_onlyRead s entries [] (emit EvReadDir w))
    as ((A1 & D1 & C1 & K1) & T1 & ev1 & E1 & F1).
  destruct (collectExpired_garbled s entries entries [] (emit EvReadDir w) name raw)
    as (bad & raw' & Hb & He); auto.
  { intros addr node H. now apply In_lookupEntry. }
  destruct (collectExpired s entries [] (emit EvReadDir w)) as [w1 [expired|e]];
    cbn [fst snd] in *; [discriminate|].
  injection He as ->.
  split; [exists bad, raw'; split; [exact Hb | reflexivity]|].
  split; [exact A1|]. split; [exact D1|].
  exists (EvReadDir :: ev1). rewrite E1. cbn [trace emit].
  rewrite <- !app_assoc. split; [reflexivity|].
  cbn [forallb changes negb andb]. exact F1.
Qed.

(** Property X9.  A failing delete command keeps the record.  When every
    record is readable and the delete command fails for the first expired
    address, the sweep returns the error of the command, wrapped as a
    failure of [removeAddress], and nothing has been removed: the watchlist
    and the timeout directory, the expired records included, are as they
    were. *)
Theorem failed_delete_command_keeps_record s w now entries addr rest :
  fromNow now w -> timeoutPath w = DirOf entries ->
  List.NoDup (names entries) -> readable entries ->
  expiredNames now entries = addr :: rest ->
  DeleteCommand s <> ""%string ->
  commandOk w (DeleteCommand s) (DeleteArgs s ++ [addr]) = false ->
  exists w',
    sweep s w =
      (w', Err (Fatalf "reaper: removeAddress failed"
                  (ExitError (DeleteCommand s) (DeleteArgs s ++ [addr])))) /\
    addressPath w' = addressPath w /\ timeoutPath w' = timeoutPath w.
Proof.
  intros Hnow Hd Hnd Hr Hexp Hc Hk. rewrite (sweep_run s w entries Hd).
  pose proof (collectExpired_onlyRead s entries [] (emit EvReadDir w))
    as ((A1 & D1 & C1 & K1) & T1 & ev1 & E1 & F1).
  pose proof (collectExpired_run s now entries entries [] (emit EvReadDir w)) as Hrun.
  rewrite Hexp in Hrun. cbn [app] in Hrun.
  destruct (collectExpired s entries [] (emit EvReadDir w)) as [w1 r1];
    cbn [fst snd] in *.
  rewrite Hrun; auto.
  2:{ intros a n H. now apply In_lookupEntry. }
  rewrite removeExpired_cons. unfold_go.
  rewrite removeAddress_unfold. unfold bind. rewrite hook_run.
  apply String.eqb_neq in Hc. rewrite Hc.
  cbn [emit commandOk] in K1. rewrite K1, Hk.
  eexists. split; [reflexivity|]. cbn. auto.
Qed.

Lemma expiredNames_In now entries addr expiration :
  List.NoDup (names entries) ->
  In (addr, Regular (Marshalled expiration)) entries ->
  In addr (expiredNames now entries) <-> expiration <= now.
Proof.
  intros Hnames Hin. unfold expiredNames. rewrite in_map_iff. split.
  - intros ([a node] & <- & Hf). apply filter_In in Hf as [Hf He].
    simpl in *.
    pose proof (In_lookupEntry _ _ _ Hnames Hf) as L1.
    pose proof (In_lookupEntry _ _ _ Hnames Hin) as L2.
    rewrite L1 in L2. injection L2 as ->.
    unfold isExpired in He. simpl in He. now apply Z.leb_le.
  - intros Hle. exists (addr, Regular (Marshalled expiration)).
    split; [reflexivity|]. apply filter_In. split; [exact Hin|].
    unfold isExpired. simpl. now apply Z.leb_le.
Qed.

Lemma collectExpired_readable s all : forall entries acc w w' L,
  timeoutPath w = DirOf all ->
  (forall addr node, In (addr, node) entries -> lookupEntry addr all = Some node) ->
  collectExpired s entries acc w = (w', Ok L) -> readable entries.
Proof.
  intros entries acc w w' L Hd Hall Hrun name raw Hin.
  destruct (collectExpired_garbled s all entries acc w name raw Hd Hall Hin)
    as (bad & raw' & _ & He).
  rewrite Hrun in He. discriminate.
Qed.

(** A sweep that completes, at the instant [now]: what is left. *)
Lemma sweep_effect s w now entries w' :
  fromNow now w -> timeoutPath w = DirOf entries ->
  List.NoDup (names entries) -> noDuplicates s w ->
  sweep s w = (w', Ok tt) ->
  readable entries /\
  timeoutPath w' = DirOf (dropAll (expiredNames now entries) entries) /\
  (forall a, watched s w' a <-> (watched s w a /\ ~ In a (expiredNames now entries))) /\
  clock w' = clock w /\ commandOk w' = commandOk w /\ (ticks w <= ticks w')%nat /\
  noDuplicates s w'.
Proof.
  intros Hnow Hd Hnd Hno. rewrite (sweep_run s w entries Hd).
  pose proof (collectExpired_onlyRead s entries [] (emit EvReadDir w))
    as ((A1 & D1 & C1 & K1) & T1 & ev1 & E1 & F1).
  assert (Hall : forall addr node, In (addr, node) entries ->
                                   lookupEntry addr entries = Some node)
    by (intros a n H; now apply In_lookupEntry).
  destruct (collectExpired s entries [] (emit EvReadDir w)) as [w1 [expired|e]] eqn:E;
    [|discriminate].
  cbn [fst snd emit timeoutPath addressPath clock commandOk ticks] in *.
  assert (Hr : readable entries)
    by apply (collectExpired_readable s entries entries [] (emit EvReadDir w)
                w1 expired Hd Hall E).
  pose proof (collectExpired_run s now entries entries [] (emit EvReadDir w)
                Hnow Hd Hall Hr) as Hrun.
  rewrite E in Hrun. cbn [snd app] in Hrun. injection Hrun as ->.
  intros E2. rewrite Hd in D1.
  pose proof (removeExpired_shrinks s (expiredNames now entries) w1 entries D1)
    as (C2 & T2 & K2 & _).
  rewrite E2 in C2, T2, K2. cbn [fst] in C2, T2, K2.
  assert (Hno1 : noDuplicates s w1)
    by (apply (noDuplicates_frame s w); [exact A1 | exact Hno]).
  pose proof E2 as E3.
  apply (removeExpired_success s _ w1 w' entries) in E2 as [Hdir' Hwatch]; auto.
  split; [exact Hr|]. split; [exact Hdir'|]. split.
  { intros a. rewrite Hwatch, (watched_frame s w w1 a A1). tauto. }
  split; [congruence|]. split; [congruence|]. split; [lia|].
  clear -E3 Hno1. revert w1 E3 Hno1.
  induction (expiredNames now entries) as [|addr rest IH]; intros w1.
  - cbn. unfold ret. now intros [= <-].
  - rewrite removeExpired_cons. unfold_go.
    destruct (removeAddress s addr w1) as [w2 [action|e]] eqn:R1; [|discriminate].
    destruct (deleteTimeoutFile s addr w2) as [w3 [[]|e]] eqn:R2; [|discriminate].
    intros Hrest Hn1.
    destruct (removeAddress_ok s addr w1 w2 action R1 Hn1) as (_ & _ & _ & Hn2 & _).
    apply deleteTimeoutFile_ok in R2 as (entries2 & _ & ->).
    eapply IH; [exact Hrest|].
    eapply (noDuplicates_frame s w2); [reflexivity | exact Hn2].
Qed.

Lemma dropAll_names l : forall entries,
  List.NoDup (names entries) -> List.NoDup (names (dropAll l entries)).
Proof.
  induction l as [|a l IH]; intros entries H; [exact H|].
  cbn [dropAll fold_left]. apply IH.
  unfold names, dropEntry. clear -H.
  induction entries as [|[n x] entries IHe]; [constructor|].
  cbn [List.filter fst]. inversion H as [|? ? Hn Hrest]; subst.
  destruct (negb (String.eqb n a)); [|now apply IHe].
  cbn [map fst]. constructor; [|now apply IHe].
  intros Hin. apply Hn. apply in_map_iff in Hin as (e & He & Hf).
  apply filter_In in Hf as [Hf _]. apply in_map_iff. eauto.
Qed.

Lemma dropAll_In l : forall entries e,
  In e (dropAll l entries) -> In e entries /\ ~ In (fst e) l.
Proof.
  induction l as [|a l IH]; intros entries e; [cbn; tauto|].
  cbn [dropAll fold_left]. intros H. apply IH in H as [H Hn].
  unfold dropEntry in H. apply filter_In in H as [H Ha].
  split; [exact H|]. intros [->|Hl]; [|contradiction].
  now rewrite String.eqb_refl in Ha.
Qed.

Lemma expiredNames_dropAll now entries :
  expiredNames now (dropAll (expiredNames now entries) entries) = [].
Proof.
  unfold expiredNames at 1.
  destruct (List.filter (isExpired now) (dropAll (expiredNames now entries) entries))
    as [|e l] eqn:E; [reflexivity|].
  exfalso. assert (Hin : In e (e :: l)) by now left.
  rewrite <- E in Hin. apply filter_In in Hin as [Hin He].
  apply dropAll_In in Hin as [Hin Hn]. apply Hn.
  unfold expiredNames. apply in_map. apply filter_In. auto.
Qed.

(** Property X10.  A second sweep changes nothing.  After a sweep that
    completed, another sweep at the same instant completes as well and
    removes nothing: it only reads the directory and the records that are
    left, runs no command and writes no file. *)
Theorem second_sweep_changes_nothing s w now entries w1 :
  fromNow now w -> timeoutPath w = DirOf entries ->
  List.NoDup (names entries) -> noDuplicates s w ->
  sweep s w = (w1, Ok tt) ->
  exists w2,
    sweep s w1 = (w2, Ok tt) /\
    addressPath w2 = addressPath w1 /\ timeoutPath w2 = timeoutPath w1 /\
    exists evs, trace w2 = trace w1 ++ evs /\
                forallb (fun e => negb (changes e)) evs = true.
Proof.
  intros Hnow Hd Hnd Hno Hrun.
  destruct (sweep_effect s w now entries w1 Hnow Hd Hnd Hno Hrun)
    as (Hr & Hd1 & _ & C1 & _ & T1 & _).
  set (entries1 := dropAll (expiredNames now entries) entries) in *.
  assert (Hnd1 : List.NoDup (names entries1)) by now apply dropAll_names.
  assert (Hr1 : readable entries1).
  { intros n raw H. apply dropAll_In in H as [H _]. now apply (Hr n raw). }
  assert (Hnow1 : fromNow now (emit EvReadDir w1)).
  { intros k Hk. cbn in *. rewrite C1. apply Hnow. lia. }
  rewrite (sweep_run s w1 entries1 Hd1).
  pose proof (collectExpired_onlyRead s entries1 [] (emit EvReadDir w1))
    as ((A2 & D2 & C2 & K2) & T2 & ev2 & E2 & F2).
  pose proof (collectExpired_run s now entries1 entries1 [] (emit EvReadDir w1)
                Hnow1 Hd1) as R2.
  destruct (collectExpired s entries1 [] (emit EvReadDir w1)) as [w2 r2];
    cbn [fst snd] in *.
  rewrite R2; auto.
  2:{ intros a n H. now apply In_lookupEntry. }
  subst entries1. rewrite expiredNames_dropAll. cbn [app removeExpired].
  exists w2. unfold ret. split; [reflexivity|]. split; [exact A2|].
  split; [exact D2|].
  exists (EvReadDir :: ev2). rewrite E2. cbn [trace emit].
  rewrite <- !app_assoc. split; [reflexivity|].
  cbn [forallb changes negb andb]. exact F2.
Qed.

Lemma addAddress_unreadable s addr w e :
  watchlist s w = Err e -> exists e', snd (addAddress s addr w) = Err e'.
Proof.
  intros Hw. rewrite addAddress_unfold. unfold bind at 1. rewrite hook_run.
  destruct (String.eqb (AddCommand s) "");
    [|destruct (commandOk w _ _); [|simpl; eauto]];
    unfold bind; rewrite readAddressFile_run, ?watchlist_emit, Hw; simpl; eauto.
Qed.

(** A successful [addAddress] of an address that reads back as itself: the
    address is listed, the others stay. *)
Lemma addAddress_ok s addr w w1 action :
  addAddress s addr w = (w1, Ok action) ->
  wellFormed addr -> noDuplicates s w ->
  timeoutPath w1 = timeoutPath w /\ clock w1 = clock w /\ ticks w1 = ticks w /\
    commandOk w1 = commandOk w /\
    noDuplicates s w1 /\
    forall a, watched s w1 a <-> (watched s w a \/ a = addr).
Proof.
  intros Hrun Hwf Hnd.
  destruct (watchlist s w) as [addrs|e] eqn:Hw.
  2:{ destruct (addAddress_unreadable s addr w e Hw) as [e' He'].
      rewrite Hrun in He'. discriminate. }
  pose proof (Hnd addrs Hw) as Hno.
  pose proof (watchlist_wellFormed s w addrs Hw) as Hall.
  rewrite (addAddress_run s w addr addrs Hw), hook_run in Hrun.
  assert (G : forall w0, sameStores w w0 -> ticks w0 = ticks w ->
    (let w2 := emit EvOpenAddressFile w0 in
     if Slices.Contains addrs addr then (w2, Ok "already present in"%string)
     else
       let content := Strings.Join (addrs ++ [addr]) nl +:+ nl in
       (setAddressPath (FileOf content) (emit (EvWriteAddressFile content) w2),
        Ok "added to"%string)) = (w1, Ok action) ->
    timeoutPath w1 = timeoutPath w /\ clock w1 = clock w /\ ticks w1 = ticks w /\
    commandOk w1 = commandOk w /\ noDuplicates s w1 /\
    forall a, watched s w1 a <-> (watched s w a \/ a = addr)).
  { intros w0 (Sa & Sd & Sc & Sk) St. cbn zeta.
    destruct (Slices.Contains addrs addr) eqn:Hc; intros [= <- <-]; cbn.
    - apply SlicesFacts.Contains_In in Hc.
      assert (Hp : watchlist s (emit EvOpenAddressFile w0) = Ok addrs).
      { rewrite <- Hw. apply watchlist_frame. exact Sa. }
      split; [exact Sd|]. split; [exact Sc|]. split; [exact St|].
      split; [exact Sk|]. split.
      + intros l Hl. rewrite Hp in Hl. injection Hl as <-. exact Hno.
      + intros a. unfold watched. rewrite Hp, Hw. split.
        * intros (l & [= <-] & Hin). left. eauto.
        * intros [(l & [= <-] & Hin)| ->]; eauto.
    - apply SlicesFacts.Contains_not_In in Hc.
      assert (Hp : watchlist s
         (setAddressPath (FileOf (Strings.Join (addrs ++ [addr]) nl +:+ nl))
            (emit (EvWriteAddressFile (Strings.Join (addrs ++ [addr]) nl +:+ nl))
               (emit EvOpenAddressFile w0))) = Ok (addrs ++ [addr])).
      { eapply watchlist_written; [|reflexivity|reflexivity].
        apply List.Forall_app. split; [exact Hall | now constructor]. }
      split; [exact Sd|]. split; [exact Sc|]. split; [exact St|].
      split; [exact Sk|]. split.
      + intros l Hl. rewrite Hp in Hl. injection Hl as <-.
        apply List.NoDup_app; [exact Hno | |].
        * constructor; [intros []|constructor].
        * intros a Ha [->|[]]. contradiction.
      + intros a. unfold watched. rewrite Hp, Hw. split.
        * intros (l & [= <-] & Hin). apply in_app_or in Hin as [Hin|[->|[]]]; eauto.
        * intros [(l & [= <-] & Hin)| ->]; eexists; split; try reflexivity;
            apply in_or_app; [left; exact Hin | right; now left]. }
  destruct (String.eqb (AddCommand s) "").
  - apply (G w); [apply sameStores_refl | reflexivity | exact Hrun].
  - destruct (commandOk w _ _); [|discriminate].
    apply (G (emit (EvExec (AddCommand s) (AddArgs s ++ [addr])) w));
      [repeat split | reflexivity | exact Hrun].
Qed.

(** Property X11.  An address stays for the timeout after its last match.
    When a match of an address has been processed at the instant [t], the
    address is on the watchlist with a record that expires at [t] plus the
    configured timeout; a sweep that completes at a later instant [now]
    keeps the address and its record when [now] is before that expiration,
    and removes both when it is not. *)
Theorem matched_address_lives_for_the_timeout s w addr w1 entries1 now w2 :
  noDuplicates s w -> wellFormed addr ->
  onMatch s addr w = (w1, Ok tt) ->
  timeoutPath w1 = DirOf entries1 -> List.NoDup (names entries1) ->
  fromNow now w1 ->
  sweep s w1 = (w2, Ok tt) ->
  let expiration := clock w (ticks w) + AddressTimeout s in
  watched s w1 addr /\
  lookupEntry addr entries1 = Some (Regular (Marshalled expiration)) /\
  exists entries2,
    timeoutPath w2 = DirOf entries2 /\
    (now < expiration ->
     watched s w2 addr /\
     lookupEntry addr entries2 = Some (Regular (Marshalled expiration))) /\
    (expiration <= now ->
     ~ watched s w2 addr /\ lookupEntry addr entries2 = None).
Proof.
  intros Hno Hwf Hm Hd1 Hnd Hnow Hs expiration.
  rewrite onMatch_unfold in Hm.
  destruct (writeTimeoutFile s addr w) as [wa [[]|e]] eqn:Ew; [|discriminate].
  destruct (addAddress s addr wa) as [wb [action|e]] eqn:Ea; [|discriminate].
  injection Hm as <-.
  apply writeTimeoutFile_ok in Ew as (entries0 & Hd0 & ->).
  fold expiration in Ea.
  assert (Hnoa : noDuplicates s
            (setTimeoutPath
               (DirOf (putEntry addr (Regular (Marshalled expiration)) entries0))
               (emit (EvWriteFile addr (Marshalled expiration)) (tick w))))
    by (apply (noDuplicates_frame s w); [reflexivity | exact Hno]).
  destruct (addAddress_ok s addr _ wb action Ea Hwf Hnoa)
    as (Db & _ & _ & _ & Hnob & Hwb).
  cbn [emit timeoutPath setTimeoutPath] in Hd1, Db.
  rewrite Db in Hd1. injection Hd1 as <-.
  assert (Hl1 : lookupEntry addr
            (putEntry addr (Regular (Marshalled expiration)) entries0)
          = Some (Regular (Marshalled expiration)))
    by apply lookupEntry_putEntry_eq.
  assert (Hw1 : watched s
            (emit (EvLog (LogScannerIP addr action (AddressFile s))) wb) addr).
  { apply (watched_frame s wb); [reflexivity|]. apply Hwb. now right. }
  split; [exact Hw1|]. split; [exact Hl1|].
  assert (Hno1 : noDuplicates s
            (emit (EvLog (LogScannerIP addr action (AddressFile s))) wb))
    by (apply (noDuplicates_frame s wb); [reflexivity | exact Hnob]).
  destruct (sweep_effect s _ now _ w2 Hnow
              (eq_trans (y := timeoutPath wb) eq_refl Db) Hnd Hno1 Hs)
    as (_ & Hd2 & Hw2 & _).
  eexists. split; [exact Hd2|].
  pose proof (expiredNames_In now _ addr expiration Hnd (lookupEntry_In _ _ _ Hl1))
    as Hiff.
  split.
  - intros Hlt. assert (Hn : ~ In addr (expiredNames now
        (putEntry addr (Regular (Marshalled expiration)) entries0)))
      by (rewrite Hiff; lia).
    split; [apply Hw2; auto|].
    now rewrite lookupEntry_dropAll_out.
  - intros Hle. apply Hiff in Hle. split.
    + intros H. apply Hw2 in H as [_ H]. auto.
    + now apply lookupEntry_dropAll_in.
Qed.

(** * Construction, step by step *)

Lemma IsFile_timeout_spec addr w :
  IsFile_timeout addr w = true <->
  plainName addr = true /\
  exists entries d, timeoutPath w = DirOf entries /\
                    lookupEntry addr entries = Some (Regular d).
Proof.
  unfold IsFile_timeout. destruct (timeoutPath w) as [| |entries].
  - split; [discriminate|]. intros (_ & ? & ? & [=] & _).
  - split; [discriminate|]. intros (_ & ? & ? & [=] & _).
  - rewrite andb_true_iff. split.
    + intros [Hp Hl]. split; [exact Hp|].
      destruct (lookupEntry addr entries) as [[d|m]|] eqn:El; try discriminate.
      exists entries, d. split; [reflexivity | exact El].
    + intros (Hp & e' & d & [= <-] & Hl). rewrite Hl. auto.
Qed.

(** The loop that gives a record to the addresses without one: it adds
    entries and touches no other. *)
Lemma reconcile_ok s : forall addrs w w' entries,
  reconcile s addrs w = (w', Ok tt) -> timeoutPath w = DirOf entries ->
  (addressPath w' = addressPath w /\ clock w' = clock w /\
   commandOk w' = commandOk w) /\
  exists entries',
    timeoutPath w' = DirOf entries' /\
    (forall name node, lookupEntry name entries = Some node ->
                       lookupEntry name entries' = Some node) /\
    (forall a, In a addrs -> IsFile_timeout a w' = true).
Proof.
  induction addrs as [|addr rest IH]; intros w w' entries.
  - cbn. unfold ret. intros [= <-] Hd. split; [auto|].
    exists entries. split; [exact Hd|]. split; [auto | intros a []].
  - cbn [reconcile]. unfold_go. cbn [fst snd].
    destruct (IsFile_timeout addr w) eqn:Ep; cbn [negb].
    + intros Hrun Hd. destruct (IH _ _ _ Hrun Hd) as (Ha & entries' & Hd' & Hk & Hr).
      split; [exact Ha|]. exists entries'. split; [exact Hd'|]. split; [exact Hk|].
      intros a [<-|Hin]; [|now apply Hr].
      apply IsFile_timeout_spec in Ep as (Hp & e0 & d & He0 & Hl).
      rewrite Hd in He0. injection He0 as <-.
      apply IsFile_timeout_spec. split; [exact Hp|].
      exists entries', d. split; [exact Hd'|]. now apply Hk.
    + destruct (writeTimeoutFile s addr w) as [w1 [[]|e]] eqn:Ew; [|discriminate].
      intros Hrun Hd.
      pose proof (writeTimeoutFile_frame s addr w) as (Fa & Fk & Fc & _).
      rewrite Ew in Fa, Fk, Fc. cbn [fst] in Fa, Fk, Fc.
      pose proof Ew as Ew'. apply writeTimeoutFile_ok in Ew' as (e0 & He0 & ->).
      rewrite Hd in He0. injection He0 as <-.
      set (data := Marshalled _) in *.
      assert (Hplain : plainName addr = true).
      { rewrite writeTimeoutFile_run in Ew. cbn zeta in Ew.
        destruct (TimePkg.representable _); [|discriminate].
        unfold os_WriteFile_timeout in Ew. unfold_go. cbn in Ew.
        rewrite Hd in Ew. destruct (plainName addr); [reflexivity|discriminate]. }
      assert (Hnone : forall node, lookupEntry addr entries = Some node -> False).
      { intros node Hl. rewrite writeTimeoutFile_run in Ew. cbn zeta in Ew.
        destruct (TimePkg.representable _); [|discriminate].
        unfold os_WriteFile_timeout in Ew. unfold_go. cbn in Ew.
        rewrite Hd, Hplain, Hl in Ew. destruct node as [d|m]; [|discriminate].
        unfold IsFile_timeout in Ep. rewrite Hd, Hplain, Hl in Ep. discriminate. }
      destruct (IH _ _ (putEntry addr (Regular data) entries) Hrun eq_refl)
        as (Ha & entries' & Hd' & Hk & Hr).
      split; [destruct Ha as (H1 & H2 & H3); rewrite H1, H2, H3; auto|].
      exists entries'. split; [exact Hd'|]. split.
      * intros name node Hl. apply Hk.
        rewrite lookupEntry_putEntry_ne; [exact Hl|].
        intros ->. eapply Hnone; eauto.
      * intros a [<-|Hin]; [|now apply Hr].
        apply IsFile_timeout_spec. split; [exact Hplain|].
        exists entries', data. split; [exact Hd'|].
        apply Hk, lookupEntry_putEntry_eq.
Qed.

(** With a record for every address, the loop does nothing. *)
Lemma reconcile_present s : forall addrs w,
  (forall a, In a addrs -> IsFile_timeout a w = true) ->
  reconcile s addrs w = (w, Ok tt).
Proof.
  induction addrs as [|addr rest IH]; intros w H; [reflexivity|].
  cbn [reconcile]. unfold_go. cbn [fst snd].
  rewrite (H addr) by now left. cbn [negb]. apply IH.
  intros a Ha. apply H. now right.
Qed.

Lemma compileAll_acc (Compile : string -> option Pattern) patterns : forall acc,
  compileAll Compile patterns acc =
  match compileAll Compile patterns [] with
  | Ok l => Ok (acc ++ l)
  | Err e => Err e
  end.
Proof.
  induction patterns as [|p rest IH]; intros acc; cbn [compileAll].
  - now rewrite app_nil_r.
  - destruct (Compile p) as [re|]; [|reflexivity].
    rewrite (IH (acc ++ [re])), (IH ([] ++ [re])).
    destruct (compileAll Compile rest []); [|reflexivity].
    cbn. now rewrite <- app_assoc.
Qed.

Lemma compileAll_bad (Compile : string -> option Pattern) patterns :
  (exists p, In p patterns /\ Compile p = None) ->
  exists bad, In bad patterns /\ Compile bad = None /\
    compileAll Compile patterns [] =
      Err (Errorf "failed regex compile" (SyntaxError "regexp" bad)).
Proof.
  induction patterns as [|p rest IH]; intros (q & Hin & Hq); [destruct Hin|].
  cbn [compileAll]. destruct (Compile p) as [re|] eqn:Ep.
  - destruct Hin as [->|Hin]; [congruence|].
    destruct IH as (bad & Hb & Hc & He); [eauto|].
    exists bad. split; [now right|]. split; [exact Hc|].
    rewrite compileAll_acc, He. reflexivity.
  - exists p. split; [now left|]. auto.
Qed.

Lemma compileAll_ok (Compile : string -> option Pattern) patterns compiled :
  compileAll Compile patterns [] = Ok compiled ->
  Forall2 (fun p re => Compile p = Some re) patterns compiled.
Proof.
  revert compiled. induction patterns as [|p rest IH]; intros compiled; cbn [compileAll].
  - intros [= <-]. constructor.
  - destruct (Compile p) as [re|] eqn:Ep; [|discriminate].
    rewrite compileAll_acc.
    destruct (compileAll Compile rest []) as [l|] eqn:El; [|discriminate].
    intros [= <-]. cbn. constructor; [exact Ep | now apply IH].
Qed.

Lemma split_go_nonempty sep : forall s acc, Strings.split_go sep acc s <> [].
Proof.
  induction s as [|c s IH]; intros acc; cbn [Strings.split_go]; [discriminate|].
  destruct (byte_eqb c sep); [discriminate | apply IH].
Qed.

Lemma join_split_go sep : forall s acc,
  Strings.join [sep] (Strings.split_go sep acc s) = rev acc ++ s.
Proof.
  induction s as [|c s IH]; intros acc; cbn [Strings.split_go].
  - cbn. now rewrite app_nil_r.
  - destruct (byte_eqb c sep) eqn:E.
    + apply byte_eqb_eq in E. subst c.
      pose proof (split_go_nonempty sep s []) as Hne.
      pose proof (IH []) as Hj.
      destruct (Strings.split_go sep [] s) as [|x l]; [congruence|].
      change (Strings.join [sep] (rev acc :: x :: l))
        with (rev acc ++ [sep] ++ Strings.join [sep] (x :: l)).
      rewrite Hj. reflexivity.
    + rewrite IH. cbn [rev]. now rewrite <- app_assoc.
Qed.

Lemma split_go_fields sep : forall s acc,
  ~ In sep acc ->
  Forall (fun x => ~ In sep x) (Strings.split_go sep acc s).
Proof.
  induction s as [|c s IH]; intros acc Hacc; cbn [Strings.split_go].
  - constructor; [|constructor]. now rewrite <- in_rev.
  - destruct (byte_eqb c sep) eqn:E.
    + constructor; [now rewrite <- in_rev|]. apply IH. intros [].
    + apply IH. apply byte_eqb_neq in E. intros [->|H]; auto.
Qed.

Lemma split_go_first sep : forall s acc,
  hd [] (Strings.split_go sep acc s) = [] <->
  acc = [] /\ (s = [] \/ exists rest, s = sep :: rest).
Proof.
  induction s as [|c s IH]; intros acc; cbn [Strings.split_go].
  - cbn [hd]. split.
    + intros H. split; [|now left]. destruct acc as [|a acc]; [reflexivity|].
      apply (f_equal (@length _)) in H. rewrite length_rev in H. discriminate.
    + intros [-> _]. reflexivity.
  - destruct (byte_eqb c sep) eqn:E.
    + apply byte_eqb_eq in E. subst c. cbn [hd]. split.
      * intros H. split; [|right; eauto]. destruct acc as [|a acc]; [reflexivity|].
        apply (f_equal (@length _)) in H. rewrite length_rev in H. discriminate.
      * intros [-> _]. reflexivity.
    + rewrite IH. apply byte_eqb_neq in E. split.
      * intros [[=] _].
      * intros [_ [[=]|(rest & [= -> _])]]. congruence.
Qed.

(** [strings.Split(text, " ")], then the command and its arguments. *)
Lemma Split_fields text :
  let fields := Strings.Split text " "%char in
  Strings.Join (hd ""%string fields :: tl fields) " " = text /\
  Forall (fun a => ~ In " "%char (unstr a)) (hd ""%string fields :: tl fields) /\
  (hd ""%string fields = ""%string <->
   text = ""%string \/ exists rest, text = String " " rest).
Proof.
  cbn zeta. unfold Strings.Split.
  pose proof (split_go_nonempty " "%char (unstr text) []) as Hne.
  pose proof (join_split_go " "%char (unstr text) []) as Hj.
  pose proof (split_go_fields " "%char (unstr text) [] (fun H => H)) as Hf.
  pose proof (split_go_first " "%char (unstr text) []) as H1.
  destruct (Strings.split_go " "%char [] (unstr text)) as [|x l]; [congruence|].
  cbn [map hd tl]. split; [|split].
  - unfold Strings.Join. cbn [map].
    rewrite list_ascii_of_string_of_list_ascii.
    replace (map unstr (map str l)) with l.
    2:{ rewrite map_map. symmetry. erewrite map_ext; [apply map_id|].
        intros a. apply list_ascii_of_string_of_list_ascii. }
    change (unstr " ") with [" "%char]. rewrite Hj. cbn [rev app].
    apply string_of_list_ascii_of_string.
  - change (Forall (fun a => ~ In " "%char (unstr a)) (map str (x :: l))).
    apply List.Forall_map. eapply List.Forall_impl; [|exact Hf].
    intros a Ha. now rewrite list_ascii_of_string_of_list_ascii.
  - cbn [hd] in H1. split.
    + intros Hx. assert (x = []).
      { apply (f_equal unstr) in Hx.
        now rewrite list_ascii_of_string_of_list_ascii in Hx. }
      apply H1 in H as [_ [Ht|(rest & Ht)]].
      * left. apply unstr_inj. exact Ht.
      * right. exists (str rest). apply unstr_inj.
        cbn [unstr]. now rewrite list_ascii_of_string_of_list_ascii.
    + intros Ht. assert (Hx : x = []).
      { apply H1. split; [reflexivity|].
        destruct Ht as [->|(rest & ->)]; [now left|right].
        exists (unstr rest). reflexivity. }
      now subst x.
Qed.

Section StartupFacts.

Variable ParseDuration : string -> option Duration.
Variable Compile : string -> option Pattern.

(** What a successful construction tells. *)
Lemma NewScanner_ok cfg logFile addressFile timeoutDir patterns w w' s :
  NewScanner ParseDuration Compile cfg logFile addressFile timeoutDir patterns w
    = (w', Ok s) ->
  exists timeout interval compiled content addrs entries',
    ParseDuration (timeout_seconds cfg +:+ "s") = Some timeout /\
    ParseDuration (interval_seconds cfg +:+ "s") = Some interval /\
    compileAll Compile patterns [] = Ok compiled /\
    s = mkScanner logFile addressFile timeoutDir timeout interval compiled
          (hd ""%string (Strings.Split (add_command cfg) " "%char))
          (tl (Strings.Split (add_command cfg) " "%char))
          (hd ""%string (Strings.Split (delete_command cfg) " "%char))
          (tl (Strings.Split (delete_command cfg) " "%char))
          (verbose_flag cfg) /\
    addressPath w' = FileOf content /\
    (addressPath w = FileOf content \/
     addressPath w = FileMissing /\ content = ""%string) /\
    parseAddresses addressFile content = Ok addrs /\
    timeoutPath w' = DirOf entries' /\
    (timeoutPath w = DirMissing \/ exists entries, timeoutPath w = DirOf entries) /\
    (forall entries name node,
       timeoutPath w = DirOf entries -> lookupEntry name entries = Some node ->
       lookupEntry name entries' = Some node) /\
    (forall a, In a addrs -> IsFile_timeout a w' = true) /\
    clock w' = clock w /\ commandOk w' = commandOk w.
Proof.
  unfold NewScanner.
  destruct (ParseDuration (timeout_seconds cfg +:+ "s")) as [timeout|] eqn:Et;
    [|discriminate].
  destruct (ParseDuration (interval_seconds cfg +:+ "s")) as [interval|] eqn:Ei;
    [|discriminate].
  unfold_go.
  destruct (compileAll Compile patterns []) as [compiled|] eqn:Ec; [|discriminate].
  cbn [fst snd].
  set (s0 := mkScanner _ _ _ _ _ _ _ _ _ _ _).
  intros H. exists timeout, interval, compiled.
  assert (G : forall w1 eD,
    timeoutPath w1 = DirOf eD -> addressPath w1 = addressPath w ->
    clock w1 = clock w -> commandOk w1 = commandOk w ->
    (let (w'1, r0) :=
       (if negb (IsFile_address w1)
        then os_WriteFile_address addressFile ""
        else fun w0 : World => (w0, Ok tt)) w1 in
     match r0 with
     | Ok _ =>
         let (w'2, r1) := readAddressFile s0 w'1 in
         match r1 with
         | Ok a1 =>
             let (w'3, r2) := reconcile s0 a1 w'2 in
             match r2 with
             | Ok _ => (w'3, Ok s0)
             | Err e => (w'3, Err e)
             end
         | Err e => (w'2, Err e)
         end
     | Err e => (w'1, Err e)
     end) = (w', Ok s) ->
    exists content addrs entries',
      s = s0 /\ addressPath w' = FileOf content /\
      (addressPath w = FileOf content \/
       addressPath w = FileMissing /\ content = ""%string) /\
      parseAddresses addressFile content = Ok addrs /\
      timeoutPath w' = DirOf entries' /\
      (forall name node, lookupEntry name eD = Some node ->
                         lookupEntry name entries' = Some node) /\
      (forall a, In a addrs -> IsFile_timeout a w' = true) /\
      clock w' = clock w /\ commandOk w' = commandOk w).
  { intros w1 eD Hd1 Ha1 Hc1 Hk1. unfold IsFile_address, os_WriteFile_address.
    unfold_go. rewrite Ha1.
    assert (T : forall w2 content,
      timeoutPath w2 = DirOf eD -> addressPath w2 = FileOf content ->
      clock w2 = clock w -> commandOk w2 = commandOk w ->
      (addressPath w = FileOf content \/
       addressPath w = FileMissing /\ content = ""%string) ->
      (let (w'2, r1) := readAddressFile s0 w2 in
       match r1 with
       | Ok a1 =>
           let (w'3, r2) := reconcile s0 a1 w'2 in
           match r2 with
           | Ok _ => (w'3, Ok s0)
           | Err e => (w'3, Err e)
           end
       | Err e => (w'2, Err e)
       end) = (w', Ok s) ->
      exists content addrs entries',
        s = s0 /\ addressPath w' = FileOf content /\
        (addressPath w = FileOf content \/
         addressPath w = FileMissing /\ content = ""%string) /\
        parseAddresses addressFile content = Ok addrs /\
        timeoutPath w' = DirOf entries' /\
        (forall name node, lookupEntry name eD = Some node ->
                           lookupEntry name entries' = Some node) /\
        (forall a, In a addrs -> IsFile_timeout a w' = true) /\
        clock w' = clock w /\ commandOk w' = commandOk w).
    { intros w2 content Hd2 Ha2 Hc2 Hk2 Hor.
      rewrite readAddressFile_run. unfold watchlist. rewrite Ha2.
      cbn [AddressFile s0].
      destruct (parseAddresses addressFile content) as [addrs|] eqn:Ep;
        [|discriminate].
      destruct (reconcile s0 addrs (emit EvOpenAddressFile w2))
        as [w3 [[]|]] eqn:Er; [|discriminate].
      intros [= <- <-].
      destruct (reconcile_ok s0 addrs _ w3 eD Er Hd2)
        as ((Ra & Rc & Rk) & entries' & Rd & Rl & Rf).
      exists content, addrs, entries'.
      split; [reflexivity|]. split; [rewrite Ra; exact Ha2|].
      split; [exact Hor|]. split; [exact Ep|]. split; [exact Rd|].
      split; [exact Rl|]. split; [exact Rf|].
      split; [rewrite Rc; exact Hc2 | rewrite Rk; exact Hk2]. }
    destruct (addressPath w) as [| |content] eqn:Ha; cbn [negb emit addressPath].
    - rewrite Ha1. apply (T _ ""%string); auto.
    - rewrite Ha1. discriminate.
    - apply (T w1 content); auto. }
  unfold IsDir, os_Mkdir in H. unfold_go.
  destruct (timeoutPath w) as [| |eD] eqn:Hd; cbn [negb emit timeoutPath] in H.
  - rewrite Hd in H.
    apply (G _ []) in H as (content & addrs & entries' & Hs & R); auto.
    exists content, addrs, entries'. do 3 (split; [reflexivity|]).
    split; [exact Hs|].
    destruct R as (R1 & R2 & R3 & R4 & R5 & R6 & R7).
    split; [exact R1|]. split; [exact R2|]. split; [exact R3|].
    split; [exact R4|]. split; [now left|].
    split; [intros ? ? ? [=]|]. split; [exact R6 | exact R7].
  - rewrite Hd in H. discriminate.
  - apply (G w eD) in H as (content & addrs & entries' & Hs & R); auto.
    exists content, addrs, entries'. do 3 (split; [reflexivity|]).
    split; [exact Hs|].
    destruct R as (R1 & R2 & R3 & R4 & R5 & R6 & R7).
    split; [exact R1|]. split; [exact R2|]. split; [exact R3|].
    split; [exact R4|]. split; [right; eauto|].
    split; [intros ? ? ? [= <-]; apply R5|]. split; [exact R6 | exact R7].
Qed.

(** Property X12.  The configuration is checked before anything is
    touched.  A timeout or an interval that [time.ParseDuration] refuses, or
    a pattern that [regexp.Compile] refuses, makes [NewScanner] return the
    error of that check, the durations first, then the patterns in their
    order, and in each case with no effect at all: no directory or file is
    created, read or written. *)
Theorem invalid_configuration_has_no_effect cfg logFile addressFile timeoutDir
    patterns w :
  (ParseDuration (timeout_seconds cfg +:+ "s") = None ->
   NewScanner ParseDuration Compile cfg logFile addressFile timeoutDir patterns w
   = (w, Err (Errorf "ParseDuration (timeout_seconds) failed"
                (SyntaxError "time" (timeout_seconds cfg))))) /\
  (forall timeout,
     ParseDuration (timeout_seconds cfg +:+ "s") = Some timeout ->
     ParseDuration (interval_seconds cfg +:+ "s") = None ->
     NewScanner ParseDuration Compile cfg logFile addressFile timeoutDir patterns w
     = (w, Err (Errorf "ParseDuration (interval_seconds) failed"
                  (SyntaxError "time" (interval_seconds cfg))))) /\
  (forall timeout interval,
     ParseDuration (timeout_seconds cfg +:+ "s") = Some timeout ->
     ParseDuration (interval_seconds cfg +:+ "s") = Some interval ->
     (exists p, In p patterns /\ Compile p = None) ->
     exists bad,
       In bad patterns /\ Compile bad = None /\
       NewScanner ParseDuration Compile cfg logFile addressFile timeoutDir patterns w
       = (w, Err (Errorf "failed regex compile" (SyntaxError "regexp" bad)))).
Proof.
  split; [|split].
  - intros Ht. unfold NewScanner. now rewrite Ht.
  - intros timeout Ht Hi. unfold NewScanner. now rewrite Ht, Hi.
  - intros timeout interval Ht Hi Hbad.
    destruct (compileAll_bad Compile patterns Hbad) as (bad & Hin & Hc & He).
    exists bad. split; [exact Hin|]. split; [exact Hc|].
    unfold NewScanner. rewrite Ht, Hi. unfold_go. now rewrite He.
Qed.

(** Property X13.  After construction every listed address has a record.
    When [NewScanner] returns a scanner, each address of the watchlist has
    a regular file of its name in the timeout directory; the entries that
    the directory had are all still there, unchanged, and so is the content
    of a watchlist file that existed. *)
Theorem every_listed_address_has_a_record cfg logFile addressFile timeoutDir
    patterns w w' s :
  NewScanner ParseDuration Compile cfg logFile addressFile timeoutDir patterns w
    = (w', Ok s) ->
  exists addrs entries',
    watchlist s w' = Ok addrs /\ timeoutPath w' = DirOf entries' /\
    (forall a, In a addrs ->
       exists d, lookupEntry a entries' = Some (Regular d)) /\
    (forall entries name node,
       timeoutPath w = DirOf entries -> lookupEntry name entries = Some node ->
       lookupEntry name entries' = Some node) /\
    (forall content, addressPath w = FileOf content ->
                     addressPath w' = FileOf content).
Proof.
  intros H.
  destruct (NewScanner_ok _ _ _ _ _ _ _ _ H)
    as (timeout & interval & compiled & content & addrs & entries' &
        _ & _ & _ & -> & Ha & Hor & Hp & Hd & _ & Hl & Hf & _).
  exists addrs, entries'. split; [|split; [exact Hd|split; [|split; [exact Hl|]]]].
  - unfold watchlist. rewrite Ha. exact Hp.
  - intros a Hin. apply Hf, IsFile_timeout_spec in Hin
      as (_ & e0 & d & He0 & Hlk).
    rewrite Hd in He0. injection He0 as <-. eauto.
  - intros c Hc. destruct Hor as [Hor|[Hor _]]; congruence.
Qed.

(** Property X14.  A first start creates both stores.  With a valid
    configuration, no timeout directory and no watchlist file,
    [NewScanner] makes the directory, writes an empty watchlist file, reads
    it back as the empty list and returns the scanner, with the compiled
    patterns in the order of the configuration. *)
Theorem first_start_creates_both_stores cfg logFile addressFile timeoutDir
    patterns w timeout interval compiled :
  ParseDuration (timeout_seconds cfg +:+ "s") = Some timeout ->
  ParseDuration (interval_seconds cfg +:+ "s") = Some interval ->
  compileAll Compile patterns [] = Ok compiled ->
  timeoutPath w = DirMissing -> addressPath w = FileMissing ->
  exists w' s,
    NewScanner ParseDuration Compile cfg logFile addressFile timeoutDir patterns w
      = (w', Ok s) /\
    timeoutPath w' = DirOf [] /\ addressPath w' = FileOf "" /\
    watchlist s w' = Ok [] /\
    trace w' = trace w ++ [EvMkdir; EvWriteAddressFile ""; EvOpenAddressFile] /\
    AddressTimeout s = timeout /\ TickInterval s = interval /\
    Forall2 (fun p re => Compile p = Some re) patterns (Patterns s).
Proof.
  intros Ht Hi Hc Hd Ha. unfold NewScanner. rewrite Ht, Hi. unfold_go.
  rewrite Hc. cbn [fst snd]. unfold IsDir, os_Mkdir. unfold_go.
  rewrite Hd. cbn [negb emit timeoutPath]. rewrite Hd.
  unfold IsFile_address, os_WriteFile_address. unfold_go.
  change (addressPath (setTimeoutPath (DirOf []) (emit EvMkdir w)))
    with (addressPath w).
  rewrite Ha. cbn [negb]. cbv beta.
  change (addressPath (emit (EvWriteAddressFile "")
            (setTimeoutPath (DirOf []) (emit EvMkdir w))))
    with (addressPath w).
  rewrite Ha. cbv beta iota.
  rewrite readAddressFile_run. unfold watchlist.
  cbn [setAddressPath addressPath emit AddressFile].
  change (parseAddresses addressFile "") with (@Ok (list string) []).
  cbn [reconcile]. unfold ret.
  do 2 eexists. split; [reflexivity|]. cbn.
  rewrite <- !app_assoc. repeat split.
  now apply compileAll_ok.
Qed.

(** Property X15.  The command lines are split at single blanks.  The
    scanner that [NewScanner] returns has, for each of the two hooks, the
    first field of the configured line as command and the other fields as
    arguments: joined with blanks they give the line back, and no field
    holds a blank.  The command is empty, which turns the hook off, exactly
    when the line is empty or starts with a blank. *)
Theorem command_line_is_split_at_blanks cfg logFile addressFile timeoutDir
    patterns w w' s :
  NewScanner ParseDuration Compile cfg logFile addressFile timeoutDir patterns w
    = (w', Ok s) ->
  (Strings.Join (AddCommand s :: AddArgs s) " " = add_command cfg /\
   Forall (fun a => ~ In " "%char (unstr a)) (AddCommand s :: AddArgs s) /\
   (AddCommand s = ""%string <->
    add_command cfg = ""%string \/ exists rest, add_command cfg = String " " rest)) /\
  (Strings.Join (DeleteCommand s :: DeleteArgs s) " " = delete_command cfg /\
   Forall (fun a => ~ In " "%char (unstr a)) (DeleteCommand s :: DeleteArgs s) /\
   (DeleteCommand s = ""%string <->
    delete_command cfg = ""%string \/
    exists rest, delete_command cfg = String " " rest)).
Proof.
  intros H.
  destruct (NewScanner_ok _ _ _ _ _ _ _ _ H)
    as (timeout & interval & compiled & content & addrs & entries' &
        _ & _ & _ & -> & _).
  cbn [AddCommand AddArgs DeleteCommand DeleteArgs].
  split; [apply (Split_fields (add_command cfg))
         |apply (Split_fields (delete_command cfg))].
Qed.

(** Property X16.  A restart changes nothing.  When [NewScanner] has
    returned a scanner, the same call on the state it left returns the same
    scanner, and does nothing but open the watchlist file to read it: every
    check finds what the first call left. *)
Theorem restart_changes_nothing cfg logFile addressFile timeoutDir patterns
    w w1 s :
  NewScanner ParseDuration Compile cfg logFile addressFile timeoutDir patterns w
    = (w1, Ok s) ->
  NewScanner ParseDuration Compile cfg logFile addressFile timeoutDir patterns w1
    = (emit EvOpenAddressFile w1, Ok s).
Proof.
  intros H.
  destruct (NewScanner_ok _ _ _ _ _ _ _ _ H)
    as (timeout & interval & compiled & content & addrs & entries' &
        Ht & Hi & Hc & -> & Ha & _ & Hp & Hd & _ & _ & Hf & _).
  rewrite (NewScanner_run ParseDuration Compile cfg logFile addressFile
             timeoutDir patterns w1 timeout interval compiled content Ht Hi Hc Ha).
  cbv zeta. unfold IsDir. rewrite Hd. cbn [negb]. unfold ret at 1.
  rewrite Hp. unfold bind. rewrite reconcile_present; [reflexivity|].
  intros a Hin. specialize (Hf a Hin).
  unfold IsFile_timeout in *. exact Hf.
Qed.

End StartupFacts.

Module LifecycleFacts.
Import Coordinator Lifecycle CoordinatorFacts.

(** * Worker exit and [Stop] *)

Lemma stopChan_set k j c r :
  stopChan j (setStopChan k c r) = if decide (j = k) then c else stopChan j r.
Proof. destruct k, j; reflexivity. Qed.

(** What a notification does to the channels. *)
Lemma notify_channels k r r' :
  notify k r = Finished r' ->
  forall j,
    stopChan j r' =
    if decide (j = k) then
      match active r !! key k with
      | Some _ => mkChan (S (queued (stopChan k r))) false
      | None => stopChan k r
      end
    else stopChan j r.
Proof.
  unfold notify. destruct (active r !! key k).
  - destruct (closed (stopChan k r)); [discriminate|].
    destruct (queued (stopChan k r) <? capacity)%nat; [|discriminate].
    intros [= <-] j. destruct k, j; reflexivity.
  - intros [= <-] j. destruct (decide (j = k)); congruence.
Qed.

Lemma notify_closed k r r' :
  notify k r = Finished r' ->
  forall j, closed (stopChan j r') = closed (stopChan j r).
Proof.
  intros H j. rewrite (notify_channels k r r' H j).
  destruct (decide (j = k)) as [->|]; [|reflexivity].
  unfold notify in H. destruct (active r !! key k); [|reflexivity].
  destruct (closed (stopChan k r)); [discriminate | reflexivity].
Qed.

(** A notification goes through when the channel of an active worker is
    open and empty. *)
Lemma notify_ok k r :
  (is_Some (active r !! key k) ->
   closed (stopChan k r) = false /\ queued (stopChan k r) = 0%nat) ->
  exists r', notify k r = Finished r'.
Proof.
  intros H. unfold notify. destruct (active r !! key k) as [v|]; [|eauto].
  destruct H as [-> ->]; [eauto|]. cbn. eauto.
Qed.

Lemma stopTail_channels r j : stopChan j (stopTail r) = stopChan j r.
Proof.
  unfold stopTail. destruct (tail r) as [cmd|]; [|reflexivity].
  destruct (Process cmd); destruct j; reflexivity.
Qed.

(** The channels after the teardown: one more notification for each active
    worker. *)
Lemma shutdown_channels caller r r' :
  active r !! marker = None -> shutdown caller r = Finished r' ->
  forall j,
    stopChan j r' =
    match active r !! key j with
    | Some _ => mkChan (S (queued (stopChan j r))) false
    | None => stopChan j r
    end.
Proof.
  intros Hm. unfold shutdown. destruct (shutdownLock r); [discriminate|].
  cbn [setLock active]. rewrite Hm.
  set (r0 := stopTail _).
  assert (C0 : forall j, stopChan j r0 = stopChan j r).
  { intros j. subst r0. rewrite stopTail_channels. destruct j; reflexivity. }
  assert (A0 : forall j, active r0 !! key j = active r !! key j).
  { intros j. subst r0.
    destruct (stopTail_spec (setActive (<[marker:=VString caller]> (active r))
                (setLock true r))) as (_ & -> & _).
    cbn [setActive active]. apply lookup_insert_ne, not_eq_sym, key_marker. }
  destruct (notify Reaper r0) as [r1| |] eqn:E1; try discriminate.
  pose proof (notify_channels _ _ _ E1) as C1.
  apply notify_Finished in E1 as (_ & A1 & _).
  cbn [andThen].
  destruct (notify Tailer r1) as [r2| |] eqn:E2; try discriminate.
  pose proof (notify_channels _ _ _ E2) as C2.
  apply notify_Finished in E2 as (_ & A2 & _).
  cbn [andThen].
  destruct (notify Handler r2) as [r3| |] eqn:E3; try discriminate.
  pose proof (notify_channels _ _ _ E3) as C3.
  apply notify_Finished in E3 as (_ & A3 & _).
  cbn [unlocking]. intros [= <-] j.
  replace (stopChan j (setLock false r3)) with (stopChan j r3)
    by (destruct j; reflexivity).
  destruct j.
  - rewrite (C3 Reaper), decide_False by discriminate.
    rewrite (C2 Reaper), decide_False by discriminate.
    rewrite (C1 Reaper), decide_True by reflexivity.
    now rewrite A0, C0.
  - rewrite (C3 Tailer), decide_False by discriminate.
    rewrite (C2 Tailer), decide_True by reflexivity.
    rewrite A1, A0, (C1 Tailer), decide_False by discriminate.
    now rewrite C0.
  - rewrite (C3 Handler), decide_True by reflexivity.
    rewrite A2, A1, A0, (C2 Handler), decide_False by discriminate.
    rewrite (C1 Handler), decide_False by discriminate.
    now rewrite C0.
Qed.

(** An invocation that returns leaves the marker stored and the lock
    free, and closes no channel. *)
Lemma shutdown_returns caller r r' :
  shutdown caller r = Finished r' ->
  is_Some (active r' !! marker) /\ shutdownLock r' = false /\
  forall j, closed (stopChan j r') = closed (stopChan j r).
Proof.
  intros H. destruct (active r !! marker) as [v|] eqn:Hm.
  - assert (Hl : shutdownLock r = false).
    { unfold shutdown in H. destruct (shutdownLock r); [discriminate|reflexivity]. }
    rewrite shutdown_marked in H by (rewrite ?Hm; eauto).
    injection H as <-. rewrite Hm. eauto.
  - destruct (shutdown_first caller r r' Hm H) as (Ha & _ & Hl & _).
    split; [rewrite Ha, lookup_insert_eq; eauto|]. split; [exact Hl|].
    intros j. rewrite (shutdown_channels caller r r' Hm H j).
    destruct (active r !! key j) eqn:Ej; [|reflexivity]. cbn.
    (* a notification was sent on this channel: it was open *)
    unfold shutdown in H. destruct (shutdownLock r); [discriminate|].
    cbn [setLock active] in H. rewrite Hm in H.
    set (r0 := stopTail _) in H.
    assert (C0 : forall j, stopChan j r0 = stopChan j r).
    { intros k. subst r0. rewrite stopTail_channels. destruct k; reflexivity. }
    assert (A0 : forall j, active r0 !! key j = active r !! key j).
    { intros k. subst r0.
      destruct (stopTail_spec (setActive (<[marker:=VString caller]> (active r))
                  (setLock true r))) as (_ & -> & _).
      cbn [setActive active]. apply lookup_insert_ne, not_eq_sym, key_marker. }
    destruct (notify Reaper r0) as [r1| |] eqn:E1; try discriminate.
    pose proof (notify_closed _ _ _ E1) as K1.
    pose proof (notify_Finished _ _ _ E1) as (_ & A1 & _).
    cbn [andThen] in H.
    destruct (notify Tailer r1) as [r2| |] eqn:E2; try discriminate.
    pose proof (notify_closed _ _ _ E2) as K2.
    pose proof (notify_Finished _ _ _ E2) as (_ & A2 & _).
    cbn [andThen] in H.
    destruct (notify Handler r2) as [r3| |] eqn:E3; try discriminate.
    clear H. symmetry.
    destruct j.
    + unfold notify in E1. rewrite A0, Ej in E1. rewrite <- C0.
      destruct (closed (stopChan Reaper r0)); [discriminate|reflexivity].
    + unfold notify in E2. rewrite A1, A0, Ej in E2.
      rewrite <- C0, <- K1.
      destruct (closed (stopChan Tailer r1)); [discriminate|reflexivity].
    + unfold notify in E3. rewrite A2, A1, A0, Ej in E3.
      rewrite <- C0, <- K1, <- K2.
      destruct (closed (stopChan Handler r2)); [discriminate|reflexivity].
Qed.

(** An invocation returns when the lock is free and, if the teardown is
    still to do, the channel of every active worker is open and empty. *)
Lemma shutdown_ok caller r :
  shutdownLock r = false ->
  (active r !! marker = None ->
   forall k, is_Some (active r !! key k) ->
             closed (stopChan k r) = false /\ queued (stopChan k r) = 0%nat) ->
  exists r', shutdown caller r = Finished r'.
Proof.
  intros Hl Hc. destruct (active r !! marker) as [v|] eqn:Hm.
  - exists r. apply shutdown_marked; [rewrite Hm; eauto | exact Hl].
  - specialize (Hc eq_refl). unfold shutdown. rewrite Hl.
    cbn [setLock active]. rewrite Hm.
    set (r0 := stopTail _).
    assert (C0 : forall j, stopChan j r0 = stopChan j r).
    { intros k. subst r0. rewrite stopTail_channels. destruct k; reflexivity. }
    assert (A0 : forall j, active r0 !! key j = active r !! key j).
    { intros k. subst r0.
      destruct (stopTail_spec (setActive (<[marker:=VString caller]> (active r))
                  (setLock true r))) as (_ & -> & _).
      cbn [setActive active]. apply lookup_insert_ne, not_eq_sym, key_marker. }
    destruct (notify_ok Reaper r0) as [r1 E1].
    { rewrite A0, C0. apply Hc. }
    rewrite E1. cbn [andThen].
    pose proof (notify_channels _ _ _ E1) as C1.
    pose proof (notify_Finished _ _ _ E1) as (_ & A1 & _).
    destruct (notify_ok Tailer r1) as [r2 E2].
    { rewrite A1, A0, (C1 Tailer), decide_False by discriminate.
      rewrite C0. apply Hc. }
    rewrite E2. cbn [andThen].
    pose proof (notify_channels _ _ _ E2) as C2.
    pose proof (notify_Finished _ _ _ E2) as (_ & A2 & _).
    destruct (notify_ok Handler r2) as [r3 E3].
    { rewrite A2, A1, A0, (C2 Handler), decide_False by discriminate.
      rewrite (C1 Handler), decide_False by discriminate.
      rewrite C0. apply Hc. }
    rewrite E3. cbn [unlocking]. eauto.
Qed.

Lemma closeStop_run k r :
  closed (stopChan k r) = false ->
  closeStop k r = Finished (setStopChan k (mkChan (queued (stopChan k r)) true) r).
Proof. unfold closeStop. now intros ->. Qed.

(** [Stop], step by step. *)
Lemma Stop_run r r1 :
  shutdown "stop" r = Finished r1 ->
  (forall k, closed (stopChan k r) = false) ->
  Stop r =
  Finished (setStopChan Handler (mkChan (queued (handlerStop r1)) true)
           (setStopChan Tailer (mkChan (queued (scannerStop r1)) true)
           (setStopChan Reaper (mkChan (queued (reaperStop r1)) true) r1))).
Proof.
  intros H Hc. unfold Stop. rewrite H. cbn [andThen].
  destruct (shutdown_returns _ _ _ H) as (_ & _ & Hk).
  rewrite closeStop_run by (rewrite Hk; apply Hc). cbn [andThen].
  rewrite closeStop_run
    by (rewrite stopChan_set, decide_False by discriminate; rewrite Hk; apply Hc).
  cbn [andThen].
  rewrite closeStop_run
    by (rewrite !stopChan_set, !decide_False by discriminate; rewrite Hk; apply Hc).
  reflexivity.
Qed.

Lemma closeStop_Finished k r r' :
  closeStop k r = Finished r' ->
  closed (stopChan k r) = false /\
  r' = setStopChan k (mkChan (queued (stopChan k r)) true) r.
Proof.
  unfold closeStop. destruct (closed (stopChan k r)); [discriminate|].
  now intros [= <-].
Qed.

Lemma Stop_Finished r r' :
  Stop r = Finished r' ->
  exists r1,
    shutdown "stop" r = Finished r1 /\
    (forall k, closed (stopChan k r1) = false) /\
    r' = setStopChan Handler (mkChan (queued (handlerStop r1)) true)
           (setStopChan Tailer (mkChan (queued (scannerStop r1)) true)
           (setStopChan Reaper (mkChan (queued (reaperStop r1)) true) r1)).
Proof.
  unfold Stop. destruct (shutdown "stop" r) as [r1| |] eqn:E; try discriminate.
  cbn [andThen].
  destruct (closeStop Reaper r1) as [r2| |] eqn:E2; try discriminate.
  apply closeStop_Finished in E2 as [K1 ->]. cbn [andThen].
  destruct (closeStop Tailer _) as [r3| |] eqn:E3; try discriminate.
  apply closeStop_Finished in E3 as [K2 ->]. cbn [andThen].
  intros E4. apply closeStop_Finished in E4 as [K3 ->].
  exists r1. split; [reflexivity|]. split; [|reflexivity].
  intros []; assumption.
Qed.

(** Property X17.  [Stop] tears down once and closes the channels.  On a
    scanner whose stop channels are open, and empty if the teardown is
    still to do, [Stop] returns: it does the teardown unless an invocation
    of [shutdown] has done it before, closes the three stop channels, and
    leaves the marker stored, so that every later invocation of [shutdown],
    the deferred one of each worker included, returns at once and sends
    nothing on a closed channel. *)
Theorem Stop_tears_down_then_closes r :
  shutdownLock r = false ->
  (forall k, closed (stopChan k r) = false) ->
  (active r !! marker = None ->
   forall k, is_Some (active r !! key k) -> queued (stopChan k r) = 0%nat) ->
  exists r',
    Stop r = Finished r' /\
    (forall k, closed (stopChan k r') = true) /\
    is_Some (active r' !! marker) /\
    done r' = done r ++ match active r !! marker with
                       | Some _ => []
                       | None => teardownActions r
                       end /\
    (forall caller, shutdown caller r' = Finished r') /\
    (forall k, workerExit k r' =
               Finished (setActive (delete (key k) (active r')) r')).
Proof.
  intros Hl Hc Hq.
  destruct (shutdown_ok "stop" r Hl) as [r1 H1].
  { intros Hm k Hk. split; [apply Hc | now apply Hq]. }
  destruct (shutdown_returns _ _ _ H1) as (Hm1 & Hl1 & Hk1).
  eexists. split; [apply (Stop_run r r1 H1 Hc)|].
  set (r' := setStopChan Handler _ _).
  assert (Ha : active r' = active r1) by reflexivity.
  assert (Hl' : shutdownLock r' = false) by exact Hl1.
  assert (Hm' : is_Some (active r' !! marker)) by (rewrite Ha; exact Hm1).
  split; [intros []; reflexivity|]. split; [exact Hm'|]. split.
  - change (done r') with (done r1).
    destruct (active r !! marker) as [v|] eqn:Hm.
    + rewrite shutdown_marked in H1 by (rewrite ?Hm; eauto).
      injection H1 as <-. now rewrite app_nil_r.
    + now destruct (shutdown_first _ _ _ Hm H1) as (_ & _ & _ & ->).
  - split.
    + intros caller. now apply shutdown_marked.
    + intros k. unfold workerExit. apply shutdown_marked; [|exact Hl'].
      cbn [setActive active]. rewrite lookup_delete_ne by apply key_marker.
      exact Hm'.
Qed.

(** Property X18.  [Stop] can be called once.  After a call of [Stop] that
    returned, a second call panics: its [shutdown] finds the marker and
    returns, and the first [close] is then of a channel that is closed
    already; nothing is torn down a second time. *)
Theorem Stop_twice_panics r r' :
  Stop r = Finished r' -> Stop r' = Panicked r'.
Proof.
  intros H. apply Stop_Finished in H as (r1 & H1 & Hc & ->).
  destruct (shutdown_returns _ _ _ H1) as (Hm1 & Hl1 & _).
  set (r' := setStopChan Handler _ _).
  unfold Stop. rewrite shutdown_marked; [|exact Hm1|exact Hl1].
  reflexivity.
Qed.

(** Property X19.  The worker that exits first stops the others, not
    itself.  When no teardown has been done and a worker exits, its
    deferred function removes its own key and stores the marker under its
    name; a stop is sent to exactly the other workers that are marked
    active, one each, and none to the worker itself; every later exit of a
    worker only removes its key. *)
Theorem exiting_worker_notifies_the_others k r r' :
  active r !! marker = None -> workerExit k r = Finished r' ->
  active r' !! marker = Some (VString (key k)) /\
  active r' !! key k = None /\
  (forall j, In (Send j) (done r') <->
             In (Send j) (done r) \/ (j <> k /\ is_Some (active r !! key j))) /\
  (forall j, queued (stopChan j r') =
             if bool_decide (j <> k /\ is_Some (active r !! key j))
             then S (queued (stopChan j r)) else queued (stopChan j r)) /\
  (forall later, workerExit later r' =
                 Finished (setActive (delete (key later) (active r')) r')).
Proof.
  intros Hm H. unfold workerExit in H.
  set (r0 := setActive (delete (key k) (active r)) r) in *.
  assert (Hm0 : active r0 !! marker = None).
  { subst r0. cbn. rewrite lookup_delete_ne by apply key_marker. exact Hm. }
  assert (A0 : forall j, active r0 !! key j =
                         if decide (j = k) then None else active r !! key j).
  { intros j. subst r0. cbn. destruct (decide (j = k)) as [->|Hne].
    - apply lookup_delete_eq.
    - apply lookup_delete_ne. destruct j, k; try discriminate; congruence. }
  destruct (shutdown_first _ _ _ Hm0 H) as (Ha & _ & Hl & Hd).
  pose proof (shutdown_channels _ _ _ Hm0 H) as Hc.
  assert (Hmk : active r' !! marker = Some (VString (key k)))
    by (rewrite Ha; apply lookup_insert_eq).
  split; [exact Hmk|]. split.
  { rewrite Ha, lookup_insert_ne by (apply not_eq_sym, key_marker).
    rewrite A0. now rewrite decide_True. }
  split; [|split].
  - intros j. rewrite Hd, in_app_iff. change (done r0) with (done r).
    apply or_iff_compat_l. unfold teardownActions. rewrite in_app_iff.
    split.
    + intros [Hin|Hin].
      { destruct (tail r0) as [cmd|]; [destruct (Process cmd)|];
          cbn in Hin; intuition discriminate. }
      apply in_flat_map in Hin as (x & _ & Hx). rewrite A0 in Hx.
      destruct (decide (x = k)) as [->|Hne]; [destruct Hx|].
      destruct (active r !! key x) eqn:Ex; [|destruct Hx].
      destruct Hx as [[= <-]|[]]. split; [exact Hne | rewrite Ex; eauto].
    + intros [Hne [v Hv]]. right. apply in_flat_map. exists j.
      split; [destruct j; cbn; auto|].
      rewrite A0, decide_False, Hv by exact Hne. now left.
  - intros j. rewrite Hc, A0. change (stopChan j r0) with (stopChan j r).
    destruct (decide (j = k)) as [->|Hne].
    + rewrite bool_decide_false; [reflexivity|]. intros [Hn _]. congruence.
    + destruct (active r !! key j) eqn:Ej.
      * rewrite bool_decide_true; [reflexivity|]. split; [exact Hne | eauto].
      * rewrite bool_decide_false; [reflexivity|].
        intros [_ [v Hv]]. discriminate.
  - intros later. unfold workerExit. apply shutdown_marked; [|exact Hl].
    cbn [setActive active]. rewrite lookup_delete_ne by apply key_marker.
    rewrite Hmk. eauto.
Qed.

(** * The teardown never waits and never panics *)

Lemma snoc_lookup {A} (l : list A) x i y :
  (l ++ [x]) !! i = Some y -> l !! i = Some y \/ (i = length l /\ y = x).
Proof.
  intros H. apply lookup_app_Some in H as [H|[Hle H]]; [now left|].
  apply list_lookup_singleton_Some in H as [H ->]. right. split; [lia|reflexivity].
Qed.

Lemma Safe_initial : Safe initial.
Proof.
  split; cbn.
  - intros []; cbn; lia.
  - intros []; discriminate.
  - intros i c pc H. now rewrite lookup_nil in H.
  - discriminate.
Qed.

Lemma Safe_call s caller :
  Safe s -> Safe (mkSystem (shared s) (threads s ++ [(caller, AwaitLock)])).
Proof.
  intros [S1 S2 S3 S4]. split; cbn.
  - exact S1.
  - intros k Hk. destruct (S2 k Hk) as [Hm Ht]. split; [exact Hm|].
    intros i c pc H. apply snoc_lookup in H as [H|[_ [= _ ->]]]; eauto.
  - intros i c pc Hi Ht j d qc Hj Hne.
    apply snoc_lookup in Hi as [Hi|[_ [= _ ->]]]; [|discriminate].
    apply snoc_lookup in Hj as [Hj|[_ [= _ ->]]]; [|reflexivity].
    exact (S3 _ _ _ Hi Ht _ _ _ Hj Hne).
  - intros Hl. destruct (S4 Hl) as (i & c & pc & Hi & Hc).
    exists i, c, pc. split; [|exact Hc].
    apply lookup_app_l_Some. exact Hi.
Qed.

(** The thread at [Exit] that the discipline of [Stop] asks for. *)
Lemma stop_returned s :
  existsb (fun t => String.eqb (fst t) "stop" && bool_decide (snd t = Exit))
          (threads s) = true ->
  exists i c, threads s !! i = Some (c, Exit).
Proof.
  intros H. apply existsb_exists in H as ([c pc] & Hin & Ht).
  apply andb_true_iff in Ht as [_ Ht]. apply bool_decide_eq_true in Ht.
  cbn in Ht. subst pc. apply list_elem_of_In, list_elem_of_lookup in Hin as [i Hi].
  eauto.
Qed.

Lemma Safe_env n s a r' :
  Inv n s -> Safe s -> envStep a (shared s) = Some r' ->
  (forall k, a = CloseStop k -> exists i c, threads s !! i = Some (c, Exit)) ->
  Safe (mkSystem r' (threads s)).
Proof.
  intros [I1 I2 I3 I4 I5] [S1 S2 S3 S4] He Hstop.
  pose proof (envStep_frame _ _ _ He) as (Fm & Fl & Fd).
  assert (Marked : (exists i c, threads s !! i = Some (c, Exit)) ->
            is_Some (active (shared s) !! marker) /\
            forall i c pc, threads s !! i = Some (c, pc) -> tearing pc = false).
  { intros (i & c & Hi).
    assert (Hm : is_Some (active (shared s) !! marker)).
    { destruct (active (shared s) !! marker) eqn:E; [eauto|].
      destruct (I4 eq_refl) as (_ & _ & He'). specialize (He' _ _ _ Hi).
      discriminate. }
    split; [exact Hm|]. intros j d qc Hj.
    destruct (tearing qc) eqn:Et; [|reflexivity].
    assert (j <> i) by (intros ->; rewrite Hi in Hj; injection Hj as _ <-; discriminate).
    pose proof (S3 _ _ _ Hj Et _ _ _ Hi (not_eq_sym H)). discriminate. }
  split; cbn; rewrite ?Fm, ?Fl, ?Fd.
  - intros k Hk. apply S1.
    destruct a as [j|j|cmd|j|j]; cbn in He.
    + injection He as <-. destruct k; exact Hk.
    + injection He as <-. destruct k; exact Hk.
    + injection He as <-. destruct k; exact Hk.
    + destruct (queued (stopChan j (shared s))) eqn:Eq.
      * destruct (closed (stopChan j (shared s))); [|discriminate].
        injection He as <-. exact Hk.
      * injection He as <-. rewrite stopChan_set in Hk.
        destruct (decide (k = j)) as [->|]; [rewrite Eq; lia | exact Hk].
    + destruct (closed (stopChan j (shared s))); [discriminate|].
      injection He as <-. rewrite stopChan_set in Hk.
      destruct (decide (k = j)) as [->|]; exact Hk.
  - intros k Hk.
    destruct a as [j|j|cmd|j|j]; cbn in He.
    + injection He as <-. apply (S2 k). destruct k; exact Hk.
    + injection He as <-. apply (S2 k). destruct k; exact Hk.
    + injection He as <-. apply (S2 k). destruct k; exact Hk.
    + destruct (queued (stopChan j (shared s))) eqn:Eq.
      * destruct (closed (stopChan j (shared s))); [|discriminate].
        injection He as <-. now apply (S2 k).
      * injection He as <-. rewrite stopChan_set in Hk.
        destruct (decide (k = j)) as [->|]; apply (S2 _ Hk).
    + apply Marked. now apply (Hstop j).
  - exact S3.
  - exact S4.
Qed.

Lemma not_in_allowed k : ~ In (Send k) (allowed (Notify k)).
Proof. destruct k; cbn; intuition discriminate. Qed.

Lemma Safe_thread n s i caller pc pc' r' :
  Inv n s -> Safe s -> threads s !! i = Some (caller, pc) ->
  threadStep caller pc (shared s) = Some (pc', r') ->
  Safe (mkSystem r' (<[i := (caller, pc')]> (threads s))).
Proof.
  intros HI HS Hi Hs. pose proof HI as [I1 I2 I3 I4 I5].
  pose proof HS as [S1 S2 S3 S4].
  assert (Hlen : (i < length (threads s))%nat) by (eapply lookup_lt_Some; eauto).
  assert (Own : <[i:=(caller, pc')]> (threads s) !! i = Some (caller, pc'))
    by now apply list_lookup_insert_eq.
  assert (Upd : forall j d qc,
            <[i:=(caller, pc')]> (threads s) !! j = Some (d, qc) ->
            (j = i /\ d = caller /\ qc = pc') \/ (j <> i /\ threads s !! j = Some (d, qc))).
  { intros j d qc Hj.
    destruct (lookup_update _ _ _ _ _ _ Hi Hj) as [[-> [= -> ->]]|[Hne Hj']]; auto. }
  (* no invocation is in the teardown besides the one that moves *)
  assert (Alone : tearing pc = true ->
            forall j d qc, threads s !! j = Some (d, qc) -> j <> i -> qc = AwaitLock)
    by (intros Ht; exact (S3 _ _ _ Hi Ht)).
  assert (NoOther : critical pc = true ->
            forall j d qc, threads s !! j = Some (d, qc) -> j <> i ->
                           tearing qc = false).
  { intros Hc j d qc Hj Hne. destruct (tearing qc) eqn:Et; [|reflexivity].
    exfalso. apply Hne. eapply I2; eauto. destruct qc; try discriminate; reflexivity. }
  assert (Held : critical pc' = true ->
            exists j c qc, <[i:=(caller, pc')]> (threads s) !! j = Some (c, qc) /\
                           critical qc = true)
    by (intros Hc; exists i, caller, pc'; auto).
  destruct pc; cbn [threadStep] in Hs.
  - (* AwaitLock *)
    destruct (shutdownLock (shared s)) eqn:El; [discriminate|].
    injection Hs as <- <-.
    assert (Free : forall j d qc, threads s !! j = Some (d, qc) -> tearing qc = false).
    { intros j d qc Hj. destruct (tearing qc) eqn:Et; [|reflexivity].
      assert (critical qc = true) by (destruct qc; try discriminate; reflexivity).
      pose proof (I1 _ _ _ Hj H). congruence. }
    split; cbn.
    + exact S1.
    + intros k Hk. destruct (S2 k Hk) as [Hm Ht]. split; [exact Hm|].
      intros j d qc Hj. apply Upd in Hj as [(-> & -> & ->)|[_ Hj]]; eauto.
    + intros j d qc Hj Ht.
      apply Upd in Hj as [(-> & -> & ->)|[_ Hj]]; [discriminate|].
      rewrite (Free _ _ _ Hj) in Ht. discriminate.
    + intros _. now apply Held.
  - (* LoadMarker *)
    assert (Hmoved : pc' = Unlock \/ pc' = StoreMarker) by
      (destruct (active (shared s) !! marker); injection Hs as <- <-; auto).
    assert (Hr : r' = shared s) by
      (destruct (active (shared s) !! marker); now injection Hs as <- <-).
    subst r'.
    assert (Hnt : tearing pc' = false) by (destruct Hmoved as [->| ->]; reflexivity).
    split; cbn.
    + exact S1.
    + intros k Hk. destruct (S2 k Hk) as [Hm Ht]. split; [exact Hm|].
      intros j d qc Hj. apply Upd in Hj as [(-> & -> & ->)|[_ Hj]]; eauto.
    + intros j d qc Hj Ht.
      apply Upd in Hj as [(-> & -> & ->)|[Hne Hj]]; [congruence|].
      rewrite (NoOther eq_refl _ _ _ Hj Hne) in Ht. discriminate.
    + intros _. apply Held. destruct Hmoved as [->| ->]; reflexivity.
  - (* StoreMarker *)
    injection Hs as <- <-.
    assert (Hm : active (shared s) !! marker = None).
    { destruct (active (shared s) !! marker) as [v|] eqn:E; [|reflexivity].
      destruct (I5 (ex_intro _ v eq_refl)) as [_ H].
      destruct (H _ _ _ Hi) as [Hne _]. congruence. }
    destruct (I4 Hm) as (_ & _ & Hearly).
    split; cbn.
    + exact S1.
    + intros k Hk. exfalso.
      assert (Hk' : closed (stopChan k (shared s)) = true) by (destruct k; exact Hk).
      destruct (S2 k Hk') as [[v Hv] _]. congruence.
    + intros j d qc Hj Ht j' d' qc' Hj' Hne.
      apply Upd in Hj as [(-> & -> & ->)|[Hnej Hj]].
      * apply Upd in Hj' as [(-> & _)|[_ Hj']]; [congruence|].
        pose proof (Hearly _ _ _ Hj') as He.
        destruct (critical qc') eqn:Ec.
        { exfalso. apply Hne. eapply I2; eauto. }
        destruct qc'; try discriminate; reflexivity.
      * pose proof (Hearly _ _ _ Hj) as He. destruct qc; discriminate.
    + intros _. now apply Held.
  - (* StopTail *)
    injection Hs as <- <-.
    destruct (stopTail_spec (shared s)) as (_ & Ha & Hl & _ & _ & _ & Hd).
    split; cbn.
    + intros k Hk. rewrite Hd. apply in_or_app. left. apply S1.
      now rewrite stopTail_channels in Hk.
    + intros k Hk. exfalso. rewrite stopTail_channels in Hk.
      destruct (S2 k Hk) as [_ Ht]. specialize (Ht _ _ _ Hi). discriminate.
    + intros j d qc Hj Ht j' d' qc' Hj' Hne.
      apply Upd in Hj as [(-> & -> & ->)|[Hnej Hj]].
      * apply Upd in Hj' as [(-> & _)|[Hne' Hj']]; [congruence|].
        exact (Alone eq_refl _ _ _ Hj' Hne').
      * rewrite (NoOther eq_refl _ _ _ Hj Hnej) in Ht. discriminate.
    + intros _. now apply Held.
  - (* Notify *)
    destruct (notify k (shared s)) as [r1| |] eqn:En; try discriminate.
    injection Hs as <- <-.
    pose proof (notify_channels _ _ _ En) as Hc.
    pose proof (notify_closed _ _ _ En) as Hk0.
    pose proof (notify_Finished _ _ _ En) as (_ & Ha & Hl & Hd).
    split; cbn.
    + intros j Hj. rewrite Hd. apply in_or_app. rewrite Hc in Hj.
      destruct (decide (j = k)) as [->|Hne]; [|left; now apply S1].
      destruct (active (shared s) !! key k); [right; now left|left; now apply S1].
    + intros j Hj. exfalso. rewrite Hk0 in Hj.
      destruct (S2 j Hj) as [_ Ht]. specialize (Ht _ _ _ Hi). discriminate.
    + intros j d qc Hj Ht j' d' qc' Hj' Hne.
      apply Upd in Hj as [(-> & -> & ->)|[Hnej Hj]].
      * apply Upd in Hj' as [(-> & _)|[Hne' Hj']]; [congruence|].
        exact (Alone eq_refl _ _ _ Hj' Hne').
      * rewrite (NoOther eq_refl _ _ _ Hj Hnej) in Ht. discriminate.
    + intros _. apply Held. destruct k; reflexivity.
  - (* Unlock *)
    injection Hs as <- <-.
    split; cbn.
    + intros k Hk. apply S1. destruct k; exact Hk.
    + intros k Hk.
      assert (Hk' : closed (stopChan k (shared s)) = true) by (destruct k; exact Hk).
      destruct (S2 k Hk') as [Hm Ht]. split; [exact Hm|].
      intros j d qc Hj. apply Upd in Hj as [(-> & -> & ->)|[_ Hj]]; eauto.
    + intros j d qc Hj Ht.
      apply Upd in Hj as [(-> & -> & ->)|[Hne Hj]]; [discriminate|].
      rewrite (NoOther eq_refl _ _ _ Hj Hne) in Ht. discriminate.
    + discriminate.
  - discriminate.
Qed.

Lemma Safe_execute ls : forall n s s',
  Inv n s -> Safe s -> execute ls s = Some s' -> closesAfterStop ls s = true ->
  Inv (n + teardowns ls) s' /\ Safe s'.
Proof.
  induction ls as [|l ls IH]; intros n s s' HI HS.
  - cbn [execute]. intros [= <-] _. unfold teardowns. cbn.
    now rewrite Nat.add_0_r.
  - cbn [execute closesAfterStop].
    destruct (step l s) as [s1|] eqn:Hs; [|discriminate].
    intros He Hc. apply andb_true_iff in Hc as [Hc1 Hc2].
    rewrite teardowns_cons, Nat.add_assoc.
    apply (IH _ s1); [eapply Inv_step; eauto| |exact He|exact Hc2].
    destruct l as [caller|i pc|a]; cbn [step] in Hs.
    + injection Hs as <-. now apply Safe_call.
    + destruct (threads s !! i) as [[caller pc0]|] eqn:Hi; [|discriminate].
      destruct (decide (pc0 = pc)) as [->|]; [|discriminate].
      destruct (threadStep caller pc (shared s)) as [[pc' r']|] eqn:Ht;
        [|discriminate].
      injection Hs as <-. eapply Safe_thread; eauto.
    + destruct (envStep a (shared s)) as [r'|] eqn:Hv; [|discriminate].
      injection Hs as <-. eapply Safe_env; eauto.
      intros k ->. now apply stop_returned.
Qed.

(** Property X20.  The teardown never waits and never panics.  In every
    interleaving of invocations of [shutdown] with the workers and with
    [Stop], as long as the stop channels are closed by [Stop] after its own
    invocation has returned, the invocation that holds the lock can always
    run its next statement: a send of the teardown finds its channel open
    and with room, since the teardown is the only sender and sends once;
    and when no invocation is between [Lock] and [Unlock] the lock is free.
    No invocation is ever stuck. *)
Theorem teardown_never_blocks ls s :
  execute ls initial = Some s -> closesAfterStop ls initial = true ->
  (forall i caller pc,
     threads s !! i = Some (caller, pc) -> critical pc = true ->
     is_Some (threadStep caller pc (shared s))) /\
  ((forall i caller pc, threads s !! i = Some (caller, pc) -> critical pc = false) ->
   shutdownLock (shared s) = false).
Proof.
  intros He Hc.
  destruct (Safe_execute ls 0 initial s Inv_initial Safe_initial He Hc)
    as [[I1 I2 I3 I4 I5] [S1 S2 S3 S4]].
  split.
  - intros i caller pc Hi Hcrit.
    destruct pc; try discriminate; cbn [threadStep]; eauto.
    + destruct (active (shared s) !! marker); eauto.
    + assert (Hm : is_Some (active (shared s) !! marker)).
      { destruct (active (shared s) !! marker) eqn:E; [eauto|].
        destruct (I4 eq_refl) as (_ & _ & Hearly).
        specialize (Hearly _ _ _ Hi). discriminate. }
      destruct (I5 Hm) as [_ Hall]. destruct (Hall _ _ _ Hi) as [_ Hsub].
      unfold notify. destruct (active (shared s) !! key k) as [v|] eqn:Ek; [|eauto].
      destruct (closed (stopChan k (shared s))) eqn:Ecl.
      { destruct (S2 k Ecl) as [_ Ht]. specialize (Ht _ _ _ Hi). discriminate. }
      destruct (queued (stopChan k (shared s))) as [|q] eqn:Eq; [cbn; eauto|].
      exfalso. apply (not_in_allowed k).
      assert (Hin : In (Send k) (done (shared s))) by (apply S1; rewrite Eq; lia).
      apply list_elem_of_In. eapply elem_of_sublist; [|exact Hsub].
      now apply list_elem_of_In.
  - intros Hout. destruct (shutdownLock (shared s)) eqn:El; [|reflexivity].
    destruct (S4 eq_refl) as (i & c & pc & Hi & Hcrit).
    rewrite (Hout _ _ _ Hi) in Hcrit. discriminate.
Qed.

(** * [Run]: the error that is returned *)

Lemma errChan_set k j v c :
  errChan j (setErrChan k v c) = if decide (j = k) then v else errChan j c.
Proof. destruct k, j; reflexivity. Qed.

Lemma idle_spec c : idle c = true <-> forall k, errChan k c = None.
Proof.
  unfold idle. split.
  - destruct (reaperErr c) eqn:E1, (scannerErr c) eqn:E2, (handlerErr c) eqn:E3;
      try discriminate. intros _ []; assumption.
  - intros H. pose proof (H Reaper) as H1. pose proof (H Tailer) as H2.
    pose proof (H Handler) as H3. cbn in H1, H2, H3. now rewrite H1, H2, H3.
Qed.

Lemma failures_frame k rest c :
  ~ In k rest -> failures rest (setErrChan k None c) = failures rest c.
Proof.
  intros Hn. unfold failures. induction rest as [|j rest IH]; [reflexivity|].
  cbn [flat_map]. rewrite IH by (intros H; apply Hn; now right).
  rewrite errChan_set, decide_False; [reflexivity|].
  intros ->. apply Hn. now left.
Qed.

(** The loop of [Run], from any of its states. *)
Lemma drain_spec choices : forall d0 d,
  drain choices d0 = Some d ->
  idle (chans d) = true /\ List.NoDup choices /\
  (forall k, In k choices <-> is_Some (errChan k (chans d0))) /\
  match retval d0 with
  | Some e0 =>
      retval d = Some e0 /\
      logged d = logged d0 ++ failures choices (chans d0)
  | None =>
      match failures choices (chans d0) with
      | [] => retval d = None /\ logged d = logged d0
      | (k, e) :: rest => retval d = Some e /\ logged d = logged d0 ++ rest
      end
  end.
Proof.
  induction choices as [|k rest IH]; intros d0 d; cbn [drain].
  - destruct (idle (chans d0)) eqn:Ei; [|discriminate]. intros [= <-].
    split; [exact Ei|]. split; [constructor|]. split.
    + intros k. split; [intros []|]. intros [v Hv].
      rewrite (proj1 (idle_spec _) Ei k) in Hv. discriminate.
    + cbn. destruct (retval d0); rewrite ?app_nil_r; auto.
  - destruct (idle (chans d0)) eqn:Ei; [discriminate|].
    destruct (receive k d0) as [d1|] eqn:Er; [|discriminate].
    intros Hd. destruct (IH d1 d Hd) as (Hi & Hnd & Hin & Hres).
    unfold receive in Er.
    destruct (errChan k (chans d0)) as [err|] eqn:Ek; [|discriminate].
    assert (Hc1 : chans d1 = setErrChan k None (chans d0)).
    { destruct err as [e|]; [destruct (retval d0)|]; now injection Er as <-. }
    assert (Hk : ~ In k rest).
    { intros H. apply Hin in H as [v Hv].
      rewrite Hc1, errChan_set, decide_True in Hv by reflexivity. discriminate. }
    split; [exact Hi|]. split; [now constructor|]. split.
    { intros j. cbn [In]. rewrite Hin, Hc1, errChan_set.
      destruct (decide (j = k)) as [->|Hne].
      - rewrite Ek. split; [eauto | now left].
      - split; [intros [->|H]; [congruence | exact H] | now right]. }
    rewrite Hc1, failures_frame in Hres by exact Hk.
    unfold failures at 1 2. cbn [flat_map]. rewrite Ek.
    fold (failures rest (chans d0)).
    destruct err as [e|].
    + destruct (retval d0) as [e0|] eqn:E0; injection Er as <-;
        cbn [retval logged] in Hres.
      * destruct Hres as [-> ->]. split; [reflexivity|].
        cbn [app]. now rewrite <- app_assoc.
      * destruct Hres as [-> ->]. cbn [app]. split; reflexivity.
    + injection Er as <-. cbn [retval logged app] in *. exact Hres.
Qed.

(** Property X21.  [Run] returns the first error it receives and logs the
    others.  Whatever the order in which the [select] takes the values that
    the workers have sent, each value is received once; the value returned
    is the first error that is not nil in that order, and nil exactly when
    every worker returned nil; each error after the first goes to the log
    under the name of its worker, in the order received: none is lost. *)
Theorem Run_returns_the_first_error choices c d :
  drain choices (mkDrain c None []) = Some d ->
  Run choices c = Some (retval d) /\
  idle (chans d) = true /\ List.NoDup choices /\
  (forall k, In k choices <-> is_Some (errChan k c)) /\
  match failures choices c with
  | [] => retval d = None /\ logged d = []
  | (k, e) :: rest => retval d = Some e /\ logged d = rest
  end /\
  (retval d = None <-> forall k e, errChan k c <> Some (Some e)).
Proof.
  intros H. unfold Run. rewrite H. split; [reflexivity|].
  destruct (drain_spec _ _ _ H) as (Hi & Hnd & Hin & Hres).
  cbn [retval logged chans app] in Hin, Hres.
  split; [exact Hi|]. split; [exact Hnd|]. split; [exact Hin|].
  split; [exact Hres|].
  split.
  - intros Hr k e Hk.
    assert (Hf : In (k, e) (failures choices c)).
    { apply in_flat_map. exists k. split; [apply Hin; rewrite Hk; eauto|].
      rewrite Hk. now left. }
    destruct (failures choices c) as [|[k0 e0] rest]; [destruct Hf|].
    destruct Hres as [Hres _]. congruence.
  - intros Hall. destruct (failures choices c) as [|[k0 e0] rest] eqn:Ef;
      [apply Hres|].
    exfalso. assert (Hf : In (k0, e0) (failures choices c))
      by (rewrite Ef; now left).
    apply in_flat_map in Hf as (k & _ & Hk).
    destruct (errChan k c) as [[e|]|] eqn:E; [|destruct Hk|destruct Hk].
    destruct Hk as [[= <- <-]|[]]. eapply Hall; eauto.
Qed.

(** Property X22.  [Run] always returns, and which error it returns is up
    to the [select].  Once the workers have exited, the loop of [Run] has a
    run whatever the values queued; and for every worker that returned an
    error there is a run in which this error is the one that [Run]
    returns. *)
Theorem Run_may_return_any_failure c :
  (exists choices r, Run choices c = Some r) /\
  (forall k e, errChan k c = Some (Some e) ->
               exists choices, Run choices c = Some (Some e)).
Proof.
  destruct c as [a b h]. split.
  - destruct a as [[a|]|], b as [[b|]|], h as [[h|]|];
      first [ now exists [], None
            | eexists [Reaper], _; reflexivity
            | eexists [Tailer], _; reflexivity
            | eexists [Handler], _; reflexivity
            | eexists [Reaper; Tailer], _; reflexivity
            | eexists [Reaper; Handler], _; reflexivity
            | eexists [Tailer; Handler], _; reflexivity
            | eexists [Reaper; Tailer; Handler], _; reflexivity ].
  - intros k e Hk. destruct k; cbn in Hk; subst.
    + destruct b as [[b|]|], h as [[h|]|];
        first [ exists [Reaper]; reflexivity
              | exists [Reaper; Tailer]; reflexivity
              | exists [Reaper; Handler]; reflexivity
              | exists [Reaper; Tailer; Handler]; reflexivity ].
    + destruct a as [[a|]|], h as [[h|]|];
        first [ exists [Tailer]; reflexivity
              | exists [Tailer; Reaper]; reflexivity
              | exists [Tailer; Handler]; reflexivity
              | exists [Tailer; Reaper; Handler]; reflexivity ].
    + destruct a as [[a|]|], b as [[b|]|];
        first [ exists [Handler]; reflexivity
              | exists [Handler; Reaper]; reflexivity
              | exists [Handler; Tailer]; reflexivity
              | exists [Handler; Reaper; Tailer]; reflexivity ].
Qed.

End LifecycleFacts.

(** * The readers of the tail pipes *)

Module TailFacts.
Import Strings StringsFacts.

Lemma space2_not_space1 a b : space2 a b = true -> space1 a = false.
Proof.
  unfold space1, space2. intros H. bools H.
  apply not_true_iff_false. intros G. bools G. lia.
Qed.

Lemma space3_not_space a b c :
  space3 a b c = true -> space1 a = false /\ space2 a b = false.
Proof.
  unfold space1, space2, space3. intros H. bools H.
  split; apply not_true_iff_false; intros G; bools G; lia.
Qed.

Lemma space1_not_second a c : space1 c = true -> space2 a c = false.
Proof.
  unfold space1, space2. intros H. bools H.
  apply not_true_iff_false. intros G. bools G. lia.
Qed.

Lemma space1_not_third a b c : space1 c = true -> space3 a b c = false.
Proof.
  unfold space1, space3. intros H. bools H.
  apply not_true_iff_false. intros G. bools G. lia.
Qed.

(** A white space byte at the end goes with the rest of the trailing white
    space. *)
Lemma trimLeft_snoc c s :
  space1 c = true ->
  trimLeft (s ++ [c]) = match trimLeft s with
                        | [] => []
                        | _ :: _ => trimLeft s ++ [c]
                        end.
Proof.
  intros Hc. unfold trimLeft.
  apply (trimWith_ind space2 space3
           (fun s r => trimWith space2 space3 (s ++ [c]) =
                       match r with [] => [] | _ :: _ => r ++ [c] end)).
  - intros s0 Hs. destruct s0 as [|a [|b [|d s0]]]; cbn in Hs |- *.
    + now rewrite Hc.
    + apply orb_false_iff in Hs as [H1 _]. rewrite H1.
      now rewrite (space1_not_second a c Hc).
    + apply orb_false_iff in Hs as [H1 Hs]. apply orb_false_iff in Hs as [H2 _].
      rewrite H1, H2. now rewrite (space1_not_third a b c Hc).
    + apply orb_false_iff in Hs as [H1 Hs]. apply orb_false_iff in Hs as [H2 H3].
      now rewrite H1, H2, H3.
  - intros a s0 r Ha IH. cbn [app trimWith]. now rewrite Ha.
  - intros a b s0 r Hab IH. cbn [app trimWith].
    now rewrite (space2_not_space1 a b Hab), Hab.
  - intros a b d s0 r Habd IH. cbn [app trimWith].
    destruct (space3_not_space a b d Habd) as [H1 H2].
    now rewrite H1, H2, Habd.
Qed.

Lemma trimRight_snoc c s : space1 c = true -> trimRight (s ++ [c]) = trimRight s.
Proof.
  intros Hc. unfold trimRight, trimRightRev. rewrite rev_app_distr.
  cbn [rev app trimWith]. now rewrite Hc.
Qed.

Lemma trimSpace_snoc c s : space1 c = true -> trimSpace (s ++ [c]) = trimSpace s.
Proof.
  intros Hc. unfold trimSpace. rewrite (trimLeft_snoc c s Hc).
  destruct (trimLeft s) as [|a t] eqn:E; [reflexivity|].
  now apply trimRight_snoc.
Qed.

(** The carriage return that [bufio.ScanLines] drops would have been
    trimmed. *)
Lemma trimSpace_dropCR l : trimSpace (Bufio.dropCR l) = trimSpace l.
Proof.
  unfold Bufio.dropCR. destruct (rev l) as [|c r] eqn:E; [reflexivity|].
  destruct (byte_eqb c carriage_return) eqn:Ec; [|reflexivity].
  apply byte_eqb_eq in Ec. subst c.
  assert (Hl : l = rev r ++ [carriage_return]).
  { rewrite <- (rev_involutive l), E. reflexivity. }
  rewrite Hl. symmetry. now apply trimSpace_snoc.
Qed.

Lemma ReadString_line acc a rest :
  ~ In newline a ->
  ReadString acc (a ++ newline :: rest) =
  (rev acc ++ a ++ [newline]) :: ReadString [] rest.
Proof.
  assert (Enl : byte_eqb newline newline = true) by now apply byte_eqb_eq.
  revert acc. induction a as [|c a IH]; intros acc Hn; cbn [app ReadString].
  - now rewrite Enl.
  - destruct (byte_eqb c newline) eqn:E.
    + apply byte_eqb_eq in E. subst c. exfalso. apply Hn. now left.
    + rewrite IH by (intros H; apply Hn; now right).
      cbn [rev]. now rewrite <- !app_assoc.
Qed.

Lemma ReadString_partial acc a : ~ In newline a -> ReadString acc a = [].
Proof.
  revert acc. induction a as [|c a IH]; intros acc Hn; cbn [ReadString];
    [reflexivity|].
  destruct (byte_eqb c newline) eqn:E.
  - apply byte_eqb_eq in E. subst c. exfalso. apply Hn. now left.
  - apply IH. intros H. apply Hn. now right.
Qed.

Lemma ReadString_lines (ls : list bytes) (partial : bytes) :
  Forall (fun l => ~ In newline l) ls -> ~ In newline partial ->
  ReadString [] (concat (map (fun l => l ++ [newline]) ls) ++ partial) =
  map (fun l => l ++ [newline]) ls.
Proof.
  intros Hls Hp. induction Hls as [|a ls Ha _ IH]; cbn [map concat app].
  - now apply ReadString_partial.
  - rewrite <- !app_assoc. cbn [app]. rewrite ReadString_line by exact Ha.
    cbn [rev app]. now rewrite IH.
Qed.

Lemma TrimSpace_line l :
  TrimSpace (str (l ++ [newline])) = TrimSpace (str l).
Proof.
  unfold TrimSpace. rewrite !list_ascii_of_string_of_list_ascii.
  now rewrite trimSpace_snoc.
Qed.

End TailFacts.

(** Property X23.  A line reaches the scanner when its newline has come.
    The reader of a pipe of the tail process sends one line for each
    newline of the stream, in order, each without its newline and trimmed
    of the white space around it; the bytes after the last newline are
    never sent: at the end of the stream they are dropped. *)
Theorem tail_reader_sends_complete_lines (ls : list bytes) (partial : bytes) :
  Forall (fun l => ~ In newline l) ls -> ~ In newline partial ->
  let lines :=
    tailReader (str (concat (map (fun l => l ++ [newline]) ls) ++ partial)) in
  lines = map (fun l => Strings.TrimSpace (str l)) ls /\
  length lines = length ls /\
  Forall (fun line => trimmed (unstr line) /\ ~ In newline (unstr line)) lines.
Proof.
  intros Hls Hp. cbn zeta. unfold tailReader.
  rewrite list_ascii_of_string_of_list_ascii.
  rewrite (TailFacts.ReadString_lines ls partial Hls Hp), map_map.
  assert (E : map (fun l => Strings.TrimSpace (str (l ++ [newline]))) ls =
              map (fun l => Strings.TrimSpace (str l)) ls)
    by (apply map_ext; intros l; apply TailFacts.TrimSpace_line).
  rewrite E. split; [reflexivity|]. split; [apply length_map|].
  apply List.Forall_map. eapply List.Forall_impl; [|exact Hls].
  intros l Hl. unfold Strings.TrimSpace.
  rewrite !list_ascii_of_string_of_list_ascii.
  split; [apply StringsFacts.trimSpace_trimmed|].
  intros H. apply StringsFacts.trimSpace_In in H. auto.
Qed.

(** Property X24.  The two line readers agree on complete lines.  On a
    text in which every line ends with a newline, the reader of the tail
    pipes ([ReadString] and [TrimSpace]) yields the very texts that
    [readAddressFile] takes from the lines of [bufio.Scanner], blank lines
    included: a carriage return before the newline and any white space
    around the line are dropped by both. *)
Theorem line_readers_agree (ls : list bytes) :
  Forall (fun l => ~ In newline l) ls ->
  let content := str (concat (map (fun l => l ++ [newline]) ls)) in
  fileLines content = ls /\
  tailReader content = map lineText (fileLines content).
Proof.
  intros Hls. cbn zeta.
  assert (Hf : fileLines (str (concat (map (fun l => l ++ [newline]) ls))) = ls).
  { unfold fileLines. rewrite list_ascii_of_string_of_list_ascii.
    now apply BufioFacts.rawLines_terminated. }
  split; [exact Hf|]. rewrite Hf. unfold tailReader.
  rewrite list_ascii_of_string_of_list_ascii.
  rewrite <- (app_nil_r (concat _)).
  rewrite (TailFacts.ReadString_lines ls [] Hls (fun H => H)), map_map.
  apply map_ext. intros l. rewrite TailFacts.TrimSpace_line.
  unfold lineText, Strings.TrimSpace.
  rewrite !list_ascii_of_string_of_list_ascii.
  now rewrite TailFacts.trimSpace_dropCR.
Qed.

(** * The loop of the log tail worker *)

Lemma scannerLoop_cons s stderrOpen stdoutOpen m rest :
  scannerLoop s stderrOpen stdoutOpen (m :: rest) =
  if negb (stderrOpen || stdoutOpen) then ret Returned else
  match m with
  | StdoutLine line =>
      run forPatterns s (Patterns s) line;
      scannerLoop s stderrOpen stdoutOpen rest
  | StdoutClosed => scannerLoop s stderrOpen false rest
  | StderrLine line =>
      run effect (EvLog (LogTail line));
      scannerLoop s stderrOpen stdoutOpen rest
  | StderrClosed => scannerLoop s false stdoutOpen rest
  end.
Proof. reflexivity. Qed.

(** Property X25.  The worker returns when both pipes have closed, and not
    before.  The loop of the log tail worker returns nil only after it has
    seen the close of each pipe that was open; as long as one of them has
    not closed it waits for more, whatever it has received; and once both
    are closed nothing that follows is looked at. *)
Theorem scanner_loop_ends_with_the_pipes s selects :
  forall stderrOpen stdoutOpen w w',
  (scannerLoop s stderrOpen stdoutOpen selects w = (w', Ok Returned) ->
   (stderrOpen = true -> In StderrClosed selects) /\
   (stdoutOpen = true -> In StdoutClosed selects)) /\
  (scannerLoop s stderrOpen stdoutOpen selects w = (w', Ok Waiting) ->
   (stderrOpen = true /\ ~ In StderrClosed selects) \/
   (stdoutOpen = true /\ ~ In StdoutClosed selects)) /\
  (stderrOpen = false -> stdoutOpen = false ->
   scannerLoop s stderrOpen stdoutOpen selects w = (w, Ok Returned)).
Proof.
  induction selects as [|m rest IH]; intros e o w w'.
  - cbn [scannerLoop]. unfold ret.
    destruct e, o; cbn [orb negb]; (split; [|split]);
      first [ intros H; discriminate H
            | intros [= <-]; split; intros X; discriminate X
            | intros _; left; split; [reflexivity | intros []]
            | intros _; right; split; [reflexivity | intros []]
            | intros _ X; discriminate X
            | intros _ _; reflexivity ].
  - rewrite scannerLoop_cons.
    destruct (negb (e || o)) eqn:Eo.
    { apply negb_true_iff, orb_false_iff in Eo as [-> ->]. unfold ret.
      split; [|split].
      - intros _. split; intros X; discriminate X.
      - intros H. discriminate H.
      - reflexivity. }
    apply negb_false_iff in Eo.
    assert (Open : e = false -> o = false -> False)
      by (intros -> ->; discriminate Eo).
    destruct m as [line| |line|]; unfold_go.
    + destruct (forPatterns s (Patterns s) line w) as [w1 [[]|err]] eqn:Ef.
      * destruct (IH e o w1 w') as (I1 & I2 & _). split; [|split].
        -- intros H. destruct (I1 H) as [A B]. split; intros X; right; auto.
        -- intros H. destruct (I2 H) as [[A B]|[A B]]; [left|right];
             (split; [exact A|]); (intros [X|X]; [discriminate X | auto]).
        -- intros X Y. destruct (Open X Y).
      * split; [|split]; try (intros H; discriminate H).
        intros X Y. destruct (Open X Y).
    + destruct (IH e false w w') as (I1 & I2 & _). split; [|split].
      * intros H. destruct (I1 H) as [A _].
        split; intros X; [right; auto | now left].
      * intros H. destruct (I2 H) as [[A B]|[A B]]; [|discriminate A].
        left. split; [exact A|]. intros [X|X]; [discriminate X | auto].
      * intros X Y. destruct (Open X Y).
    + cbn [fst snd]. destruct (IH e o (emit (EvLog (LogTail line)) w) w')
        as (I1 & I2 & _). split; [|split].
      * intros H. destruct (I1 H) as [A B]. split; intros X; right; auto.
      * intros H. destruct (I2 H) as [[A B]|[A B]]; [left|right];
          (split; [exact A|]); (intros [X|X]; [discriminate X | auto]).
      * intros X Y. destruct (Open X Y).
    + destruct (IH false o w w') as (I1 & I2 & _). split; [|split].
      * intros H. destruct (I1 H) as [_ B].
        split; intros X; [now left | right; auto].
      * intros H. destruct (I2 H) as [[A B]|[A B]]; [discriminate A|].
        right. split; [exact A|]. intros [X|X]; [discriminate X | auto].
      * intros X Y. destruct (Open X Y).
Qed.

(** * What the tail process writes on its standard error *)

Lemma sameButTrace_refl w : sameButTrace w w.
Proof. repeat split. Qed.

Lemma sameButTrace_emit e1 e2 w1 w2 :
  sameButTrace w1 w2 -> sameButTrace (emit e1 w1) (emit e2 w2).
Proof. intros H. exact H. Qed.

Lemma traceBlind_ret {A} (a : A) : traceBlind (ret a).
Proof.
  intros w1 w2 H. cbn. split; [reflexivity|]. split; [exact H|].
  exists []. now rewrite !app_nil_r.
Qed.

Lemma traceBlind_lift {A} (r : Result A) : traceBlind (lift r).
Proof.
  intros w1 w2 H. cbn. split; [reflexivity|]. split; [exact H|].
  exists []. now rewrite !app_nil_r.
Qed.

Lemma traceBlind_effect e : traceBlind (effect e).
Proof.
  intros w1 w2 H. cbn. split; [reflexivity|]. split; [exact H|].
  exists [e]. auto.
Qed.

Lemma traceBlind_bind {A B} (m : M A) (k : A -> M B) :
  traceBlind m -> (forall a, traceBlind (k a)) -> traceBlind (bind m k).
Proof.
  intros Hm Hk w1 w2 H. unfold bind.
  destruct (Hm w1 w2 H) as (Hr & Hs & evs & E1 & E2).
  destruct (m w1) as [w1' r1], (m w2) as [w2' r2]. cbn [fst snd] in *.
  subst r2. destruct r1 as [a|e].
  - destruct (Hk a w1' w2' Hs) as (Hr' & Hs' & evs' & E1' & E2').
    split; [exact Hr'|]. split; [exact Hs'|].
    exists (evs ++ evs'). rewrite E1', E2', E1, E2, <- !app_assoc. auto.
  - cbn. split; [reflexivity|]. split; [exact Hs|]. eauto.
Qed.

Lemma traceBlind_orReturn {A} wrap (m : M A) :
  traceBlind m -> traceBlind (orReturn wrap m).
Proof.
  intros Hm w1 w2 H. unfold orReturn.
  destruct (Hm w1 w2 H) as (Hr & Hs & evs & E1 & E2).
  destruct (m w1) as [w1' r1], (m w2) as [w2' r2]. cbn [fst snd] in *.
  subst r2. destruct r1; cbn; eauto.
Qed.

(** A step that reads the state, but for the trace, and may set the
    stores. *)
Lemma traceBlind_step {A} (f : World -> World * Result A) :
  (forall w1 w2, sameButTrace w1 w2 ->
     snd (f w1) = snd (f w2) /\ sameButTrace (fst (f w1)) (fst (f w2)) /\
     trace (fst (f w1)) = trace w1 /\ trace (fst (f w2)) = trace w2) ->
  traceBlind f.
Proof.
  intros Hf w1 w2 H. destruct (Hf w1 w2 H) as (Hr & Hs & E1 & E2).
  split; [exact Hr|]. split; [exact Hs|].
  exists []. now rewrite !app_nil_r.
Qed.

Lemma traceBlind_time_Now : traceBlind time_Now.
Proof.
  apply traceBlind_step. intros w1 w2 (A & D & C & T & K).
  unfold time_Now, sameButTrace. cbn. rewrite C, T. repeat split; auto.
Qed.

Lemma traceBlind_writeTimeoutFile s addr : traceBlind (writeTimeoutFile s addr).
Proof.
  unfold writeTimeoutFile.
  apply traceBlind_bind; [apply traceBlind_time_Now|]. intros now.
  apply traceBlind_bind; [apply traceBlind_orReturn, traceBlind_lift|].
  intros data. unfold os_WriteFile_timeout.
  apply traceBlind_bind; [apply traceBlind_effect|]. intros _.
  apply traceBlind_step. intros w1 w2 (A & D & C & T & K).
  unfold sameButTrace. rewrite D.
  destruct (timeoutPath w1) as [| |entries] eqn:D1; cbn;
    [repeat split; auto; congruence | repeat split; auto; congruence |].
  destruct (plainName addr); [|cbn; repeat split; auto; congruence].
  destruct (lookupEntry addr entries) as [[d|m]|]; cbn; repeat split; auto;
    congruence.
Qed.

Lemma traceBlind_exec s command args : traceBlind (exec s command args).
Proof.
  unfold exec. apply traceBlind_bind; [apply traceBlind_effect|]. intros _.
  apply traceBlind_step. intros w1 w2 (A & D & C & T & K).
  unfold sameButTrace. rewrite K.
  destruct (commandOk w1 command args); cbn; repeat split; auto; congruence.
Qed.

Lemma traceBlind_readAddressFile s : traceBlind (readAddressFile s).
Proof.
  unfold readAddressFile. apply traceBlind_bind; [|intros c; apply traceBlind_lift].
  unfold os_Open_address.
  apply traceBlind_bind; [apply traceBlind_effect|]. intros _.
  apply traceBlind_step. intros w1 w2 (A & D & C & T & K).
  unfold sameButTrace. rewrite A.
  destruct (addressPath w1) eqn:A1; cbn; repeat split; auto; congruence.
Qed.

Lemma traceBlind_write_address file content :
  traceBlind (os_WriteFile_address file content).
Proof.
  unfold os_WriteFile_address.
  apply traceBlind_bind; [apply traceBlind_effect|]. intros _.
  apply traceBlind_step. intros w1 w2 (A & D & C & T & K).
  unfold sameButTrace. rewrite A.
  destruct (addressPath w1) eqn:A1; cbn; repeat split; auto; congruence.
Qed.

Lemma traceBlind_addAddress s addr : traceBlind (addAddress s addr).
Proof.
  unfold addAddress.
  apply traceBlind_bind.
  { destruct (negb _); [apply traceBlind_exec | apply traceBlind_ret]. }
  intros _. apply traceBlind_bind; [apply traceBlind_readAddressFile|].
  intros addrs. destruct (Slices.Contains addrs addr); [apply traceBlind_ret|].
  apply traceBlind_bind; [apply traceBlind_write_address|].
  intros _. apply traceBlind_ret.
Qed.

Lemma traceBlind_onMatch s addr : traceBlind (onMatch s addr).
Proof.
  unfold onMatch.
  apply traceBlind_bind;
    [apply traceBlind_orReturn, traceBlind_writeTimeoutFile|]. intros _.
  apply traceBlind_bind;
    [apply traceBlind_orReturn, traceBlind_addAddress|]. intros action.
  apply traceBlind_effect.
Qed.

Lemma traceBlind_forPatterns s line : forall patterns,
  traceBlind (forPatterns s patterns line).
Proof.
  induction patterns as [|p rest IH]; [apply traceBlind_ret|].
  rewrite forPatterns_cons.
  destruct (FindStringSubmatch p line) as [|whole [|addr groups]]; try exact IH.
  apply traceBlind_bind; [apply traceBlind_onMatch|]. intros _. exact IH.
Qed.

Lemma scannerLoop_closed s selects w :
  scannerLoop s false false selects w = (w, Ok Returned).
Proof. destruct selects; reflexivity. Qed.

(** Property X26.  What the tail process writes on its standard error is
    only logged.  A run of the loop of the log tail worker and the run that
    receives the same things without the lines of the standard error end
    alike: the same status or the same error, the same watchlist file,
    timeout directory and clock, and the same events in the same order but
    for the log of those lines. *)
Theorem stderr_lines_are_only_logged s selects : forall stderrOpen stdoutOpen w,
  let noise := scannerLoop s stderrOpen stdoutOpen selects w in
  let quiet := scannerLoop s stderrOpen stdoutOpen
                 (List.filter (fun m => negb (isStderrLine m)) selects) w in
  snd noise = snd quiet /\
  addressPath (fst noise) = addressPath (fst quiet) /\
  timeoutPath (fst noise) = timeoutPath (fst quiet) /\
  ticks (fst noise) = ticks (fst quiet) /\
  exists evs evs',
    trace (fst noise) = trace w ++ evs /\ trace (fst quiet) = trace w ++ evs' /\
    List.filter (fun e => negb (isTailLog e)) evs =
    List.filter (fun e => negb (isTailLog e)) evs'.
Proof.
  assert (G : forall e o w1 w2, sameButTrace w2 w1 ->
    let noise := scannerLoop s e o selects w1 in
    let quiet := scannerLoop s e o
                   (List.filter (fun m => negb (isStderrLine m)) selects) w2 in
    snd noise = snd quiet /\ sameButTrace (fst quiet) (fst noise) /\
    exists evs evs',
      trace (fst noise) = trace w1 ++ evs /\ trace (fst quiet) = trace w2 ++ evs' /\
      List.filter (fun e => negb (isTailLog e)) evs =
      List.filter (fun e => negb (isTailLog e)) evs').
  { induction selects as [|m rest IH]; intros e o w1 w2 H; cbn zeta.
    - cbn [List.filter scannerLoop]. unfold ret.
      destruct (negb (e || o)); cbn [fst snd];
        (split; [reflexivity|]); (split; [exact H|]);
        exists [], []; now rewrite !app_nil_r.
    - rewrite scannerLoop_cons. destruct (negb (e || o)) eqn:Eo.
      { apply negb_true_iff, orb_false_iff in Eo as [-> ->].
        rewrite scannerLoop_closed. unfold ret. cbn [fst snd].
        split; [reflexivity|]. split; [exact H|].
        exists [], []. now rewrite !app_nil_r. }
      destruct m as [line| |line|]; cbn [List.filter isStderrLine negb].
      + rewrite scannerLoop_cons, Eo. unfold bind.
        destruct (traceBlind_forPatterns s line (Patterns s) w2 w1 H)
          as (Hr & Hs & evs & E2 & E1).
        destruct (forPatterns s (Patterns s) line w1) as [w1' r1],
                 (forPatterns s (Patterns s) line w2) as [w2' r2].
        cbn [fst snd] in *. subst r2. destruct r1 as [[]|err].
        * destruct (IH e o w1' w2' Hs) as (Hr' & Hs' & ev1 & ev2 & F1 & F2 & Hf).
          split; [exact Hr'|]. split; [exact Hs'|].
          exists (evs ++ ev1), (evs ++ ev2).
          rewrite F1, F2, E1, E2, <- !app_assoc, !List.filter_app, Hf. auto.
        * cbn [fst snd]. split; [reflexivity|]. split; [exact Hs|].
          exists evs, evs. auto.
      + rewrite scannerLoop_cons, Eo. apply IH. exact H.
      + unfold bind, effect. cbn [fst snd].
        destruct (IH e o (emit (EvLog (LogTail line)) w1) w2 H)
          as (Hr' & Hs' & ev1 & ev2 & F1 & F2 & Hf).
        split; [exact Hr'|]. split; [exact Hs'|].
        exists (EvLog (LogTail line) :: ev1), ev2.
        rewrite F1, F2. cbn [trace emit]. rewrite <- app_assoc.
        split; [reflexivity|]. split; [reflexivity|]. exact Hf.
      + rewrite scannerLoop_cons, Eo. apply IH. exact H. }
  intros e o w. cbn zeta.
  destruct (G e o w w (sameButTrace_refl w))
    as (Hr & (A & D & C & T & K) & evs & evs' & E1 & E2 & Hf).
  split; [exact Hr|]. split; [exact A|]. split; [exact D|]. split; [exact T|].
  exists evs, evs'. auto.
Qed.

(** * The further statements at sample states *)

Lemma wellFormed_sample : wellFormed "5.6.7.8".
Proof.
  split; [discriminate|]. split; [split; vm_compute; reflexivity|].
  split; [vm_compute; intuition discriminate|].
  split; vm_compute; reflexivity.
Qed.

Lemma readable_twoRecords : readable twoRecords.
Proof. intros name raw [H|[H|[]]]; discriminate. Qed.

Lemma added_address_is_read_back_witness :
  let w := demoWorld oneAddress [] 0 in
  exists w',
    addAddress demoScanner "5.6.7.8" w = (w', Ok "added to"%string) /\
    watchlist demoScanner w' = Ok ["1.2.3.4"; "5.6.7.8"]%string /\
    snd (readAddressFile demoScanner w') = Ok ["1.2.3.4"; "5.6.7.8"]%string.
Proof.
  intros w.
  assert (Hw : watchlist demoScanner w = Ok ["1.2.3.4"%string])
    by (vm_compute; reflexivity).
  assert (Hn : ~ In "5.6.7.8"%string ["1.2.3.4"%string])
    by (intros [H|[]]; discriminate).
  destruct (added_address_is_read_back demoScanner w "5.6.7.8" ["1.2.3.4"%string]
              Hw Hn wellFormed_sample (or_introl eq_refl))
    as (w' & Hrun & Hl & _ & Hr & _).
  exists w'. split; [exact Hrun|]. split; [exact Hl | exact Hr].
Defined.


Lemma remove_drops_first_occurrence_witness :
  let w := demoWorld (twoAddresses +:+ "10.0.0.5" +:+ nl) [] 0 in
  exists w',
    removeAddress demoScanner "10.0.0.5" w = (w', Ok "deleted from"%string) /\
    watchlist demoScanner w' = Ok ["10.0.0.6"; "10.0.0.5"]%string /\
    watched demoScanner w' "10.0.0.5".
Proof.
  intros w.
  assert (Hw : watchlist demoScanner w = Ok ["10.0.0.5"; "10.0.0.6"; "10.0.0.5"]%string)
    by (vm_compute; reflexivity).
  destruct (remove_drops_first_occurrence demoScanner w "10.0.0.5"
              ["10.0.0.5"; "10.0.0.6"; "10.0.0.5"]%string
              Hw (or_introl eq_refl) (or_introl eq_refl))
    as (w' & addrs' & Hrun & Hl & -> & _ & Hstill).
  exists w'. split; [exact Hrun|]. split; [exact Hl|].
  apply Hstill. vm_compute. lia.
Defined.

Lemma unchecked_address_corrupts_watchlist_witness :
  let w := demoWorld oneAddress [] 0 in
  exists w',
    addAddress demoScanner "not-an-ip" w = (w', Ok "added to"%string) /\
    watchlist demoScanner w'
    = Err (UnexpectedAddress "not-an-ip" "/etc/iplsd/addrs") /\
    snd (removeAddress demoScanner "1.2.3.4" w')
    = Err (UnexpectedAddress "not-an-ip" "/etc/iplsd/addrs").
Proof.
  intros w.
  assert (Hw : watchlist demoScanner w = Ok ["1.2.3.4"%string])
    by (vm_compute; reflexivity).
  assert (Hn : ~ In "not-an-ip"%string ["1.2.3.4"%string])
    by (intros [H|[]]; discriminate).
  assert (Ht : trimmed (unstr "not-an-ip")) by (split; vm_compute; reflexivity).
  assert (Hl : ~ In newline (unstr "not-an-ip"))
    by (vm_compute; intuition discriminate).
  assert (Hd : "not-an-ip"%string <> ""%string) by discriminate.
  destruct (unchecked_address_corrupts_watchlist demoScanner w "not-an-ip"
              ["1.2.3.4"%string] Hw Hn (or_introl eq_refl) Hd Ht Hl eq_refl eq_refl)
    as (w' & Hrun & Hbad & Hnext).
  exists w'. split; [exact Hrun|]. split; [exact Hbad|].
  exact (proj1 (proj2 (Hnext "1.2.3.4"%string (or_introl eq_refl)
                         (or_introl eq_refl)))).
Defined.

Lemma timeout_record_write_then_delete_witness :
  let w := demoWorld "" [] 100 in
  exists w1 w2,
    writeTimeoutFile demoScanner "10.0.0.5" w = (w1, Ok tt) /\
    timeoutPath w1
    = DirOf [("10.0.0.5"%string, Regular (Marshalled (100 + 5 * TimePkg.second)))] /\
    deleteTimeoutFile demoScanner "10.0.0.5" w1 = (w2, Ok tt) /\
    timeoutPath w2 = DirOf [].
Proof.
  intros w.
  destruct (timeout_record_write_then_delete demoScanner w "10.0.0.5" []
              eq_refl eq_refl eq_refl eq_refl)
    as (w1 & w2 & entries1 & Hwrite & Hd & _ & _ & Hdel & Hback & _).
  exists w1, w2. split; [exact Hwrite|]. split; [|split; [exact Hdel | exact Hback]].
  apply (f_equal fst) in Hwrite. cbn [fst] in Hwrite. rewrite <- Hwrite.
  vm_compute. reflexivity.
Defined.

Lemma sweep_only_removes_witness :
  let w := demoWorld twoAddresses twoRecords 100 in
  let w' := fst (sweep demoScanner w) in
  (exists evs, trace w' = trace w ++ evs /\
               forallb (fun e => negb (creates e)) evs = true) /\
  (forall a, watched demoScanner w' a -> watched demoScanner w a).
Proof.
  intros w w'.
  destruct (sweep_only_removes demoScanner w twoRecords eq_refl)
    as (Hev & _ & Hw).
  split; [exact Hev | exact Hw].
Defined.

Lemma corrupt_record_blocks_the_sweep_witness :
  let entries := [("10.0.0.5"%string, Regular (Marshalled 100));
                  ("10.0.0.6"%string, Regular (Garbled "soon"))] in
  let w := demoWorld twoAddresses entries 100 in
  let w' := fst (sweep demoScanner w) in
  snd (sweep demoScanner w) =
    Err (Fatalf ("reaper: failed umarshalling expiration from '"
                 +:+ "/var/iplsd/timeout" +:+ "/" +:+ "10.0.0.6" +:+ "'")
           ErrUnmarshalText) /\
  addressPath w' = addressPath w /\ timeoutPath w' = timeoutPath w.
Proof.
  intros entries w w'.
  assert (Hnames : List.NoDup (names entries))
    by (apply NoDup_two; discriminate).
  destruct (corrupt_record_blocks_the_sweep demoScanner w entries "10.0.0.6" "soon"
              eq_refl Hnames (or_intror (or_introl eq_refl)))
    as (_ & Ha & Hd & _).
  split; [vm_compute; reflexivity|]. split; [exact Ha | exact Hd].
Defined.

Lemma failed_delete_command_keeps_record_witness :
  let w := failing (demoWorld twoAddresses twoRecords 100) in
  let args := ["-t"; "watch"; "-T"; "delete"; "10.0.0.5"]%string in
  exists w',
    sweep hookedScanner w =
      (w', Err (Fatalf "reaper: removeAddress failed" (ExitError "pfctl" args))) /\
    addressPath w' = FileOf twoAddresses /\ timeoutPath w' = DirOf twoRecords.
Proof.
  intros w args.
  assert (Hnames : List.NoDup (names twoRecords))
    by (apply NoDup_two; discriminate).
  assert (Hc : DeleteCommand hookedScanner <> ""%string) by discriminate.
  exact (failed_delete_command_keeps_record hookedScanner w 100 twoRecords
           "10.0.0.5" [] (fun _ _ => eq_refl) eq_refl Hnames readable_twoRecords
           eq_refl Hc eq_refl).
Defined.

Lemma second_sweep_changes_nothing_witness :
  let w := demoWorld twoAddresses twoRecords 100 in
  let w1 := fst (sweep demoScanner w) in
  exists w2,
    sweep demoScanner w1 = (w2, Ok tt) /\
    addressPath w2 = addressPath w1 /\ timeoutPath w2 = timeoutPath w1.
Proof.
  intros w w1.
  assert (Hnd : noDuplicates demoScanner w).
  { intros addrs H. vm_compute in H. injection H as <-.
    apply NoDup_two. discriminate. }
  assert (Hnames : List.NoDup (names twoRecords))
    by (apply NoDup_two; discriminate).
  assert (Hrun : sweep demoScanner w = (w1, Ok tt)) by (vm_compute; reflexivity).
  destruct (second_sweep_changes_nothing demoScanner w 100 twoRecords w1
              (fun _ _ => eq_refl) eq_refl Hnames Hnd Hrun)
    as (w2 & Hagain & Ha & Hd & _).
  exists w2. split; [exact Hagain|]. split; [exact Ha | exact Hd].
Defined.

Lemma matched_address_lives_for_the_timeout_witness :
  let w := demoWorld "" [] 100 in
  let w1 := fst (onMatch demoScanner "5.6.7.8" w) in
  let w2 := fst (sweep demoScanner w1) in
  watched demoScanner w1 "5.6.7.8" /\ watched demoScanner w2 "5.6.7.8" /\
  exists entries2,
    timeoutPath w2 = DirOf entries2 /\
    lookupEntry "5.6.7.8" entries2
    = Some (Regular (Marshalled (100 + 5 * TimePkg.second))).
Proof.
  intros w w1 w2.
  assert (Hnd : noDuplicates demoScanner w).
  { intros addrs H. vm_compute in H. injection H as <-. constructor. }
  assert (Hm : onMatch demoScanner "5.6.7.8" w = (w1, Ok tt))
    by (vm_compute; reflexivity).
  assert (Hd : timeoutPath w1
               = DirOf [("5.6.7.8"%string,
                         Regular (Marshalled (100 + 5 * TimePkg.second)))])
    by (vm_compute; reflexivity).
  assert (Hs : sweep demoScanner w1 = (w2, Ok tt)) by (vm_compute; reflexivity).
  destruct (matched_address_lives_for_the_timeout demoScanner w "5.6.7.8" w1 _ 100 w2
              Hnd wellFormed_sample Hm Hd (NoDup_one _) (fun _ _ => eq_refl) Hs)
    as (Hon & _ & entries2 & Hd2 & Hkeep & _).
  destruct Hkeep as [Hstill Hrec]; [vm_compute; reflexivity|].
  split; [exact Hon|]. split; [exact Hstill|].
  exists entries2. split; [exact Hd2 | exact Hrec].
Defined.

Lemma every_listed_address_has_a_record_witness :
  let w := demoWorld twoAddresses [] 100 in
  exists w' s entries',
    NewScanner demoParseDuration demoCompile demoConfig
      "/var/log/authlog" "/etc/iplsd/addrs" "/var/iplsd/timeout" [] w = (w', Ok s) /\
    timeoutPath w' = DirOf entries' /\
    (exists d, lookupEntry "10.0.0.5" entries' = Some (Regular d)) /\
    (exists d, lookupEntry "10.0.0.6" entries' = Some (Regular d)) /\
    addressPath w' = FileOf twoAddresses.
Proof.
  intros w.
  destruct (NewScanner demoParseDuration demoCompile demoConfig
              "/var/log/authlog" "/etc/iplsd/addrs" "/var/iplsd/timeout" [] w)
    as [w' [s|e]] eqn:E; [|vm_compute in E; discriminate].
  destruct (every_listed_address_has_a_record demoParseDuration demoCompile
              demoConfig "/var/log/authlog" "/etc/iplsd/addrs" "/var/iplsd/timeout"
              [] w w' s E)
    as (addrs & entries' & Hl & Hd & Hrec & _ & Hfile).
  assert (Hs : AddressFile s = "/etc/iplsd/addrs"%string).
  { vm_compute in E. injection E as _ <-. reflexivity. }
  assert (Ha : addrs = ["10.0.0.5"; "10.0.0.6"]%string).
  { unfold watchlist in Hl. rewrite (Hfile twoAddresses eq_refl), Hs in Hl.
    vm_compute in Hl. now injection Hl as <-. }
  subst addrs. exists w', s, entries'.
  split; [reflexivity|]. split; [exact Hd|].
  split; [apply Hrec; now left|]. split; [apply Hrec; right; now left|].
  exact (Hfile twoAddresses eq_refl).
Defined.

Lemma first_start_creates_both_stores_witness :
  let w := mkWorld FileMissing DirMissing (fun _ => 100) 0 (fun _ _ => true) [] in
  exists w' s,
    NewScanner demoParseDuration demoCompile demoConfig
      "/var/log/authlog" "/etc/iplsd/addrs" "/var/iplsd/timeout"
      ["from (\S+)"%string] w = (w', Ok s) /\
    timeoutPath w' = DirOf [] /\ addressPath w' = FileOf "" /\
    watchlist s w' = Ok [] /\
    trace w' = [EvMkdir; EvWriteAddressFile ""; EvOpenAddressFile] /\
    length (Patterns s) = 1%nat.
Proof.
  intros w.
  destruct (first_start_creates_both_stores demoParseDuration demoCompile
              demoConfig "/var/log/authlog" "/etc/iplsd/addrs" "/var/iplsd/timeout"
              ["from (\S+)"%string] w (5 * TimePkg.second) TimePkg.second
              [mkPattern (fun _ => [])] eq_refl eq_refl eq_refl eq_refl eq_refl)
    as (w' & s & Hrun & Hd & Ha & Hl & Ht & _ & _ & Hp).
  exists w', s. repeat (split; [assumption|]).
  apply Forall2_length in Hp. now rewrite <- Hp.
Defined.

Lemma command_line_is_split_at_blanks_witness :
  let cfg := mkConfig "5" "1" "pfctl -t watch -T add" "" false in
  let w := demoWorld "" [] 100 in
  exists w' s,
    NewScanner demoParseDuration demoCompile cfg
      "/var/log/authlog" "/etc/iplsd/addrs" "/var/iplsd/timeout" [] w = (w', Ok s) /\
    Strings.Join (AddCommand s :: AddArgs s) " " = "pfctl -t watch -T add"%string /\
    AddCommand s <> ""%string /\ DeleteCommand s = ""%string.
Proof.
  intros cfg w.
  destruct (NewScanner demoParseDuration demoCompile cfg
              "/var/log/authlog" "/etc/iplsd/addrs" "/var/iplsd/timeout" [] w)
    as [w' [s|e]] eqn:E; [|vm_compute in E; discriminate].
  destruct (command_line_is_split_at_blanks demoParseDuration demoCompile cfg
              "/var/log/authlog" "/etc/iplsd/addrs" "/var/iplsd/timeout" [] w w' s E)
    as ((Hjoin & _ & Hadd) & (_ & _ & Hdel)).
  exists w', s. split; [reflexivity|]. split; [exact Hjoin|]. split.
  - intros H. apply Hadd in H as [H|[rest H]]; discriminate.
  - apply Hdel. now left.
Defined.

Lemma restart_changes_nothing_witness :
  let w := mkWorld FileMissing DirMissing (fun _ => 100) 0 (fun _ _ => true) [] in
  exists w1 s,
    NewScanner demoParseDuration demoCompile demoConfig
      "/var/log/authlog" "/etc/iplsd/addrs" "/var/iplsd/timeout" [] w = (w1, Ok s) /\
    NewScanner demoParseDuration demoCompile demoConfig
      "/var/log/authlog" "/etc/iplsd/addrs" "/var/iplsd/timeout" [] w1
    = (emit EvOpenAddressFile w1, Ok s).
Proof.
  intros w.
  destruct (NewScanner demoParseDuration demoCompile demoConfig
              "/var/log/authlog" "/etc/iplsd/addrs" "/var/iplsd/timeout" [] w)
    as [w1 [s|e]] eqn:E; [|vm_compute in E; discriminate].
  exists w1, s. split; [reflexivity|].
  exact (restart_changes_nothing demoParseDuration demoCompile demoConfig
           "/var/log/authlog" "/etc/iplsd/addrs" "/var/iplsd/timeout" [] w w1 s E).
Defined.

Lemma Stop_tears_down_then_closes_witness :
  exists r',
    Lifecycle.Stop busy = Coordinator.Finished r' /\
    (forall k, Coordinator.closed (Coordinator.stopChan k r') = true) /\
    Coordinator.done r' = Coordinator.teardownActions busy /\
    (forall caller, Coordinator.shutdown caller r' = Coordinator.Finished r').
Proof.
  destruct (LifecycleFacts.Stop_tears_down_then_closes busy eq_refl
              (fun k => match k with
                        | Coordinator.Reaper => eq_refl
                        | Coordinator.Tailer => eq_refl
                        | Coordinator.Handler => eq_refl
                        end)
              (fun _ k _ => match k with
                            | Coordinator.Reaper => eq_refl
                            | Coordinator.Tailer => eq_refl
                            | Coordinator.Handler => eq_refl
                            end))
    as (r' & Hrun & Hclosed & _ & Hdone & Hlater & _).
  exists r'. split; [exact Hrun|]. split; [exact Hclosed|].
  split; [exact Hdone | exact Hlater].
Defined.

Lemma Stop_twice_panics_witness :
  exists r',
    Lifecycle.Stop busy = Coordinator.Finished r' /\
    Lifecycle.Stop r' = Coordinator.Panicked r'.
Proof.
  destruct (Lifecycle.Stop busy) as [r'| |] eqn:E;
    try (vm_compute in E; discriminate).
  exists r'. split; [reflexivity|].
  exact (LifecycleFacts.Stop_twice_panics busy r' E).
Defined.

Lemma exiting_worker_notifies_the_others_witness :
  exists r',
    Lifecycle.workerExit Coordinator.Reaper busy = Coordinator.Finished r' /\
    Coordinator.active r' !! Coordinator.marker
    = Some (Coordinator.VString "reaper") /\
    Coordinator.queued (Coordinator.stopChan Coordinator.Reaper r') = 0%nat /\
    Coordinator.queued (Coordinator.stopChan Coordinator.Tailer r') = 1%nat /\
    Coordinator.queued (Coordinator.stopChan Coordinator.Handler r') = 1%nat.
Proof.
  destruct (Lifecycle.workerExit Coordinator.Reaper busy) as [r'| |] eqn:E;
    try (vm_compute in E; discriminate).
  destruct (LifecycleFacts.exiting_worker_notifies_the_others
              Coordinator.Reaper busy r' eq_refl E)
    as (Hm & _ & _ & Hq & _).
  exists r'. split; [reflexivity|]. split; [exact Hm|].
  rewrite !Hq. repeat split; vm_compute; reflexivity.
Defined.

Lemma teardown_never_blocks_witness :
  exists s,
    Coordinator.execute twoCalls Coordinator.initial = Some s /\
    Coordinator.shutdownLock (Coordinator.shared s) = false.
Proof.
  destruct (Coordinator.execute twoCalls Coordinator.initial) as [s|] eqn:E;
    [|vm_compute in E; discriminate].
  exists s. split; [reflexivity|].
  apply (LifecycleFacts.teardown_never_blocks twoCalls s E eq_refl).
  intros i caller pc H.
  assert (Hs : Coordinator.threads s
               = [("reaper"%string, Coordinator.Exit);
                  ("stop"%string, Coordinator.Exit)]).
  { vm_compute in E. injection E as <-. reflexivity. }
  rewrite Hs in H. destruct i as [|[|i]]; simpl in H;
    [injection H as _ <- | injection H as _ <- | discriminate]; reflexivity.
Defined.

Lemma Run_returns_the_first_error_witness :
  let c := Lifecycle.mkErrChans (Some (Some ErrUnmarshalText)) (Some None)
             (Some (Some (PathError "open" "/etc/iplsd/addrs"))) in
  let choices := [Coordinator.Handler; Coordinator.Tailer; Coordinator.Reaper] in
  exists d,
    Lifecycle.drain choices (Lifecycle.mkDrain c None []) = Some d /\
    Lifecycle.Run choices c = Some (Some (PathError "open" "/etc/iplsd/addrs")) /\
    Lifecycle.logged d = [(Coordinator.Reaper, ErrUnmarshalText)].
Proof.
  intros c choices.
  destruct (Lifecycle.drain choices (Lifecycle.mkDrain c None [])) as [d|] eqn:E;
    [|vm_compute in E; discriminate].
  destruct (LifecycleFacts.Run_returns_the_first_error choices c d E)
    as (Hrun & _ & _ & _ & Hfirst & _).
  exists d. split; [reflexivity|].
  change (Lifecycle.failures choices c)
    with [(Coordinator.Handler, PathError "open" "/etc/iplsd/addrs");
          (Coordinator.Reaper, ErrUnmarshalText)] in Hfirst.
  destruct Hfirst as [Hret Hlog]. rewrite Hrun, Hret. split; [reflexivity | exact Hlog].
Defined.

Lemma tail_reader_sends_complete_lines_witness :
  tailReader ("  Failed password for root " +:+ nl +:+ "next" +:+ nl +:+ "partial")
  = ["Failed password for root"; "next"]%string.
Proof.
  assert (Hls : Forall (fun l => ~ In newline l)
                  [unstr "  Failed password for root "; unstr "next"]).
  { repeat constructor; vm_compute; intuition discriminate. }
  assert (Hp : ~ In newline (unstr "partial"))
    by (vm_compute; intuition discriminate).
  exact (proj1 (tail_reader_sends_complete_lines
                  [unstr "  Failed password for root "; unstr "next"]
                  (unstr "partial") Hls Hp)).
Defined.

Lemma line_readers_agree_witness :
  let content := (" 10.0.0.5 " +:+ nl +:+ nl +:+ "10.0.0.6" +:+ nl)%string in
  tailReader content = map lineText (fileLines content).
Proof.
  assert (Hls : Forall (fun l => ~ In newline l)
                  [unstr " 10.0.0.5 "; []; unstr "10.0.0.6"]).
  { repeat constructor; vm_compute; intuition discriminate. }
  exact (proj2 (line_readers_agree [unstr " 10.0.0.5 "; []; unstr "10.0.0.6"] Hls)).
Defined.
